(** * Degenter indexer (ClickHouse backend): candle aggregation, trade rows,
      pool selection and channel validation

    A shallow embedding of
      - core/ohlcv.js   (both shipped versions),
      - core/trades.js,
      - api/util/pool-select.js,
      - lib/pg_notify.js (both shipped versions),
      - lib/db.js       (the preparation of a statement, the request made on
                         the client, the retries),
    together with the fragment of JavaScript's primitive values and
    coercions these files rely on. *)

From Stdlib Require Import ZArith List String Ascii Bool Lia DecimalString.
From Stdlib Require Import Sorted Permutation.
From Stdlib Require DecimalN.
From stdpp Require Import base tactics option list strings gmap.

Open Scope Z_scope.

(* ================================================================== *)
(** * Part I: definitions *)
(* ================================================================== *)

(** ** JavaScript primitives

    Only primitive values reach the functions modelled below (rows decoded
    from JSON, numbers, strings, null and undefined).  A Number is kept as an
    exact decimal [m * 10^e] next to NaN and the two infinities: every IEEE
    double is such a decimal, and comparisons are exact.  [round64] is the
    double nearest to a decimal, [ToDouble] is [Number(v)] with that rounding
    and [DoubleToString] the text of a double; pool-select.js and the candle
    serializer, whose branches and digits depend on the rounding, read and
    write their Numbers with them.  The sums of a candle and the indices of
    the placeholders are computed on exact decimals ([ToNumber], [num_add]):
    the rounding of these is left out.  Negative zero is not distinguished
    from zero.  Strings are sequences of 8-bit code units. *)
Module JS.

Inductive number : Type :=
| NaN
| PosInfinity
| NegInfinity
| Fin (m e : Z).

Inductive value : Type :=
| VUndefined
| VNull
| VBool (b : bool)
| VNum (n : number)
| VStr (s : string).

Definition of_Z (z : Z) : number := Fin z 0.
Definition VInt (z : Z) : value := VNum (of_Z z).

(** The mantissa of [m * 10^e] once rewritten with exponent [e0 <= e]. *)
Definition align (m e e0 : Z) : Z := m * 10 ^ (e - e0).

Definition Fin_compare (m1 e1 m2 e2 : Z) : comparison :=
  let e0 := Z.min e1 e2 in
  align m1 e1 e0 ?= align m2 e2 e0.

(** Numeric comparison; [None] when an operand is NaN. *)
Definition num_compare (x y : number) : option comparison :=
  match x, y with
  | NaN, _ | _, NaN => None
  | PosInfinity, PosInfinity => Some Eq
  | PosInfinity, _ => Some Gt
  | _, PosInfinity => Some Lt
  | NegInfinity, NegInfinity => Some Eq
  | NegInfinity, _ => Some Lt
  | _, NegInfinity => Some Gt
  | Fin m1 e1, Fin m2 e2 => Some (Fin_compare m1 e1 m2 e2)
  end.

(** Number::lessThan, with [None] for the "undefined" answer. *)
Definition num_lessThan (x y : number) : option bool :=
  match num_compare x y with
  | None => None
  | Some Lt => Some true
  | Some _ => Some false
  end.

(** Number::equal (the [===] and [!==] of two Numbers). *)
Definition num_equal (x y : number) : bool :=
  match num_compare x y with
  | Some Eq => true
  | _ => false
  end.

Definition num_neg (x : number) : number :=
  match x with
  | NaN => NaN
  | PosInfinity => NegInfinity
  | NegInfinity => PosInfinity
  | Fin m e => Fin (- m) e
  end.

Definition num_add (x y : number) : number :=
  match x, y with
  | NaN, _ | _, NaN => NaN
  | PosInfinity, NegInfinity | NegInfinity, PosInfinity => NaN
  | PosInfinity, _ | _, PosInfinity => PosInfinity
  | NegInfinity, _ | _, NegInfinity => NegInfinity
  | Fin m1 e1, Fin m2 e2 =>
      let e0 := Z.min e1 e2 in
      Fin (align m1 e1 e0 + align m2 e2 e0) e0
  end.

Definition num_sub (x y : number) : number := num_add x (num_neg y).

Definition is_zero (x : number) : bool :=
  match x with
  | Fin m _ => m =? 0
  | _ => false
  end.

(** Number.isFinite on a Number. *)
Definition isFinite (x : number) : bool :=
  match x with
  | Fin _ _ => true
  | _ => false
  end.

Definition isNaN (x : number) : bool :=
  match x with
  | NaN => true
  | _ => false
  end.

(** *** Strings *)

Definition digits (z : Z) : string :=
  NilZero.string_of_uint (N.to_uint (Z.to_N z)).

Fixpoint repeat0 (n : nat) : string :=
  match n with
  | O => EmptyString
  | S n' => String "0" (repeat0 n')
  end.

Fixpoint str_take (n : nat) (s : string) : string :=
  match n, s with
  | S n', String c s' => String c (str_take n' s')
  | _, _ => EmptyString
  end.

Fixpoint str_drop (n : nat) (s : string) : string :=
  match n, s with
  | S n', String _ s' => str_drop n' s'
  | _, _ => s
  end.

(** [s.slice(0, n)] for a non-negative literal [n]. *)
Definition slice0 (n : nat) (s : string) : string := str_take n s.

Fixpoint drop_zeros (s : string) : string :=
  match s with
  | String "0" s' => drop_zeros s'
  | _ => s
  end.

Definition strip_trailing_zeros (s : string) : string :=
  String.rev (drop_zeros (String.rev s)).

(** WhiteSpace and LineTerminator code units below 256. *)
Definition is_ws (c : ascii) : bool :=
  match nat_of_ascii c with
  | 9%nat | 10%nat | 11%nat | 12%nat | 13%nat | 32%nat | 160%nat => true
  | _ => false
  end.

Fixpoint trim_start (s : string) : string :=
  match s with
  | String c s' => if is_ws c then trim_start s' else s
  | EmptyString => s
  end.

(** String.prototype.trim *)
Definition trim (s : string) : string :=
  String.rev (trim_start (String.rev (trim_start s))).

Definition lower_char (c : ascii) : ascii :=
  let n := nat_of_ascii c in
  if (65 <=? n)%nat && (n <=? 90)%nat then ascii_of_nat (n + 32) else c.

(** String.prototype.toLowerCase, on the ASCII letters. *)
Fixpoint toLowerCase (s : string) : string :=
  match s with
  | EmptyString => EmptyString
  | String c s' => String (lower_char c) (toLowerCase s')
  end.

Fixpoint all_chars (p : ascii -> bool) (s : string) : bool :=
  match s with
  | EmptyString => true
  | String c s' => p c && all_chars p s'
  end.

Definition is_digit (c : ascii) : bool :=
  (48 <=? nat_of_ascii c)%nat && (nat_of_ascii c <=? 57)%nat.

(** Comparison of two strings by code units, [a < b]. *)
Definition str_lt (a b : string) : bool := String.ltb a b.

(** *** Number::toString *)
Definition exponent_suffix (x : Z) : string :=
  "e" +:+ (if x <? 0 then "-" else "+") +:+ digits (Z.abs x).

Definition NumberToString (x : number) : string :=
  match x with
  | NaN => "NaN"
  | PosInfinity => "Infinity"
  | NegInfinity => "-Infinity"
  | Fin m e =>
      if m =? 0 then "0" else
      let sign := if m <? 0 then "-" else "" in
      let all := digits (Z.abs m) in
      let s := strip_trailing_zeros all in
      let k := Z.of_nat (String.length s) in
      let n := Z.of_nat (String.length all) + e in
      sign +:+
      (if (k <=? n) && (n <=? 21) then
         s +:+ repeat0 (Z.to_nat (n - k))
       else if (0 <? n) && (n <=? 21) then
         str_take (Z.to_nat n) s +:+ "." +:+ str_drop (Z.to_nat n) s
       else if (-6 <? n) && (n <=? 0) then
         "0." +:+ repeat0 (Z.to_nat (- n)) +:+ s
       else if k =? 1 then
         s +:+ exponent_suffix (n - 1)
       else
         str_take 1 s +:+ "." +:+ str_drop 1 s +:+ exponent_suffix (n - 1))
  end.

(** *** StringToNumber *)
Definition digit_of (base : Z) (c : ascii) : option Z :=
  let n := Z.of_nat (nat_of_ascii c) in
  let d := if (48 <=? n) && (n <=? 57) then Some (n - 48)
           else if (97 <=? n) && (n <=? 102) then Some (n - 87)
           else if (65 <=? n) && (n <=? 70) then Some (n - 55)
           else None in
  match d with
  | Some v => if v <? base then Some v else None
  | None => None
  end.

(** Value of a (possibly empty) run of digits; [None] on a foreign
    character. *)
Fixpoint digits_value (base : Z) (acc : Z) (s : string) : option Z :=
  match s with
  | EmptyString => Some acc
  | String c s' =>
      match digit_of base c with
      | Some d => digits_value base (base * acc + d) s'
      | None => None
      end
  end.

(** Split at the first character satisfying [p]. *)
Fixpoint split_at (p : ascii -> bool) (s : string) : string * option string :=
  match s with
  | EmptyString => (EmptyString, None)
  | String c s' =>
      if p c then (EmptyString, Some s')
      else let '(a, b) := split_at p s' in (String c a, b)
  end.

Definition is_char (x : ascii) (c : ascii) : bool :=
  if ascii_dec x c then true else false.

(** SignedInteger of an ExponentPart. *)
Definition parse_exponent (s : string) : option Z :=
  let '(neg, ds) :=
    match s with
    | String "-" r => (true, r)
    | String "+" r => (false, r)
    | _ => (false, s)
    end in
  match ds with
  | EmptyString => None
  | _ => match digits_value 10 0 ds with
         | Some v => Some (if neg then - v else v)
         | None => None
         end
  end.

(** StrUnsignedDecimalLiteral other than Infinity. *)
Definition parse_unsigned_decimal (s : string) : option (Z * Z) :=
  let '(mant, ex) := split_at (fun c => is_char "e" c || is_char "E" c) s in
  let '(ip, fp) := split_at (is_char ".") mant in
  let fr := match fp with Some f => f | None => EmptyString end in
  match ip, fr with
  | EmptyString, EmptyString => None
  | _, _ =>
      match digits_value 10 0 (ip +:+ fr) with
      | None => None
      | Some m =>
          match ex with
          | None => Some (m, - Z.of_nat (String.length fr))
          | Some x =>
              match parse_exponent x with
              | Some v => Some (m, v - Z.of_nat (String.length fr))
              | None => None
              end
          end
      end
  end.

Definition parse_radix (base : Z) (ds : string) : number :=
  match ds with
  | EmptyString => NaN
  | _ => match digits_value base 0 ds with
         | Some v => Fin v 0
         | None => NaN
         end
  end.

Definition parse_signed_decimal (neg : bool) (s : string) : number :=
  if String.eqb s "Infinity" then (if neg then NegInfinity else PosInfinity)
  else match parse_unsigned_decimal s with
       | Some (m, e) => Fin (if neg then - m else m) e
       | None => NaN
       end.

Definition StringToNumber (s : string) : number :=
  match trim s with
  | EmptyString => Fin 0 0
  | String "0" (String "x" r) | String "0" (String "X" r) => parse_radix 16 r
  | String "0" (String "o" r) | String "0" (String "O" r) => parse_radix 8 r
  | String "0" (String "b" r) | String "0" (String "B" r) => parse_radix 2 r
  | String "-" r => parse_signed_decimal true r
  | String "+" r => parse_signed_decimal false r
  | t => parse_signed_decimal false t
  end.

(** *** Coercions and operators on values *)

Definition ToBoolean (v : value) : bool :=
  match v with
  | VUndefined | VNull => false
  | VBool b => b
  | VNum n => negb (is_zero n || isNaN n)
  | VStr s => negb (String.eqb s "")
  end.

(** [Number(v)], read exactly. *)
Definition ToNumber (v : value) : number :=
  match v with
  | VUndefined => NaN
  | VNull => Fin 0 0
  | VBool true => Fin 1 0
  | VBool false => Fin 0 0
  | VNum n => n
  | VStr s => StringToNumber s
  end.

(** [String(v)], also the conversion of a template literal. *)
Definition ToString (v : value) : string :=
  match v with
  | VUndefined => "undefined"
  | VNull => "null"
  | VBool true => "true"
  | VBool false => "false"
  | VNum n => NumberToString n
  | VStr s => s
  end.

(** [a || b] *)
Definition or_else (a b : value) : value := if ToBoolean a then a else b.

Definition is_nullish (v : value) : bool :=
  match v with
  | VUndefined | VNull => true
  | _ => false
  end.

(** [a ?? b] *)
Definition nullish_else (a b : value) : value := if is_nullish a then b else a.

(** [a < b]; [None] is the "undefined" answer of the comparison. *)
Definition lessThan (a b : value) : option bool :=
  match a, b with
  | VStr x, VStr y => Some (str_lt x y)
  | _, _ => num_lessThan (ToNumber a) (ToNumber b)
  end.

Definition lt (a b : value) : bool :=
  match lessThan a b with Some true => true | _ => false end.

Definition gt (a b : value) : bool := lt b a.

(** [a <= b] is "not (b < a)", false when the comparison is undefined. *)
Definition le (a b : value) : bool :=
  match lessThan b a with Some false => true | _ => false end.

(** [a + b] *)
Definition add (a b : value) : value :=
  match a, b with
  | VStr _, _ | _, VStr _ => VStr (ToString a +:+ ToString b)
  | _, _ => VNum (num_add (ToNumber a) (ToNumber b))
  end.

(** [a - b] *)
Definition sub (a b : value) : value :=
  VNum (num_sub (ToNumber a) (ToNumber b)).

(** *** Outcomes of calls that may raise *)
Inductive outcome (A : Type) : Type :=
| Ok (a : A)
| Throw (err : string).
Arguments Ok {A} a.
Arguments Throw {A} err.

Definition bind {A B : Type} (x : outcome A) (f : A -> outcome B) : outcome B :=
  match x with
  | Ok a => f a
  | Throw e => Throw e
  end.

(** The integer [n] for which [n / 10^f - x] is closest to zero, the larger
    one on a tie, for [x = m * 10^e >= 0]. *)
Definition round_scaled (m e f : Z) : Z :=
  if 0 <=? e + f then m * 10 ^ (e + f)
  else let d := 10 ^ (- (e + f)) in (2 * m + d) / (2 * d).

Definition fixed_digits (n f : Z) : string :=
  let m := if n =? 0 then "0"%string else digits n in
  if f =? 0 then m
  else
    let k := String.length m in
    let fn := Z.to_nat f in
    let m' := if (k <=? fn)%nat then repeat0 (fn + 1 - k) +:+ m else m in
    let k' := String.length m' in
    str_take (k' - fn) m' +:+ "." +:+ str_drop (k' - fn) m'.

(** Number.prototype.toFixed, for an integral [fractionDigits]. *)
Definition toFixed (x : number) (f : Z) : outcome string :=
  if (f <? 0) || (100 <? f) then Throw "RangeError"
  else match x with
       | Fin m e =>
           let s := if m <? 0 then "-"%string else ""%string in
           let a := Z.abs m in
           match Fin_compare a e 1 21 with
           | Lt => Ok (s +:+ fixed_digits (round_scaled a e f) f)
           | _ => Ok (s +:+ NumberToString (Fin a e))
           end
       | _ => Ok (NumberToString x)
       end.

(** *** Binary64

    The Number nearest to a decimal: [M * 2^E] with [M <= 2^53] and
    [E >= -1074], the even [M] of two that are equally near, an infinity from
    2^1024 on.  The result is again written as a decimal, an integer with the
    exponent 0. *)

(** The integer nearest to [n / d], the even one of two that are equally
    near, for [n >= 0] and [d > 0]. *)
Definition div_nearest_even (n d : Z) : Z :=
  let q := n / d in
  let r := n mod d in
  match 2 * r ?= d with
  | Lt => q
  | Gt => q + 1
  | Eq => if Z.even q then q else q + 1
  end.

(** The integer part of the binary logarithm of [a / b], for positive [a]
    and [b]. *)
Definition log2_ratio (a b : Z) : Z :=
  let l := Z.log2 a - Z.log2 b in
  let reached := if 0 <=? l then b * 2 ^ l <=? a else b <=? a * 2 ^ (- l) in
  if reached then l else l - 1.

(** The binary64 value nearest to [a / b], for positive [a] and [b]. *)
Definition binary64_of_ratio (a b : Z) : number :=
  let E := Z.max (-1074) (log2_ratio a b - 52) in
  if 0 <=? E then
    let M := div_nearest_even a (b * 2 ^ E) in
    if 2 ^ 1024 <=? M * 2 ^ E then PosInfinity else Fin (M * 2 ^ E) 0
  else
    let M := div_nearest_even (a * 2 ^ (- E)) b in
    if M mod 2 ^ (- E) =? 0 then Fin (M / 2 ^ (- E)) 0
    else Fin (M * 5 ^ (- E)) E.

(** The Number a decimal is read as. *)
Definition round64 (x : number) : number :=
  match x with
  | Fin m e =>
      if m =? 0 then Fin 0 0
      else
        let a := Z.abs m in
        let r := if 0 <=? e then binary64_of_ratio (a * 10 ^ e) 1
                 else binary64_of_ratio a (10 ^ (- e)) in
        if m <? 0 then num_neg r else r
  | _ => x
  end.

(** [Number(v)], as the binary64 value the engine holds. *)
Definition ToDouble (v : value) : number := round64 (ToNumber v).

(** [x - y] on two Numbers. *)
Definition num_sub64 (x y : number) : number := round64 (num_sub x y).

(** *** Number::toString of a binary64 value

    The digits are those of the shortest decimal that reads back as the
    Number, the nearest to it when there are several. *)
Definition num_digits (a : Z) : Z := Z.of_nat (String.length (digits a)).

(** [a * 10^e] cut to [k] significant digits, downwards or upwards. *)
Definition cut (a e k : Z) (up : bool) : number :=
  let d := num_digits a in
  if d <=? k then Fin a e
  else
    let s := a / 10 ^ (d - k) in
    Fin (if up then s + 1 else s) (e + (d - k)).

Definition reads_as (t c : number) : bool := num_equal (round64 c) t.

(** The decimal of [k] digits that reads back as [a * 10^e], if any. *)
Definition shortest_at (a e k : Z) : option number :=
  let t := Fin a e in
  let lo := cut a e k false in
  let hi := cut a e k true in
  match reads_as t lo, reads_as t hi with
  | true, true =>
      match num_compare (num_sub t lo) (num_sub hi t) with
      | Some Lt => Some lo
      | Some Gt => Some hi
      | _ => Some (match lo with
                   | Fin s _ => if Z.even s then lo else hi
                   | _ => lo
                   end)
      end
  | true, false => Some lo
  | false, true => Some hi
  | false, false => None
  end.

(** The search from [k] digits on, over [n] lengths; 17 digits always
    suffice. *)
Fixpoint shortest_from (n : nat) (k : Z) (a e : Z) : number :=
  match n with
  | O => Fin a e
  | S n' =>
      match shortest_at a e k with
      | Some c => c
      | None => shortest_from n' (k + 1) a e
      end
  end.

Definition shortest (x : number) : number :=
  match round64 x with
  | Fin m e =>
      if m =? 0 then Fin 0 0
      else
        let c := shortest_from 17 1 (Z.abs m) e in
        if m <? 0 then num_neg c else c
  | y => y
  end.

(** [String(x)] for a Number [x]. *)
Definition DoubleToString (x : number) : string := NumberToString (shortest x).

End JS.

Import JS.

(** ** Array.prototype.sort

    The sort is stable; a comparator result that is positive puts its first
    argument after its second, anything else (negative, zero, NaN) leaves the
    two in their order. *)
Module JSArray.

Definition comes_after (v : number) : bool :=
  match num_compare v (Fin 0 0) with
  | Some Gt => true
  | _ => false
  end.

Section Sort.
Context {A : Type} (cmp : A -> A -> number).

Fixpoint insert (x : A) (l : list A) : list A :=
  match l with
  | [] => [x]
  | y :: l' => if comes_after (cmp x y) then y :: insert x l' else x :: l
  end.

Definition sort (l : list A) : list A := foldr insert [] l.
End Sort.

(** [xs.join(sep)] on strings. *)
Fixpoint join (sep : string) (xs : list string) : string :=
  match xs with
  | [] => ""
  | [x] => x
  | x :: rest => x +:+ sep +:+ join sep rest
  end.

End JSArray.

(** ** A [Map] with string keys, which iterates in insertion order *)
Module JSMap.

Section OrderedMap.
Context {V : Type}.

Definition t := list (string * V).

Fixpoint get (k : string) (m : t) : option V :=
  match m with
  | [] => None
  | (k', v) :: m' => if String.eqb k k' then Some v else get k m'
  end.

(** [set] keeps the position of a key that is present and appends a new
    one. *)
Fixpoint set (k : string) (v : V) (m : t) : t :=
  match m with
  | [] => [(k, v)]
  | (k', v') :: m' =>
      if String.eqb k k' then (k', v) :: m' else (k', v') :: set k v m'
  end.

Definition keys (m : t) : list string := map fst m.
Definition values (m : t) : list V := map snd m.
End OrderedMap.

Arguments t V : clear implicits.

End JSMap.

(** ** Candles: the data of core/ohlcv.js *)
Module Candle.

(** What [upsertOHLCV1m] pushes on the queue. *)
Record CandleInput : Type := {
  it_pool_id : value;
  it_bucket_start : value;
  it_price : value;
  it_vol_zig : value;
  it_trade_inc : value;
  it_liquidity_zig : value;
}.

(** One row per (pool_id, bucket_start). *)
Record Row : Type := {
  pool_id : value;
  bucket_start : value;
  open : value;
  high : value;
  low : value;
  close : value;
  volume_zig : value;
  trade_count : value;
  liquidity_zig : value;
}.

Definition set_open (r : Row) (v : value) : Row :=
  {| pool_id := pool_id r; bucket_start := bucket_start r; open := v;
     high := high r; low := low r; close := close r;
     volume_zig := volume_zig r; trade_count := trade_count r;
     liquidity_zig := liquidity_zig r |}.

(** The key [`${it.pool_id}__${it.bucket_start}`]. *)
Definition key_of (it : CandleInput) : string :=
  ToString (it_pool_id it) +:+ "__" +:+ ToString (it_bucket_start it).

(** The row created by the first trade of a candle. *)
Definition first_row (it : CandleInput) : Row :=
  {| pool_id := it_pool_id it;
     bucket_start := it_bucket_start it;
     open := it_price it;
     high := it_price it;
     low := it_price it;
     close := it_price it;
     volume_zig := or_else (it_vol_zig it) (VInt 0);
     trade_count := or_else (it_trade_inc it) (VInt 0);
     liquidity_zig := nullish_else (it_liquidity_zig it) VNull |}.

(** The in-place update of a row by a later trade of its candle. *)
Definition update_row (row : Row) (it : CandleInput) : Row :=
  {| pool_id := pool_id row;
     bucket_start := bucket_start row;
     open := open row;
     high := if gt (it_price it) (high row) then it_price it else high row;
     low := if lt (it_price it) (low row) then it_price it else low row;
     close := it_price it;
     volume_zig := add (volume_zig row) (or_else (it_vol_zig it) (VInt 0));
     trade_count := add (trade_count row) (or_else (it_trade_inc it) (VInt 0));
     liquidity_zig :=
       if negb (is_nullish (it_liquidity_zig it)) then it_liquidity_zig it
       else liquidity_zig row |}.

(** One iteration of the loop over the batch. *)
Definition absorb (m : JSMap.t Row) (it : CandleInput) : JSMap.t Row :=
  let key := key_of it in
  match JSMap.get key m with
  | None => JSMap.set key (first_row it) m
  | Some row => JSMap.set key (update_row row it) m
  end.

End Candle.

(** ** core/ohlcv.js, the version with the continuity pass *)
Module Ohlcv.
Import Candle.

(** Last close per pool: key [String(pool_id)], value
    [{ bucket_start: string, close }]. *)
Record LastClose : Type := {
  lc_bucket_start : string;
  lc_close : value;
}.

Abbreviation cache := (gmap string LastClose).

(** [bucket_start] is a string, a number, null or undefined here; a [Date]
    object is outside the values modelled. *)
Definition normalizeBucketStart (bucket_start : value) : value :=
  if negb (ToBoolean bucket_start) then VNull
  else
    let s := ToString bucket_start in
    if (19 <=? String.length s)%nat then VStr (slice0 19 s) else VStr s.

Definition decOrZero (v : value) (scale : option Z) : outcome string :=
  let n := ToDouble (or_else v (VInt 0)) in
  if negb (isFinite n) then Ok "0"%string
  else match scale with
       | Some f => toFixed n f
       | None => Ok (NumberToString n)
       end.

Definition aggregateBatch (items : list CandleInput) : list Row :=
  JSMap.values (fold_left absorb items []).

Definition cols : list string :=
  ["pool_id"; "bucket_start"; "open"; "high"; "low"; "close"; "volume_zig";
   "trade_count"; "liquidity_zig"]%string.

(** [($p,$p+1,...,$p+8)] *)
Definition placeholder (p : Z) : string :=
  "(" +:+ JSArray.join "," (map (fun i => "$" +:+ digits (p + i)) (seqZ 0 9)) +:+ ")".

Definition row_args (r : Row) : outcome (list value) :=
  bind (decOrZero (open r) (Some 18)) (fun o =>
  bind (decOrZero (high r) (Some 18)) (fun h =>
  bind (decOrZero (low r) (Some 18)) (fun l =>
  bind (decOrZero (close r) (Some 18)) (fun c =>
  bind (decOrZero (volume_zig r) (Some 8)) (fun v =>
  bind (decOrZero (nullish_else (liquidity_zig r) (VInt 0)) (Some 8)) (fun q =>
  Ok [nullish_else (pool_id r) (VInt 0);
      bucket_start r;
      VStr o; VStr h; VStr l; VStr c; VStr v;
      nullish_else (trade_count r) (VInt 0);
      VStr q])))))).

(** The loop of [buildInsertSQL]: placeholders and arguments, [p] being the
    next parameter number. *)
Fixpoint insert_loop (p : Z) (rows : list Row) : outcome (list string * list value) :=
  match rows with
  | [] => Ok ([], [])
  | r :: rest =>
      bind (row_args r) (fun a =>
      bind (insert_loop (p + 9) rest) (fun '(ph, args) =>
      Ok (placeholder p :: ph, a ++ args)))
  end.

Record InsertSQL : Type := {
  sql : option string;
  args : list value;
}.

Definition buildInsertSQL (rows : list Row) : outcome InsertSQL :=
  match rows with
  | [] => Ok {| sql := None; args := [] |}
  | _ =>
      bind (insert_loop 1 rows) (fun '(placeholders, args) =>
      Ok {| sql := Some ("
    INSERT INTO ohlcv_1m
      (" +:+ JSArray.join "," cols +:+ ")
    VALUES
      " +:+ JSArray.join "," placeholders +:+ "
  ");
            args := args |})
  end.

(** The comparator of [agg.sort]: by [String(pool_id ?? '')], then by
    [String(bucket_start ?? '')], both as strings. *)
Definition by_pool_then_bucket (a b : Row) : number :=
  let ap := ToString (nullish_else (pool_id a) (VStr "")) in
  let bp := ToString (nullish_else (pool_id b) (VStr "")) in
  if str_lt ap bp then of_Z (-1)
  else if str_lt bp ap then of_Z 1
  else
    let as_ := ToString (nullish_else (bucket_start a) (VStr "")) in
    let bs := ToString (nullish_else (bucket_start b) (VStr "")) in
    if str_lt as_ bs then of_Z (-1)
    else if str_lt bs as_ then of_Z 1
    else of_Z 0.

Definition pool_key (r : Row) : string :=
  ToString (nullish_else (pool_id r) (VStr "")).

Definition bucket_ts (r : Row) : string :=
  ToString (nullish_else (bucket_start r) (VStr "")).

(** The body of the continuity loop for one row: the row as it is left in
    [agg] and the cache after [lastCloseByPool.set]. *)
Definition chain (lastCloseByPool : cache) (r : Row) : cache * Row :=
  let key := pool_key r in
  let prev := lastCloseByPool !! key in
  let curTs := bucket_ts r in
  let r' :=
    match prev with
    | Some prev =>
        if str_lt (lc_bucket_start prev) curTs then set_open r (lc_close prev)
        else r
    | None => r
    end in
  (<[key := {| lc_bucket_start := curTs; lc_close := close r |}]> lastCloseByPool, r').

Fixpoint continuity (lastCloseByPool : cache) (agg : list Row) : cache * list Row :=
  match agg with
  | [] => (lastCloseByPool, [])
  | r :: rest =>
      let '(c1, r') := chain lastCloseByPool r in
      let '(c2, rest') := continuity c1 rest in
      (c2, r' :: rest')
  end.

(** The rows handed to [buildInsertSQL] by one flush, and the cache it
    leaves. *)
Definition flush_rows (lastCloseByPool : cache) (items : list CandleInput)
  : cache * list Row :=
  match items with
  | [] => (lastCloseByPool, [])
  | _ =>
      let agg := aggregateBatch items in
      match agg with
      | [] => (lastCloseByPool, agg)
      | _ => continuity lastCloseByPool (JSArray.sort by_pool_then_bucket agg)
      end
  end.

(** [flushFn]: the cache afterwards and the statement sent to [DB.query], if
    any. *)
Definition flushFn (lastCloseByPool : cache) (items : list CandleInput)
  : cache * outcome (option (string * list value)) :=
  match items with
  | [] => (lastCloseByPool, Ok None)
  | _ =>
      let '(c, agg) := flush_rows lastCloseByPool items in
      (c, bind (buildInsertSQL agg) (fun q =>
            match sql q with
            | None => Ok None
            | Some text => Ok (Some (text, args q))
            end))
  end.

(** Modelled from the spec: lib/batch.js is not among the sources.  The
    queue runs one flush at a time, in the order the flushes were triggered,
    each on the items pushed since the previous one, in push order. *)
Fixpoint flushes (lastCloseByPool : cache) (batches : list (list CandleInput))
  : cache * list (list Row) :=
  match batches with
  | [] => (lastCloseByPool, [])
  | b :: rest =>
      let '(c1, rows) := flush_rows lastCloseByPool b in
      let '(c2, more) := flushes c1 rest in
      (c2, rows :: more)
  end.

(** The item [upsertOHLCV1m] pushes for its argument. *)
Definition upsertOHLCV1m (a : CandleInput) : CandleInput :=
  let liquidity_zig :=
    match it_liquidity_zig a with VUndefined => VNull | v => v end in
  let bs := normalizeBucketStart (it_bucket_start a) in
  {| it_pool_id := it_pool_id a;
     it_bucket_start := bs;
     it_price := it_price a;
     it_vol_zig := or_else (it_vol_zig a) (VInt 0);
     it_trade_inc := or_else (it_trade_inc a) (VInt 0);
     it_liquidity_zig := liquidity_zig |}.

End Ohlcv.

(** ** core/ohlcv.js, the version without the continuity pass

    [normalizeBucketStart], [decOrZero], [buildInsertSQL] and
    [upsertOHLCV1m] have the same text in both versions; the ones above are
    used. *)
Module OhlcvPlain.
Import Candle.

Definition aggregateBatch (items : list CandleInput) : list Row :=
  let map :=
    fold_left
      (fun (map : JSMap.t Row) (it : CandleInput) =>
         let key := ToString (it_pool_id it) +:+ "__" +:+ ToString (it_bucket_start it) in
         match JSMap.get key map with
         | None =>
             JSMap.set key
               {| pool_id := it_pool_id it;
                  bucket_start := it_bucket_start it;
                  open := it_price it;
                  high := it_price it;
                  low := it_price it;
                  close := it_price it;
                  volume_zig := or_else (it_vol_zig it) (VInt 0);
                  trade_count := or_else (it_trade_inc it) (VInt 0);
                  liquidity_zig := nullish_else (it_liquidity_zig it) VNull |}
               map
         | Some row =>
             JSMap.set key
               {| pool_id := pool_id row;
                  bucket_start := bucket_start row;
                  open := open row;
                  high := if gt (it_price it) (high row) then it_price it else high row;
                  low := if lt (it_price it) (low row) then it_price it else low row;
                  close := it_price it;
                  volume_zig := add (volume_zig row) (or_else (it_vol_zig it) (VInt 0));
                  trade_count := add (trade_count row) (or_else (it_trade_inc it) (VInt 0));
                  liquidity_zig :=
                    if negb (is_nullish (it_liquidity_zig it)) then it_liquidity_zig it
                    else liquidity_zig row |}
               map
         end)
      items [] in
  JSMap.values map.

(** [flushFn]: the statement sent to [DB.query], if any. *)
Definition flushFn (items : list CandleInput)
  : outcome (option (string * list value)) :=
  match items with
  | [] => Ok None
  | _ =>
      let agg := aggregateBatch items in
      bind (Ohlcv.buildInsertSQL agg) (fun q =>
        match Ohlcv.sql q with
        | None => Ok None
        | Some text => Ok (Some (text, Ohlcv.args q))
        end)
  end.

End OhlcvPlain.

(** ** core/trades.js *)
Module Trades.

(** A trade as handed to [insertTrade]; an absent field reads as
    [undefined]. *)
Record Trade : Type := {
  pool_id : value;
  pair_contract : value;
  action : value;
  direction : value;
  offer_asset_denom : value;
  offer_amount_base : value;
  ask_asset_denom : value;
  ask_amount_base : value;
  return_amount_base : value;
  is_router : value;
  reserve_asset1_denom : value;
  reserve_asset1_amount_base : value;
  reserve_asset2_denom : value;
  reserve_asset2_amount_base : value;
  height : value;
  tx_hash : value;
  signer : value;
  msg_index : value;
  created_at : value;
}.

Definition INSERT_SQL : string := "
  INSERT INTO trades
   (pool_id, pair_contract, action, direction,
    offer_asset_denom, offer_amount_base,
    ask_asset_denom, ask_amount_base,
    return_amount_base, is_router,
    reserve_asset1_denom, reserve_asset1_amount_base,
    reserve_asset2_denom, reserve_asset2_amount_base,
    height, tx_hash, signer, msg_index, created_at)
  VALUES %VALUES%
".

Definition normalizeCreatedAt (createdAt : value) : value :=
  if negb (ToBoolean createdAt) then VNull
  else
    let s := ToString createdAt in
    if (19 <=? String.length s)%nat then VStr (slice0 19 s) else VStr s.

Definition decOrZero (v : value) : value :=
  if is_nullish v then VInt 0
  else
    let s := trim (ToString v) in
    if negb (ToBoolean (VStr s)) then VInt 0 else VStr s.

(** [($i,...,$i+18)] *)
Definition placeholder (i : Z) : string :=
  "(" +:+ JSArray.join "," (map (fun k => "$" +:+ digits (i + k)) (seqZ 0 19)) +:+ ")".

Definition trade_args (t : Trade) : list value :=
  [ nullish_else (pool_id t) (VInt 0);
    or_else (pair_contract t) (VStr "");
    or_else (action t) (VStr "swap");
    or_else (direction t) (VStr "buy");
    or_else (offer_asset_denom t) (VStr "");
    decOrZero (offer_amount_base t);
    or_else (ask_asset_denom t) (VStr "");
    decOrZero (ask_amount_base t);
    decOrZero (return_amount_base t);
    (if ToBoolean (is_router t) then VInt 1 else VInt 0);
    or_else (reserve_asset1_denom t) (VStr "");
    decOrZero (reserve_asset1_amount_base t);
    or_else (reserve_asset2_denom t) (VStr "");
    decOrZero (reserve_asset2_amount_base t);
    nullish_else (height t) (VInt 0);
    or_else (tx_hash t) (VStr "");
    or_else (signer t) (VStr "");
    nullish_else (msg_index t) (VInt 0);
    normalizeCreatedAt (created_at t) ].

Fixpoint values_loop (i : Z) (rows : list Trade) : list string * list value :=
  match rows with
  | [] => ([], [])
  | t :: rest =>
      let '(vals, args) := values_loop (i + 19) rest in
      (placeholder i :: vals, trade_args t ++ args)
  end.

(** [s.replace(pat, rep)] for a string pattern and a replacement without
    the dollar patterns that [replace] substitutes ([$$], [$&], ...):
    the first occurrence of [pat] is replaced. *)
Fixpoint replace (pat rep s : string) : string :=
  if String.prefix pat s then rep +:+ str_drop (String.length pat) s
  else match s with
       | EmptyString => EmptyString
       | String c s' => String c (replace pat rep s')
       end.

Record Statement : Type := {
  text : string;
  args : list value;
}.

Definition sqlValues (rows : list Trade) : Statement :=
  let '(vals, args) := values_loop 1 rows in
  {| text := replace "%VALUES%" (JSArray.join "," vals) INSERT_SQL;
     args := args |}.

(** [flushFn] of the trades queue: the statement sent to [DB.query], if
    any. *)
Definition flushFn (items : list Trade) : option Statement :=
  match items with
  | [] => None
  | _ => Some (sqlValues items)
  end.

End Trades.

(** ** lib/pg_notify.js *)
Module PgNotifyCommon.

Definition in_range (lo hi c : ascii) : bool :=
  (nat_of_ascii lo <=? nat_of_ascii c)%nat && (nat_of_ascii c <=? nat_of_ascii hi)%nat.

(** The class [[a-z_]] under the flag [i]. *)
Definition ident_start (c : ascii) : bool :=
  in_range "a" "z" c || in_range "A" "Z" c || is_char "_" c.

(** The class [[a-z0-9_]] under the flag [i]. *)
Definition ident_part (c : ascii) : bool :=
  in_range "a" "z" c || in_range "A" "Z" c || in_range "0" "9" c || is_char "_" c.

(** [CHAN_RX.test(channel)] for [CHAN_RX = /^[a-z_][a-z0-9_]*$/i]. *)
Definition CHAN_RX_test (channel : value) : bool :=
  match ToString channel with
  | EmptyString => false
  | String c rest => ident_start c && all_chars ident_part rest
  end.

(** What a call does besides returning or raising.  Modelled from the spec:
    lib/log.js is not among the sources; [info] and [warn] are taken to
    record a line and return. *)
Inductive effect : Type :=
| Info (line : string)
| Warn (line : string)
| BusEmit (channel payload : value)
| BusOn (channel : value).

(** The dummy client returned by [pgListen]. *)
Inductive client : Type := Client (channel : value).

Definition invalid_channel (channel : value) : string :=
  "invalid channel: " +:+ ToString channel.

(** The double quote character. *)
Definition dq : string := String (ascii_of_nat 34) EmptyString.

End PgNotifyCommon.

(** The version for which notification is a no-op. *)
Module PgNotifyNoop.
Import PgNotifyCommon.

Definition pgNotify (channel payload : value) : outcome unit * list effect :=
  if negb (CHAN_RX_test channel) then (Throw (invalid_channel channel), [])
  else (Ok tt, []).

Definition pgListen (channel : value) : outcome client * list effect :=
  if negb (CHAN_RX_test channel) then (Throw (invalid_channel channel), [])
  else
    (Ok (Client channel),
     [Info ("[pgListen] disabled (ClickHouse backend); fasttrack notifications are no-op for channel "
            +:+ dq +:+ ToString channel +:+ dq)]).

End PgNotifyNoop.

(** The version with the in-process event bus. *)
Module PgNotifyBus.
Import PgNotifyCommon.

Section Bus.
(** [bus.emit(channel, payload)] runs the registered handlers; it returns
    or raises with a message. *)
Variable emit : value -> value -> outcome unit.

Definition pgNotify (channel payload : value) : outcome unit * list effect :=
  if negb (CHAN_RX_test channel) then (Throw (invalid_channel channel), [])
  else
    match emit channel payload with
    | Ok _ => (Ok tt, [BusEmit channel payload; Info "[pgNotify]"])
    | Throw message => (Ok tt, [BusEmit channel payload; Warn ("[pgNotify error] " +:+ message)])
    end.
End Bus.

Definition pgListen (channel : value) : outcome client * list effect :=
  if negb (CHAN_RX_test channel) then (Throw (invalid_channel channel), [])
  else
    (Ok (Client channel),
     [BusOn channel;
      Info ("[pgListen] registered in-memory listener for "
            +:+ dq +:+ ToString channel +:+ dq)]).

End PgNotifyBus.

(** ** api/util/pool-select.js *)
Module PoolSelect.

(** *** Rows returned by the statements of this file *)
Record PoolRow : Type := {
  pool_id : value;
  pair_contract : value;
}.

Record PriceRow : Type := {
  pr_pool_id : value;
  pr_price_in_zig : value;
  pr_updated_at : value;
  pr_pair_contract : value;
}.

Record TvlRow : Type := {
  tv_pool_id : value;
  tv_tvl_zig : value;
}.

Record PctRow : Type := {
  pct : value;
}.

(** *** The store, seen through [DB.query]

    One entry per statement of the file, each taking the statement's
    parameters (for the TVL statement the text spliced into [IN (...)]) and
    returning the decoded rows or raising. *)
Record DB : Type := {
  select_first_uzig_pool : value -> outcome (list PoolRow);
  select_recent_prices : value -> outcome (list PriceRow);
  select_tvl_24h : string -> outcome (list TvlRow);
  select_pool_of_token : value -> value -> outcome (list PoolRow);
  select_change : value -> value -> outcome (list PctRow);
}.

(** The statements issued, in order. *)
Inductive issued : Type :=
| FirstUzigPool (tokenId : value)
| RecentPrices (tokenId : value)
| Tvl24h (ids : string)
| PoolOfToken (pid tokenId : value)
| Change (poolId mins : value).

(** Computations that query the store: they return or raise, and log the
    statements they issue. *)
Definition M (A : Type) : Type := list issued -> outcome A * list issued.

Definition ret {A : Type} (a : A) : M A := fun log => (Ok a, log).

Definition mbind {A B : Type} (m : M A) (f : A -> M B) : M B :=
  fun log =>
    match m log with
    | (Ok a, log') => f a log'
    | (Throw e, log') => (Throw e, log')
    end.

Definition raise {A : Type} (e : string) : M A := fun log => (Throw e, log).

Definition query {A : Type} (q : issued) (answer : outcome (list A)) : M (list A) :=
  fun log => (answer, log ++ [q]).

Declare Scope db_scope.
Delimit Scope db_scope with db.
Notation "x <- m ;; k" := (mbind m (fun x => k))
  (at level 100, m at next level, right associativity) : db_scope.
Local Open Scope db_scope.

Definition run {A : Type} (m : M A) : outcome A * list issued := m [].

Section WithDB.
Variable db : DB.

(** Earliest-created UZIG-quoted pool for this token. *)
Definition firstUzigPool (tokenId : value) : M (option PoolRow) :=
  rows <- query (FirstUzigPool tokenId) (select_first_uzig_pool db tokenId) ;;
  match rows with
  | [] => ret None
  | r :: _ => ret (Some {| pool_id := pool_id r; pair_contract := pair_contract r |})
  end.

(** [new Map(tvls.rows.map(r => [String(r.pool_id), Number(r.tvl_zig || 0)]))]:
    a later row for the same pool replaces an earlier one. *)
Definition tvl_map (rows : list TvlRow) : gmap string number :=
  fold_left
    (fun m r => <[ToString (tv_pool_id r) := ToDouble (or_else (tv_tvl_zig r) (VInt 0))]> m)
    rows ∅.

(** [tvlMap.get(String(a.pool_id)) || 0] *)
Definition tvl_of (tvlMap : gmap string number) (a : PriceRow) : value :=
  or_else
    (match tvlMap !! ToString (pr_pool_id a) with
     | Some n => VNum n
     | None => VUndefined
     end)
    (VInt 0).

(** The comparator of [prices.rows.sort]; [ta] and [tb] are Numbers. *)
Definition by_price_then_tvl (tvlMap : gmap string number) (a b : PriceRow) : number :=
  let pa := ToDouble (pr_price_in_zig a) in
  let pb := ToDouble (pr_price_in_zig b) in
  if negb (num_equal pa pb) then num_sub64 pa pb
  else
    let ta := tvl_of tvlMap a in
    let tb := tvl_of tvlMap b in
    num_sub64 (ToNumber tb) (ToNumber ta).

Record Best : Type := {
  b_pool_id : value;
  b_pair_contract : value;
  b_price_in_zig : value;
}.

(** The text spliced into [IN (...)]. *)
Definition in_list (ids : list value) : string :=
  ToString
    (or_else (VStr (JSArray.join "," (map (fun id => DoubleToString (ToDouble id)) ids)))
             (VStr "NULL")).

(** Best executable price pool (lowest price_in_zig, tie-break by highest
    24h TVL). *)
Definition bestUzigPool (tokenId : value) : M (option Best) :=
  prices <- query (RecentPrices tokenId) (select_recent_prices db tokenId) ;;
  match prices with
  | [] => ret None
  | _ =>
      let ids := map pr_pool_id prices in
      tvls <- query (Tvl24h (in_list ids)) (select_tvl_24h db (in_list ids)) ;;
      let tvlMap := tvl_map tvls in
      let sorted := JSArray.sort (by_price_then_tvl tvlMap) prices in
      match sorted with
      | [] => raise "TypeError"
      | top :: _ =>
          ret (Some {| b_pool_id := pr_pool_id top;
                       b_pair_contract := pr_pair_contract top;
                       b_price_in_zig := VNum (ToDouble (pr_price_in_zig top)) |})
      end
  end.

(** The pool of a selection: the two fields every policy returns, and the
    price that only [bestUzigPool] adds. *)
Record Pool : Type := {
  sel_pool_id : value;
  sel_pair_contract : value;
  sel_price_in_zig : value;
}.

Record Selection : Type := {
  mode : string;
  pool : option Pool;
}.

Definition of_row (r : PoolRow) : Pool :=
  {| sel_pool_id := pool_id r; sel_pair_contract := pair_contract r;
     sel_price_in_zig := VUndefined |}.

Definition of_best (b : Best) : Pool :=
  {| sel_pool_id := b_pool_id b; sel_pair_contract := b_pair_contract b;
     sel_price_in_zig := b_price_in_zig b |}.

(** [resolvePoolSelection(tokenId, { priceSource = 'best', poolId } = {})] *)
Definition resolvePoolSelection (tokenId priceSource poolId : value) : M Selection :=
  let priceSource :=
    match priceSource with VUndefined => VStr "best" | v => v end in
  let src := toLowerCase (ToString (or_else priceSource (VStr "best"))) in
  if String.eqb src "pool" then
    let pid := ToDouble (or_else poolId (VInt 0)) in
    if negb (isFinite pid) || le (VNum pid) (VInt 0) then
      ret {| mode := "pool"; pool := None |}
    else
      rows <- query (PoolOfToken (VNum pid) tokenId)
                    (select_pool_of_token db (VNum pid) tokenId) ;;
      ret {| mode := "pool";
             pool := match rows with
                     | r :: _ => Some (of_row r)
                     | [] => None
                     end |}
  else if String.eqb src "first" then
    p <- firstUzigPool tokenId ;;
    ret {| mode := "first"; pool := option_map of_row p |}
  else
    p <- bestUzigPool tokenId ;;
    ret {| mode := "best"; pool := option_map of_best p |}.

(** The guard against a bad or undefined [poolId]:
    [poolId == null || poolId === '' || poolId === 'undefined' ||
     Number.isNaN(Number(poolId))]. *)
Definition bad_pool_id (poolId : value) : bool :=
  is_nullish poolId
  || (match poolId with VStr s => String.eqb s "" | _ => false end)
  || (match poolId with VStr s => String.eqb s "undefined" | _ => false end)
  || isNaN (ToDouble poolId).

(** % change over N minutes for one pool's OHLCV stream. *)
Definition changePctForMinutes (poolId minutes : value) : M value :=
  if bad_pool_id poolId then ret VNull
  else
    let mins := ToDouble (or_else minutes (VInt 0)) in
    if negb (isFinite mins) || le (VNum mins) (VInt 0) then ret VNull
    else
      let p1 := VStr (ToString poolId) in
      let p2 := VStr (DoubleToString mins) in
      rows <- query (Change p1 p2) (select_change db p1 p2) ;;
      match rows with
      | r :: _ =>
          if negb (is_nullish (pct r)) then ret (VNum (ToDouble (pct r)))
          else ret VNull
      | [] => ret VNull
      end.
End WithDB.

End PoolSelect.

(** ** A reference store

    The meaning of the five statements of pool-select.js over tables that
    carry the columns the statements mention.  NUMERIC(38,18) and
    NUMERIC(38,8) columns hold the scaled integer; timestamps are in
    seconds. *)
Module Store.
Import PoolSelect.

Record PoolT : Type := {
  p_pool_id : Z;
  p_pair_contract : string;
  p_base_token_id : Z;
  p_is_uzig_quote : bool;
  p_created_at : Z;
}.

Record PriceT : Type := {
  x_token_id : Z;
  x_pool_id : Z;
  x_price_in_zig : Z;
  x_updated_at : Z;
}.

Record MetricT : Type := {
  m_pool_id : Z;
  m_bucket : string;
  m_tvl_zig : option Z;
}.

Record CandleT : Type := {
  c_pool_id : Z;
  c_bucket_start : Z;
  c_close : Z;
}.

Record Tables : Type := {
  pools : list PoolT;
  prices : list PriceT;
  pool_matrix : list MetricT;
  ohlcv_1m : list CandleT;
  now : Z;
}.

(** A parameter compared with an integer column: it is read as a number;
    NULL and text that is no number match nothing. *)
Definition param_is (p : value) (z : Z) : bool :=
  negb (is_nullish p) && num_equal (ToNumber p) (of_Z z).

(** [toInt64] of a parameter: the integer it denotes, if any. *)
Definition param_int (p : value) : option Z :=
  match ToNumber p with
  | Fin m e =>
      if 0 <=? e then Some (m * 10 ^ e)
      else if m mod 10 ^ (- e) =? 0 then Some (m / 10 ^ (- e))
      else None
  | _ => None
  end.

(** ORDER BY an integer key (stable), ascending. *)
Fixpoint insert_by {A : Type} (key : A -> Z) (x : A) (l : list A) : list A :=
  match l with
  | [] => [x]
  | y :: l' => if key y <? key x then y :: insert_by key x l' else x :: l
  end.

Definition order_by {A : Type} (key : A -> Z) (l : list A) : list A :=
  foldr (insert_by key) [] l.

Definition order_by_desc {A : Type} (key : A -> Z) (l : list A) : list A :=
  order_by (fun a => - key a) l.

Definition decimal18 (z : Z) : value := VNum (Fin z (-18)).
Definition decimal8 (z : Z) : value := VNum (Fin z (-8)).

Definition pool_row (p : PoolT) : PoolRow :=
  {| pool_id := VInt (p_pool_id p); pair_contract := VStr (p_pair_contract p) |}.

Section Statements.
Variable T : Tables.

(** SELECT p.pool_id, p.pair_contract FROM pools p
    WHERE p.base_token_id=$1 AND p.is_uzig_quote=1
    ORDER BY p.created_at ASC LIMIT 1 *)
Definition first_uzig_pool (tokenId : value) : list PoolRow :=
  map pool_row
    (firstn 1 (order_by p_created_at
       (List.filter (fun p => param_is tokenId (p_base_token_id p) && p_is_uzig_quote p)
               (pools T)))).

(** The join of prices with pools for a token, UZIG-quoted pools only. *)
Definition priced_pools (tokenId : value) : list (PriceT * PoolT) :=
  flat_map
    (fun x =>
       map (fun p => (x, p))
           (List.filter (fun p => (p_pool_id p =? x_pool_id x) && p_is_uzig_quote p) (pools T)))
    (List.filter (fun x => param_is tokenId (x_token_id x)) (prices T)).

(** The row returned for a price and its pool. *)
Definition price_row (xp : PriceT * PoolT) : PriceRow :=
  {| pr_pool_id := VInt (x_pool_id (fst xp));
     pr_price_in_zig := decimal18 (x_price_in_zig (fst xp));
     pr_updated_at := VInt (x_updated_at (fst xp));
     pr_pair_contract := VStr (p_pair_contract (snd xp)) |}.

(** SELECT pr.pool_id, pr.price_in_zig, pr.updated_at, p.pair_contract
    FROM prices pr JOIN pools p ON p.pool_id=pr.pool_id
    WHERE pr.token_id=$1 AND p.is_uzig_quote=1
    ORDER BY pr.updated_at DESC LIMIT 16 *)
Definition recent_prices (tokenId : value) : list PriceRow :=
  map price_row
      (firstn 16 (order_by_desc (fun xp => x_updated_at (fst xp)) (priced_pools tokenId))).

(** The members of the spliced [IN (...)] list. *)
Fixpoint split_commas (cur : string) (s : string) : list string :=
  match s with
  | EmptyString => [String.rev cur]
  | String c s' =>
      if is_char "," c then String.rev cur :: split_commas EmptyString s'
      else split_commas (String c cur) s'
  end.

Definition in_members (ids : string) : list value :=
  map VStr (split_commas EmptyString ids).

(** SELECT pool_id, tvl_zig FROM pool_matrix
    WHERE bucket='24h' AND pool_id IN (...) *)
Definition tvl_24h (ids : string) : list TvlRow :=
  map (fun m =>
         {| tv_pool_id := VInt (m_pool_id m);
            tv_tvl_zig := match m_tvl_zig m with
                          | Some z => decimal8 z
                          | None => VNull
                          end |})
      (List.filter (fun m => String.eqb (m_bucket m) "24h"
                        && existsb (fun id => param_is id (m_pool_id m)) (in_members ids))
              (pool_matrix T)).

(** SELECT pool_id, pair_contract FROM pools
    WHERE pool_id=$1 AND base_token_id=$2 *)
Definition pool_of_token (pid tokenId : value) : list PoolRow :=
  map pool_row
    (List.filter (fun p => param_is pid (p_pool_id p) && param_is tokenId (p_base_token_id p))
            (pools T)).

(** ORDER BY bucket_start DESC LIMIT 1 *)
Definition latest (cs : list CandleT) : option CandleT :=
  head (order_by_desc c_bucket_start cs).

Definition candles_of (poolId : value) : list CandleT :=
  List.filter (fun c => param_is poolId (c_pool_id c)) (ohlcv_1m T).

(** The CTE [last]. *)
Definition last_candle (poolId : value) : option CandleT :=
  latest (candles_of poolId).

(** The CTE [prev], for a window of [n] minutes. *)
Definition prev_candle (poolId : value) (n : Z) : option CandleT :=
  latest (List.filter (fun c => c_bucket_start c <=? now T - 60 * n) (candles_of poolId)).

(** [((last.close - prev.close) / prev.close) * 100] on NUMERIC(38,18):
    the quotient keeps 18 fractional digits, truncated. *)
Definition pct_of (last prev : Z) : value :=
  decimal18 (Z.quot ((last - prev) * 10 ^ 18) prev * 100).

(** The statement of [changePctForMinutes]: one row per pair of [last]
    and [prev], the CASE being NULL unless [prev.close > 0]. *)
Definition change (poolId mins : value) : outcome (list PctRow) :=
  match param_int mins with
  | None => Throw "Cannot parse string as Int64"
  | Some n =>
      match last_candle poolId, prev_candle poolId n with
      | Some l, Some p =>
          Ok [{| pct := if 0 <? c_close p then pct_of (c_close l) (c_close p)
                        else VNull |}]
      | _, _ => Ok []
      end
  end.

Definition db : DB :=
  {| select_first_uzig_pool := fun tokenId => Ok (first_uzig_pool tokenId);
     select_recent_prices := fun tokenId => Ok (recent_prices tokenId);
     select_tvl_24h := fun ids => Ok (tvl_24h ids);
     select_pool_of_token := fun pid tokenId => Ok (pool_of_token pid tokenId);
     select_change := change |}.
End Statements.

End Store.

(** ** Sample data *)
Module Sample.
Import Store.

(** Two UZIG-quoted pools A and B of token 7, priced 5 each, with a 24h TVL
    of 100 and 200, and two candles of pool 1. *)
Definition tables : Tables :=
  {| pools :=
       [ {| p_pool_id := 1; p_pair_contract := "A"; p_base_token_id := 7;
            p_is_uzig_quote := true; p_created_at := 5 |};
         {| p_pool_id := 2; p_pair_contract := "B"; p_base_token_id := 7;
            p_is_uzig_quote := true; p_created_at := 6 |} ];
     prices :=
       [ {| x_token_id := 7; x_pool_id := 1; x_price_in_zig := 5 * 10 ^ 18;
            x_updated_at := 100 |};
         {| x_token_id := 7; x_pool_id := 2; x_price_in_zig := 5 * 10 ^ 18;
            x_updated_at := 90 |} ];
     pool_matrix :=
       [ {| m_pool_id := 1; m_bucket := "24h"; m_tvl_zig := Some (100 * 10 ^ 8) |};
         {| m_pool_id := 2; m_bucket := "24h"; m_tvl_zig := Some (200 * 10 ^ 8) |} ];
     ohlcv_1m :=
       [ {| c_pool_id := 1; c_bucket_start := 0; c_close := 2 * 10 ^ 18 |};
         {| c_pool_id := 1; c_bucket_start := 600; c_close := 3 * 10 ^ 18 |} ];
     now := 660 |}.

(** A store whose two candidates have prices that differ below the
    precision of a Number: 5.000000000000000001 with a TVL of 100, and 5 with
    a TVL of 50. *)
Definition near_prices : PoolSelect.DB :=
  {| PoolSelect.select_first_uzig_pool := fun _ => Ok [];
     PoolSelect.select_recent_prices := fun _ =>
       Ok [ {| PoolSelect.pr_pool_id := VInt 1;
               PoolSelect.pr_price_in_zig := VStr "5.000000000000000001";
               PoolSelect.pr_updated_at := VInt 100;
               PoolSelect.pr_pair_contract := VStr "A" |};
            {| PoolSelect.pr_pool_id := VInt 2;
               PoolSelect.pr_price_in_zig := VStr "5";
               PoolSelect.pr_updated_at := VInt 90;
               PoolSelect.pr_pair_contract := VStr "B" |} ];
     PoolSelect.select_tvl_24h := fun _ =>
       Ok [ {| PoolSelect.tv_pool_id := VInt 1; PoolSelect.tv_tvl_zig := VStr "100" |};
            {| PoolSelect.tv_pool_id := VInt 2; PoolSelect.tv_tvl_zig := VStr "50" |} ];
     PoolSelect.select_pool_of_token := fun _ _ => Ok [];
     PoolSelect.select_change := fun _ _ => Ok [] |}.

(** A trade tick of one trade for [upsertOHLCV1m]. *)
Definition tick (pool : Z) (bucket : string) (price : Z) : Candle.CandleInput :=
  {| Candle.it_pool_id := VInt pool;
     Candle.it_bucket_start := VStr bucket;
     Candle.it_price := VInt price;
     Candle.it_vol_zig := VUndefined;
     Candle.it_trade_inc := VInt 1;
     Candle.it_liquidity_zig := VUndefined |}.

End Sample.

(** ** Vocabulary of the properties *)
Module Spec.

(** A field that is missing: [undefined] or [null]. *)
Definition absent (v : value) : Prop := v = VUndefined \/ v = VNull.

(** A call that raised. *)
Definition raised {A E : Type} (r : outcome A * E) : Prop :=
  exists err, fst r = Throw err.

(** A call that returned. *)
Definition returned {A E : Type} (r : outcome A * E) : Prop :=
  exists a, fst r = Ok a.

(** A call guarded by a validity test fails fast: it raises exactly when the
    test fails, returns exactly when it passes, and has no effect when it
    raises. *)
Definition fails_fast {A : Type} (valid : bool)
    (call : outcome A * list PgNotifyCommon.effect) : Prop :=
  (raised call <-> valid = false)
  /\ (returned call <-> valid = true)
  /\ (raised call -> snd call = []).

(** The inputs of a batch that carry the key [k], in push order. *)
Definition with_key (k : string) (items : list Candle.CandleInput)
  : list Candle.CandleInput :=
  List.filter (fun it => String.eqb (Candle.key_of it) k) items.

(** The candle of the inputs of one group, taken in push order: the first
    one opens it and every later one updates it. *)
Definition candle_of (g : list Candle.CandleInput) : option Candle.Row :=
  match g with
  | [] => None
  | it :: rest => Some (fold_left Candle.update_row rest (Candle.first_row it))
  end.

(** The group of an input or of a row: the texts of its pool id and of its
    bucket start. *)
Definition group_of (it : Candle.CandleInput) : string * string :=
  (ToString (Candle.it_pool_id it), ToString (Candle.it_bucket_start it)).

Definition row_group (r : Candle.Row) : string * string :=
  (ToString (Candle.pool_id r), ToString (Candle.bucket_start r)).

Definition same_group (g : string * string) (it : Candle.CandleInput) : bool :=
  String.eqb (fst (group_of it)) (fst g) && String.eqb (snd (group_of it)) (snd g).

(** The inputs of a batch that belong to a group, in push order. *)
Definition members (g : string * string) (items : list Candle.CandleInput)
  : list Candle.CandleInput :=
  List.filter (same_group g) items.

(** A text without underscore. *)
Definition plain (s : string) : Prop :=
  all_chars (fun c => negb (is_char "_" c)) s = true.

(** The text of a pool id holds no underscore: so it is for every pool id
    that is not a string. *)
Definition plain_pool_id (it : Candle.CandleInput) : Prop :=
  plain (ToString (Candle.it_pool_id it)).

(** A Number other than NaN. *)
Definition is_number (v : value) : Prop := exists n, v = VNum n /\ n <> NaN.

(** [v] is the greatest of [vs] under [<=]. *)
Definition maximum (v : value) (vs : list value) : Prop :=
  In v vs /\ forall x, In x vs -> le x v = true.

(** [v] is the least of [vs] under [<=]. *)
Definition minimum (v : value) (vs : list value) : Prop :=
  In v vs /\ forall x, In x vs -> le v x = true.

(** The sum of a non-empty list with [+], left to right. *)
Definition total (vs : list value) : value :=
  match vs with
  | [] => VInt 0
  | v :: rest => fold_left add rest v
  end.

(** The increment an input contributes: [x || 0]. *)
Definition increment (x : value) : value := or_else x (VInt 0).

(** The row [r] summarises the non-empty group [g], listed in push order:
    its key and open come from the first input, its close from the last,
    its volume and trade count are the sums of the increments, and when the
    prices are numbers its high and low are the greatest and the least. *)
Definition summarises (r : Candle.Row) (g : list Candle.CandleInput) : Prop :=
  exists first rest,
    g = first :: rest
    /\ Candle.pool_id r = Candle.it_pool_id first
    /\ Candle.bucket_start r = Candle.it_bucket_start first
    /\ Candle.open r = Candle.it_price first
    /\ Candle.close r = List.last (map Candle.it_price g) (Candle.it_price first)
    /\ Candle.volume_zig r
       = total (map (fun it => increment (Candle.it_vol_zig it)) g)
    /\ Candle.trade_count r
       = total (map (fun it => increment (Candle.it_trade_inc it)) g)
    /\ ((forall it, In it g -> is_number (Candle.it_price it)) ->
        maximum (Candle.high r) (map Candle.it_price g)
        /\ minimum (Candle.low r) (map Candle.it_price g)).

(** [a] may stay before [b] in an array sorted with [cmp]. *)
Definition before {A : Type} (cmp : A -> A -> number) (a b : A) : Prop :=
  JSArray.comes_after (cmp a b) = false.

(** The rows of a pool, in the order of the list. *)
Definition pool_rows (k : string) (rows : list Candle.Row) : list Candle.Row :=
  List.filter (fun r => String.eqb (Ohlcv.pool_key r) k) rows.

(** What the cache records for a row. *)
Definition entry_of (r : Candle.Row) : Ohlcv.LastClose :=
  {| Ohlcv.lc_bucket_start := Ohlcv.bucket_ts r; Ohlcv.lc_close := Candle.close r |}.

(** The row as persisted when the cache holds [prev] for its pool. *)
Definition chained (prev : option Ohlcv.LastClose) (r : Candle.Row) : Candle.Row :=
  match prev with
  | Some p =>
      if str_lt (Ohlcv.lc_bucket_start p) (Ohlcv.bucket_ts r)
      then Candle.set_open r (Ohlcv.lc_close p)
      else r
  | None => r
  end.

(** What the cache that started as [c] holds for pool [k] once the rows
    [done] have gone through the continuity loop. *)
Definition seen (c : gmap string Ohlcv.LastClose) (done : list Candle.Row) (k : string)
  : option Ohlcv.LastClose :=
  match last (pool_rows k done) with
  | Some r => Some (entry_of r)
  | None => c !! k
  end.

(** The aggregated rows of successive batches, in the order in which the
    continuity loop meets them. *)
Definition processed (batches : list (list Candle.CandleInput)) : list Candle.Row :=
  concat (map (fun b => JSArray.sort Ohlcv.by_pool_then_bucket (Ohlcv.aggregateBatch b))
              batches).

(** [high] and [low] of [r] are the greatest and the least price of the
    inputs [g], when these prices are numbers. *)
Definition extremes_of (r : Candle.Row) (g : list Candle.CandleInput) : Prop :=
  (forall it, In it g -> is_number (Candle.it_price it)) ->
  maximum (Candle.high r) (map Candle.it_price g)
  /\ minimum (Candle.low r) (map Candle.it_price g).

(** The price of a candidate, as a number. *)
Definition price_of (r : PoolSelect.PriceRow) : value :=
  VNum (ToDouble (PoolSelect.pr_price_in_zig r)).

(** The 24h TVL of a candidate among the TVL rows returned, zero when
    missing. *)
Definition tvl_in (tvls : list PoolSelect.TvlRow) (r : PoolSelect.PriceRow) : value :=
  PoolSelect.tvl_of (PoolSelect.tvl_map tvls) r.

(** A value that does not read as a number: [Number(v)] is NaN. *)
Definition non_numeric (v : value) : Prop := ToDouble v = NaN.

(** [Number(v) <= 0] *)
Definition non_positive (v : value) : Prop := le (VNum (ToDouble v)) (VInt 0) = true.

(** [Number(v)] is NaN or an infinity. *)
Definition non_finite (v : value) : Prop := isFinite (ToDouble v) = false.

(** A string of decimal digits. *)
Definition all_digits (s : string) : Prop := all_chars is_digit s = true.

(** The text [decOrZero(v, scale)] returns, as the argument it becomes. *)
Definition rendered (v : value) (scale : Z) : value :=
  match Ohlcv.decOrZero v (Some scale) with
  | Ok s => VStr s
  | Throw _ => VUndefined
  end.

(** [N / 10^f] is as close to [m * 10^e] as an integer [N] allows, the
    larger [N] on a tie. *)
Definition nearest_scaled (N m e f : Z) : Prop :=
  if 0 <=? e + f then N = m * 10 ^ (e + f)
  else let d := 10 ^ (- (e + f)) in - d < 2 * (N * d) - 2 * m <= d.

(** [s] is [m * 10^e] written with exactly [f] fractional digits: a sign, an
    integer part of at least one digit, a point and [f] digits, the digits
    being the zero-padded numeral of the integer nearest to
    [|m| * 10^(e+f)]. *)
Definition fixed_rendering (s : string) (m e f : Z) : Prop :=
  exists (a b : string) (pad : nat) (N : Z),
    s = (if m <? 0 then "-" else "") +:+ a +:+ "." +:+ b
    /\ String.length b = Z.to_nat f
    /\ (1 <= String.length a)%nat
    /\ all_digits a
    /\ all_digits b
    /\ a +:+ b = repeat0 pad +:+ digits N
    /\ nearest_scaled N (Z.abs m) e f.

End Spec.

(** ** lib/db.js

    The ClickHouse client is outside the sources: what is modelled is the
    request [DB.query] hands to it, and [queryRetry] over the answers that
    successive calls of [DB.query] give. *)
Module Db.

(** [query_params]: an object with the keys [p1], [p2], ...; a value is
    null or a string. *)
Abbreviation query_params := (gmap string (option string)).

(** The integer a Number denotes, if it denotes one. *)
Definition integer_of (x : number) : option Z :=
  match x with
  | Fin m e =>
      if 0 <=? e then Some (m * 10 ^ e)
      else if m mod 10 ^ (- e) =? 0 then Some (m / 10 ^ (- e))
      else None
  | _ => None
  end.

(** [params[idx]] for an array without holes: [undefined] outside the
    array. *)
Definition at_index (params : list value) (idx : number) : value :=
  match integer_of idx with
  | Some i => if i <? 0 then VUndefined else nth (Z.to_nat i) params VUndefined
  | None => VUndefined
  end.

(** What [query_params] records for the argument [v]. *)
Definition stored (v : value) : option string :=
  match v with
  | VNull | VUndefined => None
  | VBool b => Some (if b then "1" else "0")%string
  | _ => Some (ToString v)
  end.

(** The callback of [sql.replace]: the argument of a placeholder met for
    the first time is recorded under [p<numStr>], and the placeholder
    becomes [{p<numStr>:String}]. *)
Definition on_match (params : list value) (numStr : string) (qp : query_params)
  : string * query_params :=
  let idx := num_sub (ToNumber (VStr numStr)) (of_Z 1) in
  let key := "p" +:+ numStr in
  let v := at_index params idx in
  ("{" +:+ key +:+ ":String}",
   match qp !! key with
   | Some _ => qp
   | None => <[key := stored v]> qp
   end).

(** The digits a string starts with: what [\d+] matches there. *)
Fixpoint leading_digits (s : string) : string :=
  match s with
  | String c s' => if is_digit c then String c (leading_digits s') else EmptyString
  | EmptyString => EmptyString
  end.

(** [sql.replace(/\$(\d+)/g, callback)].  Matches are looked for from left
    to right; one starts at a dollar sign followed by a digit and runs over
    all the digits that follow.  [skip] counts the characters of the match
    just replaced that are still to be passed over. *)
Fixpoint replace_placeholders (params : list value) (skip : nat) (sql : string)
    (qp : query_params) : string * query_params :=
  match sql with
  | EmptyString => (EmptyString, qp)
  | String c rest =>
      match skip with
      | S k => replace_placeholders params k rest qp
      | O =>
          let numStr := leading_digits rest in
          if is_char "$" c && negb (String.eqb numStr "") then
            let '(named, qp1) := on_match params numStr qp in
            let '(text, qp2) :=
              replace_placeholders params (String.length numStr) rest qp1 in
            (named +:+ text, qp2)
          else
            let '(text, qp2) := replace_placeholders params 0 rest qp in
            (String c text, qp2)
      end
  end.

Record Prepared : Type := {
  text : string;
  query_params_of : option query_params;
}.

(** [prepareQuery(sql, params = [])]; [query_params] is [undefined] when
    there is no argument. *)
Definition prepareQuery (sql : string) (params : list value) : Prepared :=
  match params with
  | [] => {| text := sql; query_params_of := None |}
  | _ =>
      let '(text, qp) := replace_placeholders params 0 sql ∅ in
      {| text := text; query_params_of := Some qp |}
  end.

(** A word character, [\w]. *)
Definition is_word (c : ascii) : bool := PgNotifyCommon.ident_part c.

(** The keyword [kw] (in lower case) read at the start of [s] whatever the
    case, and followed by a word boundary. *)
Definition keyword (kw s : string) : bool :=
  String.eqb (toLowerCase (str_take (String.length kw) s)) kw
  && match str_drop (String.length kw) s with
     | String c _ => negb (is_word c)
     | EmptyString => true
     end.

(** [/^(\(?\s*SELECT|\(?\s*WITH)\b/i.test(trimmed)] *)
Definition isSelect (trimmed : string) : bool :=
  let after_paren :=
    match trimmed with
    | String "(" r => r
    | _ => trimmed
    end in
  let s := trim_start after_paren in
  keyword "select" s || keyword "with" s.

(** The call [DB.query] makes on the client. *)
Inductive request : Type :=
| ClientQuery (query : string) (qp : option query_params)
| ClientCommand (query : string) (qp : option query_params).

Definition request_of (sql : string) (params : list value) : request :=
  let trimmed := trim sql in
  let p := prepareQuery sql params in
  if isSelect trimmed then ClientQuery (text p) (query_params_of p)
  else ClientCommand (text p) (query_params_of p).

(** What [queryRetry] does besides returning or raising.  Modelled from the
    spec: lib/log.js is not among the sources; [warn] is taken to record a
    line and return. *)
Inductive event : Type :=
| Queried
| Warned (attempt : Z) (message : string)
| Slept (ms : Z).

Section Retry.
Context {A : Type}.
(** [answer i] is what the call number [i] of [DB.query] gives, counting
    from zero. *)
Variable answer : Z -> outcome A.
(** [attempts], a Number; a caller that passes none gets 3. *)
Variable attempts : number.

(** The iterations of the loop of [queryRetry] from [i] on.  The loop has
    no bound of its own when [attempts] is an infinity: [fuel] bounds the
    iterations followed, and [None] says that they did not end the loop.  In
    a result, [None] is [undefined], the value of a call whose loop ends. *)
Fixpoint retry_from (fuel : nat) (i : Z) : option (outcome (option A) * list event) :=
  match fuel with
  | O => None
  | S fuel' =>
      if lt (VInt i) (VNum attempts) then
        match answer i with
        | Ok r => Some (Ok (Some r), [Queried])
        | Throw e =>
            let last := num_equal (of_Z i) (num_sub attempts (of_Z 1)) in
            if last then Some (Throw e, [Queried])
            else
              match retry_from fuel' (i + 1) with
              | Some (r, events) =>
                  Some (r, Queried :: Warned (i + 1) e :: Slept (150 * (i + 1)) :: events)
              | None => None
              end
        end
      else Some (Ok None, [])
  end.

(** [queryRetry(sql, args = [], attempts = 3)] *)
Definition queryRetry (fuel : nat) : option (outcome (option A) * list event) :=
  retry_from fuel 0.
End Retry.

End Db.

(** ** Vocabulary of the further properties *)
Module Notions.

(** The string starts with a decimal digit. *)
Definition starts_with_digit (s : string) : bool :=
  match s with
  | String d _ => is_digit d
  | EmptyString => false
  end.

(** The text holds a placeholder: a dollar sign followed by a digit. *)
Fixpoint has_placeholder (s : string) : bool :=
  match s with
  | EmptyString => false
  | String c rest => (is_char "$" c && starts_with_digit rest) || has_placeholder rest
  end.

(** A non-empty string of decimal digits. *)
Definition numeral (s : string) : Prop :=
  s <> EmptyString /\ all_chars is_digit s = true.

(** The placeholder [$<numStr>] occurs in [sql]: a dollar sign followed by
    the digits [numStr] and by no further digit. *)
Definition occurs (numStr sql : string) : Prop :=
  numeral numStr /\
  exists a b, sql = a +:+ "$" +:+ numStr +:+ b /\ starts_with_digit b = false.

(** The argument the placeholder [$<numStr>] names. *)
Definition argument (params : list value) (numStr : string) : value :=
  Db.at_index params (num_sub (ToNumber (VStr numStr)) (of_Z 1)).

(** The events of the [k] failed attempts numbered [i], ..., [i + k - 1],
    with the messages [msg i], ...: each query is followed by its warning
    and its pause. *)
Definition failures_from (msg : Z -> string) (i k : Z) : list Db.event :=
  flat_map (fun j => [Db.Queried; Db.Warned (j + 1) (msg j); Db.Slept (150 * (j + 1))])
           (seqZ i k).

Definition failures (msg : Z -> string) (k : Z) : list Db.event :=
  failures_from msg 0 k.

(** A text without dollar sign. *)
Definition no_dollar (s : string) : Prop :=
  all_chars (fun c => negb (is_char "$" c)) s = true.

(** The placeholder numbered [k] as the statements write it, and as the
    prepared text has it. *)
Definition dollar (k : Z) : string := "$" +:+ digits k.

Definition named (k : Z) : string := "{p" +:+ digits k +:+ ":String}".

(** The tuples of [rows] rows of [width] parameters each, numbered from
    [p] on, every parameter being written by [mark]. *)
Fixpoint tuples (mark : Z -> string) (width p : Z) (rows : nat) : list string :=
  match rows with
  | O => []
  | S n =>
      ("(" +:+ JSArray.join "," (map mark (seqZ p width)) +:+ ")")
      :: tuples mark width (p + width) n
  end.

(** The parameters bound once the placeholders numbered [ks] have been
    met in turn. *)
Definition bound (params : list value) (ks : list Z) (qp : Db.query_params)
  : Db.query_params :=
  fold_left (fun qp k => snd (Db.on_match params (digits k) qp)) ks qp.

(** The key of a row: [`${pool_id}__${bucket_start}`]. *)
Definition row_key (r : Candle.Row) : string :=
  ToString (Candle.pool_id r) +:+ "__" +:+ ToString (Candle.bucket_start r).

(** The elements of a list of keys, each at the place of its first
    occurrence. *)
Fixpoint first_occurrences (ks : list string) : list string :=
  match ks with
  | [] => []
  | k :: rest => k :: List.filter (fun x => negb (String.eqb x k)) (first_occurrences rest)
  end.

(** A row with its open erased. *)
Definition without_open (r : Candle.Row) : Candle.Row := Candle.set_open r VUndefined.

(** The order of the rows of a flush: by the text of the pool id, then by
    the text of the bucket start. *)
Definition in_order (a b : Candle.Row) : Prop :=
  str_lt (Ohlcv.pool_key a) (Ohlcv.pool_key b) = true
  \/ (Ohlcv.pool_key a = Ohlcv.pool_key b
      /\ str_lt (Ohlcv.bucket_ts b) (Ohlcv.bucket_ts a) = false).

End Notions.

(** ** The statements of api/util/pool-select.js *)
Module PoolSelectText.
Import PoolSelect.

Definition first_uzig_pool : string := "
    SELECT p.pool_id, p.pair_contract
    FROM pools p
    WHERE p.base_token_id=$1 AND p.is_uzig_quote=1
    ORDER BY p.created_at ASC
    LIMIT 1
  ".

Definition recent_prices : string := "
    SELECT pr.pool_id, pr.price_in_zig, pr.updated_at, p.pair_contract
    FROM prices pr
    JOIN pools p ON p.pool_id=pr.pool_id
    WHERE pr.token_id=$1 AND p.is_uzig_quote=1
    ORDER BY pr.updated_at DESC
    LIMIT 16
  ".

(** The statement of the TVL rows, [ids] being the text spliced into
    [IN (...)]. *)
Definition tvl_24h (ids : string) : string := "
    SELECT pool_id, tvl_zig
    FROM pool_matrix
    WHERE bucket='24h' AND pool_id IN (" +:+ ids +:+ ")
    ".

Definition pool_of_token : string :=
  "SELECT pool_id, pair_contract FROM pools WHERE pool_id=$1 AND base_token_id=$2".

Definition change : string := "
    WITH last AS (
      SELECT close
      FROM ohlcv_1m
      WHERE pool_id=$1
      ORDER BY bucket_start DESC
      LIMIT 1
    ),
    prev AS (
      SELECT close
      FROM ohlcv_1m
      WHERE pool_id=$1
        AND bucket_start <= now() - toIntervalMinute(toInt64($2))
      ORDER BY bucket_start DESC
      LIMIT 1
    )
    SELECT
      CASE
        WHEN prev.close IS NOT NULL AND prev.close > 0
        THEN ((last.close - prev.close) / prev.close) * 100
      END AS pct
    FROM last, prev
    ".

(** The text and the arguments [DB.query] is called with for a statement
    issued; the TVL statement is passed alone, so that the arguments are the
    default, an empty array. *)
Definition call (q : issued) : string * list value :=
  match q with
  | FirstUzigPool tokenId => (first_uzig_pool, [tokenId])
  | RecentPrices tokenId => (recent_prices, [tokenId])
  | Tvl24h ids => (tvl_24h ids, [])
  | PoolOfToken pid tokenId => (pool_of_token, [pid; tokenId])
  | Change poolId mins => (change, [poolId; mins])
  end.

End PoolSelectText.

(** ** Vocabulary of the properties of binary64 *)
Module Binary64.

(** A Number on the grid of the binary64 values: a multiple of 2^-1074. *)
Definition on_grid (x : number) : Prop :=
  match x with
  | Fin m e => e < 0 -> exists N, m * 2 ^ 1074 = N * 10 ^ (- e)
  | _ => True
  end.

(** Zero or more, an infinity included. *)
Definition not_negative (x : number) : Prop :=
  match x with
  | PosInfinity => True
  | Fin m _ => 0 <= m
  | _ => False
  end.

(** More than zero, an infinity included. *)
Definition positive (x : number) : Prop :=
  match x with
  | PosInfinity => True
  | Fin m _ => 0 < m
  | _ => False
  end.

End Binary64.

(* ================================================================== *)
(** * Part II: properties *)
(* ================================================================== *)

Example NumberToString_examples :
  map JS.NumberToString
      [JS.Fin 1 0; JS.Fin 120 0; JS.Fin 125 (-1); JS.Fin (-5) (-3);
       JS.Fin 1 21; JS.Fin 1 (-7); JS.Fin 12345 20; JS.Fin 0 5; JS.Fin 1 (-6)]
  = ["1"; "120"; "12.5"; "-0.005"; "1e+21"; "1e-7"; "1.2345e+24"; "0";
     "0.000001"]%string.
Proof. vm_compute. reflexivity. Qed.

Example StringToNumber_examples :
  map JS.StringToNumber
      ["12"; " 12.50 "; ""; "abc"; "0x1F"; "-.5e1"; "1e"; "."; "5."; "Infinity";
       "-Infinity"; "1_0"; "+7"; "-0x10"]%string
  = [JS.Fin 12 0; JS.Fin 1250 (-2); JS.Fin 0 0; JS.NaN; JS.Fin 31 0;
     JS.Fin (-5) 0; JS.NaN; JS.NaN; JS.Fin 5 0; JS.PosInfinity;
     JS.NegInfinity; JS.NaN; JS.Fin 7 0; JS.NaN].
Proof. vm_compute. reflexivity. Qed.

Example toFixed_examples :
  map (fun '(x, f) => JS.toFixed x f)
      [(JS.Fin 125 (-1), 2); (JS.Fin 0 0, 18); (JS.Fin 1 21, 18);
       (JS.Fin (-15) (-1), 0); (JS.Fin 15 (-1), 0); (JS.Fin 125 (-3), 2);
       (JS.Fin 9 0, 18);
       (JS.Fin 1 0, 101); (JS.NaN, 2)]
  = [JS.Ok "12.50"; JS.Ok "0.000000000000000000"; JS.Ok "1e+21";
     JS.Ok "-2"; JS.Ok "2"; JS.Ok "0.13"; JS.Ok "9.000000000000000000";
     JS.Throw "RangeError"; JS.Ok "NaN"]%string.
Proof. vm_compute. reflexivity. Qed.

(** ** The two versions of the aggregation *)

(** C10: on every batch, [aggregateBatch] of the continuity-enabled module
    returns the same rows, in the same order, as [aggregateBatch] of the
    other module; the flush of the first differs from the flush of the
    second only by the sort and the continuity pass applied to these rows
    before the statement is built. *)
Theorem aggregateBatch_versions_agree :
  forall items : list Candle.CandleInput,
    Ohlcv.aggregateBatch items = OhlcvPlain.aggregateBatch items
    /\ (forall c,
          items <> [] ->
          snd (Ohlcv.flush_rows c items)
          = snd (Ohlcv.continuity c
                   (JSArray.sort Ohlcv.by_pool_then_bucket
                      (OhlcvPlain.aggregateBatch items))))
    /\ OhlcvPlain.flushFn items
       = match items with
         | [] => Ok None
         | _ => bind (Ohlcv.buildInsertSQL (Ohlcv.aggregateBatch items))
                  (fun q => match Ohlcv.sql q with
                            | None => Ok None
                            | Some text => Ok (Some (text, Ohlcv.args q))
                            end)
         end.
Proof.
  intros items.
  assert (Hagg : Ohlcv.aggregateBatch items = OhlcvPlain.aggregateBatch items)
    by reflexivity.
  split; [exact Hagg | split].
  - intros c Hne. unfold Ohlcv.flush_rows. rewrite <- Hagg.
    destruct items as [|it rest]; [congruence |].
    destruct (Ohlcv.aggregateBatch (it :: rest)) eqn:E; reflexivity.
  - reflexivity.
Qed.

Lemma aggregateBatch_versions_agree_witness :
  Ohlcv.aggregateBatch [] = OhlcvPlain.aggregateBatch [].
Proof. exact (proj1 (aggregateBatch_versions_agree [])). Defined.

(** ** Trade rows *)

Lemma values_loop_args (rows : list Trades.Trade) (i : Z) :
  snd (Trades.values_loop i rows) = concat (map Trades.trade_args rows).
Proof.
  revert i. induction rows as [|t rest IH]; intros i; simpl; [reflexivity |].
  specialize (IH (i + 19)).
  destruct (Trades.values_loop (i + 19) rest) as [vals args]; simpl in *.
  now rewrite IH.
Qed.

Lemma or_else_absent (v d : value) : Spec.absent v -> or_else v d = d.
Proof. intros [-> | ->]; reflexivity. Qed.

Lemma nullish_else_absent (v d : value) : Spec.absent v -> nullish_else v d = d.
Proof. intros [-> | ->]; reflexivity. Qed.

Lemma trades_decOrZero_absent (v : value) :
  Spec.absent v -> Trades.decOrZero v = VInt 0.
Proof. intros [-> | ->]; reflexivity. Qed.

(** C8: [sqlValues] turns every batch of trades into a statement whose
    arguments are the nineteen values of each trade in turn, whatever fields
    are missing; a missing contract, denomination, hash or signer is sent as
    the empty string, and a missing amount, height, message index or pool id
    as zero. *)
Theorem sqlValues_total_with_defaults :
  forall rows : list Trades.Trade,
    Trades.args (Trades.sqlValues rows) = concat (map Trades.trade_args rows)
    /\ length (Trades.args (Trades.sqlValues rows)) = (19 * length rows)%nat
    /\ forall t : Trades.Trade,
        let a := Trades.trade_args t in
        (Spec.absent (Trades.pool_id t) -> a !! 0%nat = Some (VInt 0))
        /\ (Spec.absent (Trades.pair_contract t) -> a !! 1%nat = Some (VStr ""))
        /\ (Spec.absent (Trades.offer_asset_denom t) -> a !! 4%nat = Some (VStr ""))
        /\ (Spec.absent (Trades.offer_amount_base t) -> a !! 5%nat = Some (VInt 0))
        /\ (Spec.absent (Trades.ask_asset_denom t) -> a !! 6%nat = Some (VStr ""))
        /\ (Spec.absent (Trades.ask_amount_base t) -> a !! 7%nat = Some (VInt 0))
        /\ (Spec.absent (Trades.return_amount_base t) -> a !! 8%nat = Some (VInt 0))
        /\ (Spec.absent (Trades.reserve_asset1_denom t) -> a !! 10%nat = Some (VStr ""))
        /\ (Spec.absent (Trades.reserve_asset1_amount_base t) -> a !! 11%nat = Some (VInt 0))
        /\ (Spec.absent (Trades.reserve_asset2_denom t) -> a !! 12%nat = Some (VStr ""))
        /\ (Spec.absent (Trades.reserve_asset2_amount_base t) -> a !! 13%nat = Some (VInt 0))
        /\ (Spec.absent (Trades.height t) -> a !! 14%nat = Some (VInt 0))
        /\ (Spec.absent (Trades.tx_hash t) -> a !! 15%nat = Some (VStr ""))
        /\ (Spec.absent (Trades.signer t) -> a !! 16%nat = Some (VStr ""))
        /\ (Spec.absent (Trades.msg_index t) -> a !! 17%nat = Some (VInt 0)).
Proof.
  intros rows.
  assert (Hargs : Trades.args (Trades.sqlValues rows)
                  = concat (map Trades.trade_args rows)).
  { unfold Trades.sqlValues.
    pose proof (values_loop_args rows 1) as H.
    destruct (Trades.values_loop 1 rows) as [vals args]; exact H. }
  split; [exact Hargs | split].
  - rewrite Hargs. clear Hargs.
    induction rows as [|t rest IH]; [reflexivity |].
    cbn [map concat]. rewrite length_app, IH. cbn [Trades.trade_args length]. lia.
  - intros t a. subst a. unfold Trades.trade_args.
    repeat split; intros H; cbn [lookup list_lookup];
      rewrite ?(or_else_absent _ _ H), ?(nullish_else_absent _ _ H),
              ?(trades_decOrZero_absent _ H); reflexivity.
Qed.

Lemma sqlValues_total_with_defaults_witness :
  Trades.trade_args
    (Trades.Build_Trade VUndefined VNull VUndefined VUndefined VUndefined VNull
       VUndefined VUndefined VUndefined VUndefined VUndefined VUndefined
       VUndefined VUndefined VUndefined VNull VUndefined VUndefined VUndefined)
    !! 1%nat = Some (VStr "").
Proof.
  apply (sqlValues_total_with_defaults []). right. reflexivity.
Defined.

(** ** Channel names *)

Lemma fails_fast_throw {A : Type} (valid : bool) (msg : string) :
  valid = false -> Spec.fails_fast (A := A) valid (Throw msg, []).
Proof.
  intros ->. unfold Spec.fails_fast, Spec.raised, Spec.returned; cbn [fst snd].
  repeat split; try congruence; eauto.
  intros [a H]; discriminate.
Qed.

Lemma fails_fast_ok {A : Type} (valid : bool) (a : A) effects :
  valid = true -> Spec.fails_fast valid (Ok a, effects).
Proof.
  intros ->. unfold Spec.fails_fast, Spec.raised, Spec.returned; cbn [fst snd].
  repeat split; try congruence; eauto.
  - intros [e H]; discriminate.
  - intros [e H]; discriminate.
Qed.

(** C9: in both versions of lib/pg_notify.js, [pgNotify] and [pgListen]
    raise exactly when the channel fails the test of [CHAN_RX]; a call that
    raises has done nothing else, and a call on a channel that passes the
    test returns, whatever the handlers registered on the bus do. *)
Theorem channel_validation_fails_fast :
  forall (channel : string) (payload : value) (emit : value -> value -> outcome unit),
    let valid := PgNotifyCommon.CHAN_RX_test (VStr channel) in
    Spec.fails_fast valid (PgNotifyNoop.pgNotify (VStr channel) payload)
    /\ Spec.fails_fast valid (PgNotifyBus.pgNotify emit (VStr channel) payload)
    /\ Spec.fails_fast valid (PgNotifyNoop.pgListen (VStr channel))
    /\ Spec.fails_fast valid (PgNotifyBus.pgListen (VStr channel)).
Proof.
  intros channel payload emit valid.
  unfold PgNotifyNoop.pgNotify, PgNotifyBus.pgNotify,
    PgNotifyNoop.pgListen, PgNotifyBus.pgListen.
  fold valid. destruct valid eqn:E; cbn [negb].
  - destruct (emit (VStr channel) payload) as [[]|msg];
      (split; [| split; [| split]]); now apply fails_fast_ok.
  - (split; [| split; [| split]]); now apply fails_fast_throw.
Qed.

Lemma channel_validation_fails_fast_witness :
  snd (PgNotifyBus.pgNotify (fun _ _ => Ok tt) (VStr "bad channel") VNull) = [].
Proof.
  pose proof (channel_validation_fails_fast "bad channel" VNull (fun _ _ => Ok tt))
    as (_ & (_ & _ & H) & _).
  apply H. exists (PgNotifyCommon.invalid_channel (VStr "bad channel")). reflexivity.
Defined.

Example CHAN_RX_examples :
  map (fun s => PgNotifyCommon.CHAN_RX_test (VStr s))
      ["pair_created"; "_x9"; "Fast_Track"; "9lives"; ""; "a-b"; "a b"; "trades "]%string
  = [true; true; true; false; false; false; false; false].
Proof. reflexivity. Qed.

(** ** Strings and decimal formatting *)

Lemma append_cons (c : ascii) (a b : string) :
  String c a +:+ b = String c (a +:+ b).
Proof. reflexivity. Qed.

Lemma append_nil (b : string) : "" +:+ b = b.
Proof. reflexivity. Qed.

Lemma str_length_app (a b : string) :
  String.length (a +:+ b) = (String.length a + String.length b)%nat.
Proof.
  induction a as [|c a IH]; [reflexivity |].
  rewrite append_cons. cbn [String.length]. now rewrite IH.
Qed.

Lemma all_chars_app (p : ascii -> bool) (a b : string) :
  all_chars p (a +:+ b) = all_chars p a && all_chars p b.
Proof.
  induction a as [|c a IH]; [reflexivity |].
  rewrite append_cons. cbn [all_chars]. now rewrite IH, andb_assoc.
Qed.

Lemma take_drop (n : nat) (s : string) : str_take n s +:+ str_drop n s = s.
Proof.
  revert s; induction n as [|n IH]; intros [|c s]; try reflexivity.
  cbn [str_take str_drop]. now rewrite append_cons, IH.
Qed.

Lemma length_drop (n : nat) (s : string) :
  String.length (str_drop n s) = (String.length s - n)%nat.
Proof.
  revert s; induction n as [|n IH]; intros s.
  - cbn [str_drop]. destruct s; lia.
  - destruct s as [|c s]; cbn [str_drop String.length]; [reflexivity | apply IH].
Qed.

Lemma length_take (n : nat) (s : string) :
  String.length (str_take n s) = Nat.min n (String.length s).
Proof.
  revert s; induction n as [|n IH]; intros [|c s]; try reflexivity.
  cbn [str_take String.length]. now rewrite IH.
Qed.

Lemma all_chars_take_drop (p : ascii -> bool) (n : nat) (s : string) :
  all_chars p s = true ->
  all_chars p (str_take n s) = true /\ all_chars p (str_drop n s) = true.
Proof.
  intros H. rewrite <- (take_drop n s), all_chars_app in H.
  now apply andb_true_iff in H.
Qed.

Lemma length_repeat0 (n : nat) : String.length (repeat0 n) = n.
Proof. induction n; simpl; congruence. Qed.

Lemma repeat0_digits (n : nat) : all_chars is_digit (repeat0 n) = true.
Proof. induction n; simpl; [reflexivity | assumption]. Qed.

Lemma uint_digits (d : Decimal.uint) :
  all_chars is_digit (NilEmpty.string_of_uint d) = true.
Proof. induction d; simpl; auto. Qed.

Lemma digits_all_digits (z : Z) : all_chars is_digit (digits z) = true.
Proof.
  unfold digits, NilZero.string_of_uint.
  destruct (N.to_uint (Z.to_N z)) eqn:E; try reflexivity;
    rewrite <- E; apply uint_digits.
Qed.

(** [fixed_digits n f] is an integer part of at least one digit, a point and
    exactly [f] digits. *)
Lemma fixed_digits_shape (n f : Z) :
  0 < f ->
  exists a b : string,
    fixed_digits n f = a +:+ "." +:+ b
    /\ String.length b = Z.to_nat f
    /\ (1 <= String.length a)%nat
    /\ all_chars is_digit a = true
    /\ all_chars is_digit b = true
    /\ exists pad, a +:+ b = repeat0 pad +:+ digits n.
Proof.
  intros Hf. unfold fixed_digits.
  destruct (f =? 0) eqn:E; [lia |].
  set (m := if n =? 0 then "0"%string else digits n).
  assert (Hm : all_chars is_digit m = true).
  { subst m. destruct (n =? 0); [reflexivity | apply digits_all_digits]. }
  set (fn := Z.to_nat f).
  set (m' := if (String.length m <=? fn)%nat
             then repeat0 (fn + 1 - String.length m) +:+ m else m).
  assert (Hm' : all_chars is_digit m' = true).
  { subst m'. destruct (String.length m <=? fn)%nat; [| exact Hm].
    now rewrite all_chars_app, repeat0_digits, Hm. }
  assert (Hlen : (fn + 1 <= String.length m')%nat).
  { subst m'. destruct (String.length m <=? fn)%nat eqn:Ek.
    - apply Nat.leb_le in Ek. rewrite str_length_app, length_repeat0. lia.
    - apply Nat.leb_gt in Ek. lia. }
  exists (str_take (String.length m' - fn) m'), (str_drop (String.length m' - fn) m').
  destruct (all_chars_take_drop is_digit (String.length m' - fn) m' Hm') as [Ha Hb].
  repeat split; try assumption.
  - rewrite length_drop. lia.
  - rewrite length_take. lia.
  - rewrite take_drop.
    assert (Em : m = digits n).
    { subst m. destruct (n =? 0) eqn:E0; [| reflexivity].
      apply Z.eqb_eq in E0. now subst n. }
    subst m'. rewrite <- Em.
    destruct (String.length m <=? fn)%nat; [eauto | now exists 0%nat].
Qed.

Lemma repeat0_snoc (n : nat) : repeat0 n +:+ "0" = String "0" (repeat0 n).
Proof.
  induction n as [|n IH]; [reflexivity |].
  cbn [repeat0]. now rewrite append_cons, IH.
Qed.

Lemma fixed_digits_zero (f : Z) :
  0 < f -> fixed_digits 0 f = "0." +:+ repeat0 (Z.to_nat f).
Proof.
  intros Hf. unfold fixed_digits.
  destruct (f =? 0) eqn:E; [lia |].
  change (0 =? 0) with true. cbn [String.length].
  destruct (1 <=? Z.to_nat f)%nat eqn:E1; [| apply Nat.leb_gt in E1; lia].
  replace (Z.to_nat f + 1 - 1)%nat with (Z.to_nat f) by lia.
  rewrite repeat0_snoc. cbn [String.length]. rewrite length_repeat0.
  replace (S (Z.to_nat f) - Z.to_nat f)%nat with 1%nat by lia.
  reflexivity.
Qed.

(** The integer chosen by [toFixed] is the nearest one, the larger of two
    on a tie. *)
Lemma round_scaled_nearest (m e f : Z) :
  Spec.nearest_scaled (round_scaled m e f) m e f.
Proof.
  unfold Spec.nearest_scaled, round_scaled.
  destruct (0 <=? e + f) eqn:E; [reflexivity |].
  apply Z.leb_gt in E.
  set (d := 10 ^ (- (e + f))).
  assert (Hd : 0 < d) by (apply Z.pow_pos_nonneg; lia).
  pose proof (Z.div_mod (2 * m + d) (2 * d) ltac:(lia)) as Hdm.
  pose proof (Z.mod_pos_bound (2 * m + d) (2 * d) ltac:(lia)) as Hb.
  lia.
Qed.

Lemma toFixed_below_1e21 (m e f : Z) :
  0 <= f <= 100 ->
  Fin_compare (Z.abs m) e 1 21 = Lt ->
  toFixed (Fin m e) f
  = Ok ((if m <? 0 then "-" else "")
        +:+ fixed_digits (round_scaled (Z.abs m) e f) f).
Proof.
  intros Hf Hlt. unfold toFixed.
  destruct ((f <? 0) || (100 <? f)) eqn:E.
  - apply orb_true_iff in E as [E | E]; [apply Z.ltb_lt in E | apply Z.ltb_lt in E]; lia.
  - now rewrite Hlt.
Qed.

Lemma toFixed_returns (x : number) (f : Z) :
  0 <= f <= 100 -> exists s, toFixed x f = Ok s.
Proof.
  intros Hf. unfold toFixed.
  destruct ((f <? 0) || (100 <? f)) eqn:E.
  - apply orb_true_iff in E as [E | E]; [apply Z.ltb_lt in E | apply Z.ltb_lt in E]; lia.
  - destruct x as [| | |m e]; eauto.
    destruct (Fin_compare (Z.abs m) e 1 21); eauto.
Qed.

Lemma decOrZero_returns (v : value) (f : Z) :
  0 <= f <= 100 -> exists s, Ohlcv.decOrZero v (Some f) = Ok s.
Proof.
  intros Hf. unfold Ohlcv.decOrZero.
  destruct (negb (isFinite _)); [eauto | now apply toFixed_returns].
Qed.

Lemma row_args_returns (r : Candle.Row) :
  exists a, Ohlcv.row_args r = Ok a /\ length a = 9%nat.
Proof.
  unfold Ohlcv.row_args.
  destruct (decOrZero_returns (Candle.open r) 18 ltac:(lia)) as [o ->].
  destruct (decOrZero_returns (Candle.high r) 18 ltac:(lia)) as [h ->].
  destruct (decOrZero_returns (Candle.low r) 18 ltac:(lia)) as [l ->].
  destruct (decOrZero_returns (Candle.close r) 18 ltac:(lia)) as [c ->].
  destruct (decOrZero_returns (Candle.volume_zig r) 8 ltac:(lia)) as [v ->].
  destruct (decOrZero_returns (nullish_else (Candle.liquidity_zig r) (VInt 0)) 8
              ltac:(lia)) as [q ->].
  cbn [bind]. eauto.
Qed.

Lemma insert_loop_returns (rows : list Candle.Row) (p : Z) :
  exists ph a,
    Ohlcv.insert_loop p rows = Ok (ph, a)
    /\ length ph = length rows
    /\ length a = (9 * length rows)%nat.
Proof.
  revert p. induction rows as [|r rest IH]; intros p.
  - exists [], []. repeat split.
  - cbn [Ohlcv.insert_loop].
    destruct (row_args_returns r) as (a & -> & Ha).
    destruct (IH (p + 9)) as (ph & args & -> & Hph & Hargs).
    cbn [bind]. do 2 eexists. split; [reflexivity |].
    cbn [length]. rewrite length_app. lia.
Qed.

(** ** The price source and the falsy values *)

Lemma falsy_cases (v : value) :
  ToBoolean v = false ->
  v = VUndefined \/ v = VNull \/ v = VBool false \/ v = VNum NaN
  \/ (exists e, v = VNum (Fin 0 e)) \/ v = VStr "".
Proof.
  destruct v as [| |b|n|s]; cbn [ToBoolean]; intros H; auto.
  - subst b. auto.
  - destruct n as [| | |m e]; cbn in H; try discriminate; auto.
    apply negb_false_iff, orb_true_iff in H as [H | H]; [| discriminate].
    apply Z.eqb_eq in H. subst m. eauto 7.
  - apply negb_false_iff, String.eqb_eq in H. subst s. auto 7.
Qed.

Lemma falsy_not_pool (v : value) :
  ToBoolean v = false -> toLowerCase (ToString v) <> "pool"%string.
Proof.
  intros H. destruct (falsy_cases v H) as [-> | [-> | [-> | [-> | [[e ->] | ->]]]]];
    cbn; discriminate.
Qed.

Lemma pool_policy_src (priceSource : value) :
  toLowerCase (ToString priceSource) = "pool"%string ->
  toLowerCase
    (ToString (or_else match priceSource with VUndefined => VStr "best" | v => v end
                       (VStr "best")))
  = "pool"%string.
Proof.
  intros H. destruct (ToBoolean priceSource) eqn:E.
  - destruct priceSource; try discriminate E; unfold or_else; now rewrite E.
  - now apply falsy_not_pool in E.
Qed.

Lemma or_else_truthy (v d : value) : ToBoolean v = true -> or_else v d = v.
Proof. intros H. unfold or_else. now rewrite H. Qed.

Lemma head_filter_map {A B : Type} (f : A -> B) (P : A -> bool) (l : list A) (b : B) (rest : list B) :
  map f (List.filter P l) = b :: rest -> exists a, In a l /\ P a = true /\ b = f a.
Proof.
  intros H. destruct (List.filter P l) as [|a l'] eqn:E; [discriminate |].
  injection H as <- _. exists a.
  assert (Hin : In a (List.filter P l)) by (rewrite E; now left).
  apply filter_In in Hin as [? ?]. auto.
Qed.

Lemma filter_none_nil {A : Type} (P : A -> bool) (l : list A) :
  (forall a, In a l -> P a = false) -> List.filter P l = [].
Proof.
  induction l as [|a l IH]; intros H; [reflexivity |].
  cbn [List.filter]. rewrite (H a (or_introl eq_refl)). apply IH.
  intros b Hb. apply H. now right.
Qed.

(** ** The order of Numbers *)

Lemma align_shift (m e e0 e1 : Z) :
  e1 <= e0 -> e0 <= e -> align m e e1 = align m e e0 * 10 ^ (e0 - e1).
Proof.
  intros H1 H0. unfold align.
  replace (e - e1) with ((e - e0) + (e0 - e1)) by lia.
  rewrite Z.pow_add_r by lia. lia.
Qed.

(** Two finite Numbers compare as their mantissas at any common exponent. *)
Lemma Fin_compare_at (m1 e1 m2 e2 e0 : Z) :
  e0 <= e1 -> e0 <= e2 ->
  Fin_compare m1 e1 m2 e2 = (align m1 e1 e0 ?= align m2 e2 e0).
Proof.
  intros H1 H2. unfold Fin_compare.
  rewrite (align_shift m1 e1 (Z.min e1 e2) e0), (align_shift m2 e2 (Z.min e1 e2) e0) by lia.
  apply Zmult_compare_compat_r.
  apply Z.lt_gt, Z.pow_pos_nonneg; lia.
Qed.

Lemma lt_Fin (m1 e1 m2 e2 e0 : Z) :
  e0 <= e1 -> e0 <= e2 ->
  lt (VNum (Fin m1 e1)) (VNum (Fin m2 e2)) = true
  <-> align m1 e1 e0 < align m2 e2 e0.
Proof.
  intros H1 H2. unfold lt, lessThan, num_lessThan. cbn [ToNumber num_compare].
  rewrite (Fin_compare_at m1 e1 m2 e2 e0 H1 H2).
  destruct (Z.compare_spec (align m1 e1 e0) (align m2 e2 e0)); split; intros; try lia;
    try discriminate; reflexivity.
Qed.

Lemma le_Fin (m1 e1 m2 e2 e0 : Z) :
  e0 <= e1 -> e0 <= e2 ->
  le (VNum (Fin m1 e1)) (VNum (Fin m2 e2)) = true
  <-> align m1 e1 e0 <= align m2 e2 e0.
Proof.
  intros H1 H2. unfold le, lessThan, num_lessThan. cbn [ToNumber num_compare].
  rewrite (Fin_compare_at m2 e2 m1 e1 e0 H2 H1).
  destruct (Z.compare_spec (align m2 e2 e0) (align m1 e1 e0)); split; intros; try lia;
    try discriminate; reflexivity.
Qed.

Lemma le_refl (a : value) : Spec.is_number a -> le a a = true.
Proof.
  intros (na & -> & Hna). destruct na as [| | |ma ea]; try congruence; try reflexivity.
  apply (le_Fin ma ea ma ea ea); lia.
Qed.

Lemma le_trans (a b c : value) :
  Spec.is_number a -> Spec.is_number b -> Spec.is_number c ->
  le a b = true -> le b c = true -> le a c = true.
Proof.
  intros (na & -> & Hna) (nb & -> & Hnb) (nc & -> & Hnc).
  destruct na as [| | |ma ea], nb as [| | |mb eb], nc as [| | |mc ec];
    try congruence; try reflexivity; try discriminate.
  intros H1 H2.
  set (k := Z.min ea (Z.min eb ec)).
  apply (le_Fin _ _ _ _ k) in H1; [| lia | lia].
  apply (le_Fin _ _ _ _ k) in H2; [| lia | lia].
  apply (le_Fin _ _ _ _ k); lia.
Qed.

Lemma lt_le (a b : value) :
  Spec.is_number a -> Spec.is_number b -> lt a b = true -> le a b = true.
Proof.
  intros (na & -> & Hna) (nb & -> & Hnb).
  destruct na as [| | |ma ea], nb as [| | |mb eb];
    try congruence; try reflexivity; try discriminate.
  intros H. set (k := Z.min ea eb).
  apply (lt_Fin _ _ _ _ k) in H; [| lia | lia].
  apply (le_Fin _ _ _ _ k); lia.
Qed.

Lemma not_lt_le (a b : value) :
  Spec.is_number a -> Spec.is_number b -> lt a b = false -> le b a = true.
Proof.
  intros (na & -> & Hna) (nb & -> & Hnb).
  destruct na as [| | |ma ea], nb as [| | |mb eb];
    try congruence; try reflexivity; try discriminate.
  intros H. set (k := Z.min ea eb).
  apply (le_Fin _ _ _ _ k); [lia | lia |].
  destruct (Z.lt_ge_cases (align ma ea k) (align mb eb k)) as [Hlt | Hge]; [| lia].
  apply (lt_Fin _ _ _ _ k) in Hlt; [congruence | lia | lia].
Qed.

(** ** The insertion-ordered map *)
Section JSMapFacts.
Context {V : Type}.
Implicit Types (m : JSMap.t V) (k : string) (v : V).

Lemma get_set_eq m k v : JSMap.get k (JSMap.set k v m) = Some v.
Proof.
  induction m as [|[k' v'] m IH]; cbn [JSMap.set JSMap.get].
  - now rewrite String.eqb_refl.
  - destruct (String.eqb k k') eqn:E; cbn [JSMap.get]; rewrite E; [reflexivity | exact IH].
Qed.

Lemma get_set_ne m k k' v : k <> k' -> JSMap.get k' (JSMap.set k v m) = JSMap.get k' m.
Proof.
  intros Hne. induction m as [|[k0 v0] m IH]; cbn [JSMap.set JSMap.get].
  - destruct (String.eqb k' k) eqn:E; [apply String.eqb_eq in E; congruence | reflexivity].
  - destruct (String.eqb k k0) eqn:E; cbn [JSMap.get].
    + apply String.eqb_eq in E. subst k0.
      destruct (String.eqb k' k) eqn:E'; [apply String.eqb_eq in E'; congruence | reflexivity].
    + now rewrite IH.
Qed.

Lemma get_None_keys m k : JSMap.get k m = None <-> ~ In k (JSMap.keys m).
Proof.
  induction m as [|[k' v'] m IH]; cbn [JSMap.get JSMap.keys map fst In]; [tauto |].
  destruct (String.eqb k k') eqn:E.
  - apply String.eqb_eq in E. subst k'. split; [discriminate | tauto].
  - apply String.eqb_neq in E. fold (JSMap.keys m). rewrite IH.
    split; [intros H [?|?]; [congruence | tauto] | tauto].
Qed.

Lemma keys_set_present m k v v' :
  JSMap.get k m = Some v' -> JSMap.keys (JSMap.set k v m) = JSMap.keys m.
Proof.
  induction m as [|[k0 v0] m IH]; cbn [JSMap.get JSMap.set]; [discriminate |].
  destruct (String.eqb k k0) eqn:E; intros H; cbn [JSMap.keys map fst]; [reflexivity |].
  f_equal. now apply IH.
Qed.

Lemma keys_set_fresh m k v :
  JSMap.get k m = None -> JSMap.keys (JSMap.set k v m) = JSMap.keys m ++ [k].
Proof.
  induction m as [|[k0 v0] m IH]; cbn [JSMap.get JSMap.set]; [reflexivity |].
  destruct (String.eqb k k0) eqn:E; intros H; [discriminate |].
  cbn [JSMap.keys map fst app]. f_equal. now apply IH.
Qed.

Lemma In_get m k v :
  List.NoDup (JSMap.keys m) -> In (k, v) m -> JSMap.get k m = Some v.
Proof.
  induction m as [|[k0 v0] m IH]; cbn [JSMap.keys map fst In JSMap.get]; [tauto |].
  intros Hnd [[= -> ->] | Hin].
  - now rewrite String.eqb_refl.
  - apply NoDup_cons_iff in Hnd as [Hfresh Hnd].
    destruct (String.eqb k k0) eqn:E.
    + apply String.eqb_eq in E. subst k0. exfalso. apply Hfresh.
      change k with (fst (k, v)). now apply in_map.
    + now apply IH.
Qed.

Lemma get_In m k v : JSMap.get k m = Some v -> In (k, v) m.
Proof.
  induction m as [|[k0 v0] m IH]; cbn [In JSMap.get]; [discriminate |].
  destruct (String.eqb k k0) eqn:E.
  - apply String.eqb_eq in E. intros [= ->]. subst. now left.
  - intros H. right. now apply IH.
Qed.
End JSMapFacts.

(** ** Aggregation of a batch *)

Lemma fold_left_snoc {A B : Type} (f : A -> B -> A) (l : list B) (b : B) (a : A) :
  fold_left f (l ++ [b]) a = f (fold_left f l a) b.
Proof. now rewrite fold_left_app. Qed.

Lemma candle_of_snoc (g : list Candle.CandleInput) (it : Candle.CandleInput) :
  Spec.candle_of (g ++ [it])
  = Some match Spec.candle_of g with
         | None => Candle.first_row it
         | Some row => Candle.update_row row it
         end.
Proof.
  destruct g as [|it0 rest]; [reflexivity |].
  cbn [app Spec.candle_of]. now rewrite fold_left_snoc.
Qed.

Lemma filter_snoc {A : Type} (P : A -> bool) (l : list A) (a : A) :
  List.filter P (l ++ [a]) = List.filter P l ++ (if P a then [a] else []).
Proof. rewrite List.filter_app. reflexivity. Qed.

(** The row kept under a key is the fold of the inputs with that key. *)
Lemma get_absorbed (items : list Candle.CandleInput) (k : string) :
  JSMap.get k (fold_left Candle.absorb items [])
  = Spec.candle_of (Spec.with_key k items).
Proof.
  induction items as [|it items IH] using rev_ind; [reflexivity |].
  rewrite fold_left_snoc. unfold Spec.with_key in *. rewrite filter_snoc.
  unfold Candle.absorb at 1.
  destruct (String.eqb (Candle.key_of it) k) eqn:E.
  - apply String.eqb_eq in E. subst k. rewrite candle_of_snoc, <- IH.
    destruct (JSMap.get _ _); apply get_set_eq.
  - apply String.eqb_neq in E. rewrite app_nil_r, <- IH.
    destruct (JSMap.get (Candle.key_of it) _); now apply get_set_ne.
Qed.

Lemma keys_absorbed (items : list Candle.CandleInput) :
  List.NoDup (JSMap.keys (fold_left Candle.absorb items []))
  /\ forall k, In k (JSMap.keys (fold_left Candle.absorb items []))
               <-> exists it, In it items /\ Candle.key_of it = k.
Proof.
  induction items as [|it items [IHnd IHin]] using rev_ind.
  - split; [constructor |]. intros k; split; [intros [] | intros (it & [] & _)].
  - rewrite fold_left_snoc. unfold Candle.absorb at 1 3.
    destruct (JSMap.get (Candle.key_of it) _) as [row|] eqn:E.
    + rewrite (keys_set_present _ _ _ _ E). split; [exact IHnd |].
      intros k. rewrite IHin. split.
      * intros (it' & Hin & <-). exists it'. split; [apply in_or_app; now left | reflexivity].
      * intros (it' & Hin & <-). apply in_app_or in Hin as [Hin | [<- | []]]; [eauto |].
        apply IHin. destruct (in_dec string_dec (Candle.key_of it) (JSMap.keys (fold_left Candle.absorb items []))) as [Hyes | Hno]; [exact Hyes |]. apply get_None_keys in Hno. congruence.
    + rewrite (keys_set_fresh _ _ _ E). split.
      * apply List.NoDup_app; [exact IHnd | repeat constructor; intros [] |].
        intros k Hk [<- | []]. now apply get_None_keys in E.
      * intros k. rewrite in_app_iff, IHin. split.
        -- intros [(it' & Hin & <-) | [<- | []]].
           ++ exists it'. split; [apply in_or_app; now left | reflexivity].
           ++ exists it. split; [apply in_or_app; right; now left | reflexivity].
        -- intros (it' & Hin & <-). apply in_app_or in Hin as [Hin | [<- | []]]; [eauto |].
           right. now left.
Qed.


(** ** The candle of one group *)

Lemma last_cons {A : Type} (a d : A) (l : list A) :
  List.last (a :: l) d = List.last l a.
Proof.
  revert a d. induction l as [|b l IH]; intros a d; [reflexivity |].
  change (List.last (a :: b :: l) d) with (List.last (b :: l) d).
  now rewrite (IH b d), (IH b a).
Qed.

(** Updates keep the key and the open, move the close to the latest price
    and add the increments up. *)
Lemma updates_fields (rest : list Candle.CandleInput) (r0 : Candle.Row) :
  let r := fold_left Candle.update_row rest r0 in
  Candle.pool_id r = Candle.pool_id r0
  /\ Candle.bucket_start r = Candle.bucket_start r0
  /\ Candle.open r = Candle.open r0
  /\ Candle.close r = List.last (map Candle.it_price rest) (Candle.close r0)
  /\ Candle.volume_zig r
     = fold_left add (map (fun it => Spec.increment (Candle.it_vol_zig it)) rest)
         (Candle.volume_zig r0)
  /\ Candle.trade_count r
     = fold_left add (map (fun it => Spec.increment (Candle.it_trade_inc it)) rest)
         (Candle.trade_count r0).
Proof.
  revert r0. induction rest as [|it rest IH]; intros r0; [cbn; tauto |].
  cbn [fold_left map]. specialize (IH (Candle.update_row r0 it)).
  cbv zeta in IH. destruct IH as (H1 & H2 & H3 & H4 & H5 & H6).
  rewrite H1, H2, H3, H4, H5, H6. rewrite last_cons. cbn [Candle.update_row
    Candle.pool_id Candle.bucket_start Candle.open Candle.close Candle.volume_zig
    Candle.trade_count]. tauto.
Qed.

(** With prices that are numbers, updates leave in [high] the greatest
    price seen and in [low] the least. *)
Lemma updates_extremes (rest : list Candle.CandleInput) (r0 : Candle.Row) :
  (forall it, In it rest -> Spec.is_number (Candle.it_price it)) ->
  Spec.is_number (Candle.high r0) -> Spec.is_number (Candle.low r0) ->
  let r := fold_left Candle.update_row rest r0 in
  Spec.is_number (Candle.high r) /\ Spec.is_number (Candle.low r)
  /\ (Candle.high r = Candle.high r0
      \/ exists it, In it rest /\ Candle.high r = Candle.it_price it)
  /\ (Candle.low r = Candle.low r0
      \/ exists it, In it rest /\ Candle.low r = Candle.it_price it)
  /\ le (Candle.high r0) (Candle.high r) = true
  /\ le (Candle.low r) (Candle.low r0) = true
  /\ (forall it, In it rest -> le (Candle.it_price it) (Candle.high r) = true)
  /\ (forall it, In it rest -> le (Candle.low r) (Candle.it_price it) = true).
Proof.
  revert r0. induction rest as [|it rest IH]; intros r0 Hnum Hh Hl.
  - cbn. repeat split; auto using le_refl; intros it [].
  - cbn [fold_left].
    assert (Hp : Spec.is_number (Candle.it_price it)) by (apply Hnum; now left).
    set (r1 := Candle.update_row r0 it).
    assert (Hh1 : Spec.is_number (Candle.high r1)).
    { subst r1. cbn. destruct (gt _ _); assumption. }
    assert (Hl1 : Spec.is_number (Candle.low r1)).
    { subst r1. cbn. destruct (lt _ _); assumption. }
    assert (Hhi : le (Candle.high r0) (Candle.high r1) = true
                  /\ le (Candle.it_price it) (Candle.high r1) = true
                  /\ (Candle.high r1 = Candle.high r0
                      \/ Candle.high r1 = Candle.it_price it)).
    { subst r1. cbn. unfold gt.
      destruct (lt (Candle.high r0) (Candle.it_price it)) eqn:E.
      - auto using lt_le, le_refl.
      - auto using not_lt_le, le_refl. }
    assert (Hlo : le (Candle.low r1) (Candle.low r0) = true
                  /\ le (Candle.low r1) (Candle.it_price it) = true
                  /\ (Candle.low r1 = Candle.low r0
                      \/ Candle.low r1 = Candle.it_price it)).
    { subst r1. cbn.
      destruct (lt (Candle.it_price it) (Candle.low r0)) eqn:E.
      - auto using lt_le, le_refl.
      - auto using not_lt_le, le_refl. }
    destruct Hhi as (Hh01 & Hhp & Hhin), Hlo as (Hl10 & Hlp & Hlin).
    destruct (IH r1 (fun x Hx => Hnum x (or_intror Hx)) Hh1 Hl1)
      as (Hhn & Hln & Hhw & Hlw & Hhm & Hlm & Hha & Hla).
    cbv zeta. repeat split; try assumption.
    + destruct Hhw as [-> | (x & Hx & ->)]; [| right; exists x; split; [now right | reflexivity]].
      destruct Hhin as [-> | ->]; [now left | right; exists it; split; [now left | reflexivity]].
    + destruct Hlw as [-> | (x & Hx & ->)]; [| right; exists x; split; [now right | reflexivity]].
      destruct Hlin as [-> | ->]; [now left | right; exists it; split; [now left | reflexivity]].
    + eapply le_trans; [| | | exact Hh01 | exact Hhm]; assumption.
    + eapply le_trans; [| | | exact Hlm | exact Hl10]; assumption.
    + intros x [<- | Hx]; [| now apply Hha].
      eapply le_trans; [| | | exact Hhp | exact Hhm]; assumption.
    + intros x [<- | Hx]; [| now apply Hla].
      eapply le_trans; [| | | exact Hlm | exact Hlp]; assumption.
Qed.

(** What the candle of a non-empty group holds. *)
Lemma candle_of_group (first : Candle.CandleInput) (rest : list Candle.CandleInput)
    (r : Candle.Row) :
  Spec.candle_of (first :: rest) = Some r ->
  let g := first :: rest in
  Candle.pool_id r = Candle.it_pool_id first
  /\ Candle.bucket_start r = Candle.it_bucket_start first
  /\ Candle.open r = Candle.it_price first
  /\ Candle.close r = List.last (map Candle.it_price g) (Candle.it_price first)
  /\ Candle.volume_zig r
     = Spec.total (map (fun it => Spec.increment (Candle.it_vol_zig it)) g)
  /\ Candle.trade_count r
     = Spec.total (map (fun it => Spec.increment (Candle.it_trade_inc it)) g)
  /\ ((forall it, In it g -> Spec.is_number (Candle.it_price it)) ->
      Spec.maximum (Candle.high r) (map Candle.it_price g)
      /\ Spec.minimum (Candle.low r) (map Candle.it_price g)).
Proof.
  intros [= <-] g.
  destruct (updates_fields rest (Candle.first_row first)) as (H1 & H2 & H3 & H4 & H5 & H6).
  subst g. rewrite H1, H2, H3, H4, H5, H6. cbn [map Spec.total]. rewrite last_cons.
  do 6 (split; [reflexivity |]). intros H. split.
  - unfold Spec.maximum.
    destruct (updates_extremes rest (Candle.first_row first))
      as (_ & _ & Hhw & _ & Hhm & _ & Hha & _);
      try (intros; apply H; (now left) || (now right)).
    split.
    + destruct Hhw as [-> | (x & Hx & ->)]; [now left | right; now apply in_map].
    + intros x [<- | Hx]; [exact Hhm |].
      apply in_map_iff in Hx as (it & <- & Hit). now apply Hha.
  - unfold Spec.minimum.
    destruct (updates_extremes rest (Candle.first_row first))
      as (_ & _ & _ & Hlw & _ & Hlm & _ & Hla);
      try (intros; apply H; (now left) || (now right)).
    split.
    + destruct Hlw as [-> | (x & Hx & ->)]; [now left | right; now apply in_map].
    + intros x [<- | Hx]; [exact Hlm |].
      apply in_map_iff in Hx as (it & <- & Hit). now apply Hla.
Qed.


(** ** One candle per group *)

(** When the left parts hold no underscore, the separator splits a key in
    one way only. *)
Lemma key_split (p1 p2 b1 b2 : string) :
  all_chars (fun c => negb (is_char "_" c)) p1 = true ->
  all_chars (fun c => negb (is_char "_" c)) p2 = true ->
  p1 +:+ "__" +:+ b1 = p2 +:+ "__" +:+ b2 ->
  p1 = p2 /\ b1 = b2.
Proof.
  revert p2. induction p1 as [|c1 p1 IH]; intros [|c2 p2] H1 H2 H.
  - change (String "_" (String "_" b1) = String "_" (String "_" b2)) in H.
    injection H as ->. auto.
  - change (String "_" (String "_" b1) = String c2 (p2 +:+ "__" +:+ b2)) in H.
    injection H as <- _. discriminate H2.
  - change (String c1 (p1 +:+ "__" +:+ b1) = String "_" (String "_" b2)) in H.
    injection H as -> _. discriminate H1.
  - change (String c1 (p1 +:+ "__" +:+ b1) = String c2 (p2 +:+ "__" +:+ b2)) in H.
    injection H as -> H.
    cbn [all_chars] in H1, H2.
    apply andb_true_iff in H1 as [_ H1]. apply andb_true_iff in H2 as [_ H2].
    destruct (IH p2 H1 H2 H) as [-> ->]. auto.
Qed.

Lemma key_of_group (a b : Candle.CandleInput) :
  Spec.plain_pool_id a -> Spec.plain_pool_id b ->
  Candle.key_of a = Candle.key_of b <-> Spec.group_of a = Spec.group_of b.
Proof.
  intros Ha Hb. unfold Candle.key_of, Spec.group_of. split.
  - intros H. apply key_split in H as [-> ->]; auto.
  - intros [= -> ->]. reflexivity.
Qed.

Lemma same_group_spec (g : string * string) (it : Candle.CandleInput) :
  Spec.same_group g it = true <-> Spec.group_of it = g.
Proof.
  unfold Spec.same_group. rewrite andb_true_iff, !String.eqb_eq.
  destruct g, (Spec.group_of it); cbn [fst snd]. split; [intros [-> ->] | intros [= -> ->]]; auto.
Qed.

Lemma NoDup_map_factor {A B C : Type} (f : A -> B) (g : A -> C) (h : B -> C) (l : list A) :
  (forall x, In x l -> g x = h (f x)) ->
  List.NoDup (map g l) -> List.NoDup (map f l).
Proof.
  induction l as [|a l IH]; intros Hgh Hnd; [constructor |].
  cbn [map] in *. apply NoDup_cons_iff in Hnd as [Hfresh Hnd]. constructor.
  - intros Hin. apply Hfresh. apply in_map_iff in Hin as (x & Hx & Hxl).
    apply in_map_iff. exists x. split; [| exact Hxl].
    rewrite (Hgh x (or_intror Hxl)), Hx. symmetry. apply Hgh. now left.
  - apply IH; [| exact Hnd]. intros x Hx. apply Hgh. now right.
Qed.

(** Every binding of the map built by [aggregateBatch] holds the candle of
    the inputs that carry its key. *)
Lemma absorbed_binding (items : list Candle.CandleInput) (k : string) (r : Candle.Row) :
  In (k, r) (fold_left Candle.absorb items []) ->
  exists first rest,
    Spec.with_key k items = first :: rest
    /\ Spec.candle_of (first :: rest) = Some r
    /\ In first items
    /\ Candle.key_of first = k
    /\ Spec.row_group r = Spec.group_of first.
Proof.
  intros Hin. apply In_get in Hin; [| apply keys_absorbed].
  rewrite get_absorbed in Hin.
  destruct (Spec.with_key k items) as [|first rest] eqn:E; [discriminate |].
  exists first, rest. split; [reflexivity |]. split; [exact Hin |].
  assert (Hf : In first (Spec.with_key k items)) by (rewrite E; now left).
  apply filter_In in Hf as [Hf Hk]. apply String.eqb_eq in Hk.
  split; [exact Hf |]. split; [exact Hk |].
  destruct (candle_of_group first rest r Hin) as (H1 & H2 & _).
  unfold Spec.row_group, Spec.group_of. now rewrite H1, H2.
Qed.

(** A row of [aggregateBatch] summarises the inputs of its group. *)
Lemma aggregated_row_summarises (items : list Candle.CandleInput) (r : Candle.Row) :
  (forall it, In it items -> Spec.plain_pool_id it) ->
  In r (Ohlcv.aggregateBatch items) ->
  Spec.summarises r (Spec.members (Spec.row_group r) items).
Proof.
  intros Hplain Hr. unfold Ohlcv.aggregateBatch, JSMap.values in Hr.
  apply in_map_iff in Hr as ([k r'] & Hkr & Hin). cbn [snd] in Hkr. subst r'.
  destruct (absorbed_binding items k r Hin) as (first & rest & Hwk & Hc & Hf & Hkey & Hg).
  assert (Hmem : Spec.members (Spec.row_group r) items = first :: rest).
  { rewrite <- Hwk. unfold Spec.members, Spec.with_key. apply filter_ext_in.
    intros it Hit. rewrite Hg.
    destruct (Spec.same_group (Spec.group_of first) it) eqn:E1.
    - apply same_group_spec in E1. symmetry. apply String.eqb_eq.
      rewrite <- Hkey. apply key_of_group; auto.
    - symmetry. apply String.eqb_neq. intros Hk.
      rewrite <- Hkey in Hk. apply key_of_group in Hk; auto.
      apply same_group_spec in Hk. congruence. }
  rewrite Hmem. exists first, rest. split; [reflexivity |].
  apply (candle_of_group first rest r Hc).
Qed.

Example three_trades_one_candle :
  Ohlcv.aggregateBatch
    (map Ohlcv.upsertOHLCV1m
       [Sample.tick 1 "T0" 10; Sample.tick 1 "T0" 12; Sample.tick 1 "T0" 9])
  = [ {| Candle.pool_id := VInt 1; Candle.bucket_start := VStr "T0";
         Candle.open := VInt 10; Candle.high := VInt 12; Candle.low := VInt 9;
         Candle.close := VInt 9; Candle.volume_zig := VInt 0;
         Candle.trade_count := VInt 3; Candle.liquidity_zig := VNull |} ].
Proof. vm_compute. reflexivity. Qed.

(** C2: on a batch whose pool ids hold no underscore in their text (as no
    number does), [aggregateBatch] returns one row per group of inputs with
    the same pool id and bucket start, and no second row for any group.  The
    row takes its open from the first input of the group, its close from the
    last in push order, its volume and trade count are the sums of the
    increments, and for prices that are numbers its high and low are the
    greatest and the least price.  Three trades of pool 1 in bucket T0 at
    10, 12 and 9 give the single candle 10/12/9/9 with trade count 3. *)
Theorem aggregateBatch_one_candle_per_group :
  forall items : list Candle.CandleInput,
    (forall it, In it items -> Spec.plain_pool_id it) ->
    let rows := Ohlcv.aggregateBatch items in
    List.NoDup (map Spec.row_group rows)
    /\ (forall it, In it items ->
          exists r, In r rows /\ Spec.row_group r = Spec.group_of it)
    /\ (forall r, In r rows ->
          Spec.summarises r (Spec.members (Spec.row_group r) items))
    /\ exists r,
         Ohlcv.aggregateBatch
           (map Ohlcv.upsertOHLCV1m
              [Sample.tick 1 "T0" 10; Sample.tick 1 "T0" 12; Sample.tick 1 "T0" 9])
         = [r]
         /\ Candle.open r = VInt 10 /\ Candle.high r = VInt 12
         /\ Candle.low r = VInt 9 /\ Candle.close r = VInt 9
         /\ Candle.trade_count r = VInt 3.
Proof.
  intros items Hplain rows. subst rows. unfold Ohlcv.aggregateBatch, JSMap.values.
  set (m := fold_left Candle.absorb items []).
  split; [| split; [| split]].
  - rewrite map_map.
    apply (NoDup_map_factor _ fst (fun g => fst g +:+ "__" +:+ snd g)).
    + intros [k r] Hin. subst m. cbn [fst snd].
      destruct (absorbed_binding items k r Hin) as (first & rest & _ & _ & _ & <- & ->).
      reflexivity.
    + apply keys_absorbed.
  - intros it Hit.
    assert (Hk : In (Candle.key_of it) (JSMap.keys m)).
    { apply keys_absorbed. eauto. }
    apply in_map_iff in Hk as ([k r] & Hkr & Hin). cbn [fst] in Hkr. subst k.
    exists r. split; [now apply (in_map snd) in Hin |].
    destruct (absorbed_binding items _ r Hin) as (first & rest & _ & _ & Hf & Hkey & ->).
    apply key_of_group; auto.
  - intros r Hr. now apply aggregated_row_summarises.
  - eexists. split; [exact three_trades_one_candle |].
    cbn [Candle.open Candle.high Candle.low Candle.close Candle.trade_count]. tauto.
Qed.

Lemma aggregateBatch_one_candle_per_group_witness :
  exists r,
    In r (Ohlcv.aggregateBatch
            [Sample.tick 1 "T0" 10; Sample.tick 2 "T0" 7; Sample.tick 1 "T0" 12])
    /\ Spec.row_group r = Spec.group_of (Sample.tick 2 "T0" 7).
Proof.
  destruct (aggregateBatch_one_candle_per_group
              [Sample.tick 1 "T0" 10; Sample.tick 2 "T0" 7; Sample.tick 1 "T0" 12])
    as (_ & Hcover & _).
  - intros it [<- | [<- | [<- | []]]]; vm_compute; reflexivity.
  - apply (Hcover (Sample.tick 2 "T0" 7)). right. left. reflexivity.
Defined.


(** The sum of integer increments is their integer sum. *)
Lemma total_of_integers (k : Z) (ks : list Z) :
  Spec.total (map VInt (k :: ks)) = VInt (fold_left Z.add ks k).
Proof.
  cbn [map Spec.total]. revert k. induction ks as [|k' ks IH]; intros k; [reflexivity |].
  cbn [map fold_left]. rewrite <- IH. f_equal.
  unfold add, VInt, of_Z. cbn [ToNumber num_add]. unfold align.
  change (Z.min 0 0) with 0. change (0 - 0) with 0. change (10 ^ 0) with 1.
  now rewrite !Z.mul_1_r.
Qed.

(** *** Texts without underscore *)

Lemma all_chars_weaken (p q : ascii -> bool) (s : string) :
  (forall c, p c = true -> q c = true) ->
  all_chars p s = true -> all_chars q s = true.
Proof.
  intros Hpq. induction s as [|c s IH]; [reflexivity |]. cbn [all_chars].
  rewrite !andb_true_iff. intros [H1 H2]. auto.
Qed.

Lemma digit_plain (c : ascii) : is_digit c = true -> negb (is_char "_" c) = true.
Proof.
  unfold is_char. destruct (ascii_dec "_" c) as [<- | _]; [discriminate | reflexivity].
Qed.

Lemma all_chars_rev_app (p : ascii -> bool) (s1 s2 : string) :
  all_chars p (String.rev_app s1 s2) = all_chars p s1 && all_chars p s2.
Proof.
  revert s2. induction s1 as [|c s1 IH]; intros s2; [reflexivity |].
  cbn [String.rev_app all_chars]. rewrite IH. cbn [all_chars].
  destruct (p c), (all_chars p s1), (all_chars p s2); reflexivity.
Qed.

Lemma all_chars_rev (p : ascii -> bool) (s : string) :
  all_chars p (String.rev s) = all_chars p s.
Proof. unfold String.rev. rewrite all_chars_rev_app. cbn [all_chars]. apply andb_true_r. Qed.

Lemma all_chars_drop_zeros (p : ascii -> bool) (s : string) :
  all_chars p s = true -> all_chars p (drop_zeros s) = true.
Proof.
  induction s as [|c s IH]; [reflexivity |]. cbn [drop_zeros all_chars].
  intros H. apply andb_true_iff in H as [Hc Hs].
  destruct (ascii_dec c "0") as [-> | Hne].
  - now apply IH.
  - assert (E : drop_zeros (String c s) = String c s).
    { cbn [drop_zeros]. destruct c as [[] [] [] [] [] [] [] []]; try reflexivity.
      congruence. }
    cbn [drop_zeros] in E. rewrite E. cbn [all_chars]. now rewrite Hc, Hs.
Qed.

Lemma digits_plain (z : Z) : Spec.plain (digits z).
Proof. apply (all_chars_weaken is_digit); [apply digit_plain | apply digits_all_digits]. Qed.

Lemma repeat0_plain (n : nat) : Spec.plain (repeat0 n).
Proof. apply (all_chars_weaken is_digit); [apply digit_plain | apply repeat0_digits]. Qed.

Lemma plain_app (a b : string) : Spec.plain a -> Spec.plain b -> Spec.plain (a +:+ b).
Proof. unfold Spec.plain. intros Ha Hb. now rewrite all_chars_app, Ha, Hb. Qed.

Lemma exponent_suffix_plain (x : Z) : Spec.plain (exponent_suffix x).
Proof.
  unfold exponent_suffix. apply plain_app; [reflexivity |].
  apply plain_app; [destruct (x <? 0); reflexivity | apply digits_plain].
Qed.

(** No Number has an underscore in its text. *)
Lemma NumberToString_plain (n : number) : Spec.plain (NumberToString n).
Proof.
  destruct n as [| | |m e]; try reflexivity. unfold NumberToString.
  destruct (m =? 0); [reflexivity |].
  set (s := strip_trailing_zeros (digits (Z.abs m))).
  assert (Hs : Spec.plain s).
  { subst s. unfold strip_trailing_zeros, Spec.plain.
    rewrite all_chars_rev. apply all_chars_drop_zeros. rewrite all_chars_rev.
    apply digits_plain. }
  destruct (all_chars_take_drop _ 1 s Hs) as [Ht1 Hd1].
  apply plain_app; [destruct (m <? 0); reflexivity |].
  repeat match goal with
         | |- Spec.plain (if ?b then _ else _) => destruct b
         | |- Spec.plain (_ +:+ _) => apply plain_app
         | |- Spec.plain (repeat0 _) => apply repeat0_plain
         | |- Spec.plain (exponent_suffix _) => apply exponent_suffix_plain
         | |- Spec.plain (str_take _ s) => apply (all_chars_take_drop _ _ s Hs)
         | |- Spec.plain (str_drop _ s) => apply (all_chars_take_drop _ _ s Hs)
         | |- Spec.plain s => exact Hs
         | |- Spec.plain _ => reflexivity
         end.
Qed.

(** A pool id that is not a string has a plain text. *)
Lemma plain_pool_id_unless_string (it : Candle.CandleInput) :
  (forall s, Candle.it_pool_id it <> VStr s) -> Spec.plain_pool_id it.
Proof.
  unfold Spec.plain_pool_id. intros H.
  destruct (Candle.it_pool_id it) as [| |[]|n|s]; try reflexivity.
  - apply NumberToString_plain.
  - now destruct (H s).
Qed.


(** ** The order of strings *)

Lemma str_lt_irrefl (a : string) : str_lt a a = false.
Proof.
  unfold str_lt, String.ltb. destruct (String.compare a a) eqn:E; try reflexivity.
  pose proof (String.compare_antisym a a) as H. rewrite E in H. discriminate.
Qed.

Lemma str_lt_leb (a b : string) : str_lt a b = negb (String.leb b a).
Proof.
  unfold str_lt, String.ltb, String.leb. rewrite (String.compare_antisym a b).
  destruct (String.compare b a); reflexivity.
Qed.

Lemma leb_trans (a b c : string) :
  String.leb a b = true -> String.leb b c = true -> String.leb a c = true.
Proof.
  intros H1 H2. apply Is_true_true.
  change (String.le a c). transitivity b; apply Is_true_true; assumption.
Qed.

Lemma str_lt_trans (a b c : string) :
  str_lt a b = true -> str_lt b c = true -> str_lt a c = true.
Proof.
  rewrite !str_lt_leb, !negb_true_iff. intros H1 H2.
  destruct (String.leb c a) eqn:E; [| reflexivity].
  destruct (String.leb_total a b) as [Hab | Hba]; [| congruence].
  rewrite (leb_trans c a b E Hab) in H2. discriminate.
Qed.

Lemma str_lt_asym (a b : string) : str_lt a b = true -> str_lt b a = false.
Proof.
  intros H. destruct (str_lt b a) eqn:E; [| reflexivity].
  rewrite <- (str_lt_irrefl a). symmetry. now apply (str_lt_trans a b a).
Qed.

Lemma str_trichotomy (a b : string) :
  str_lt a b = false -> str_lt b a = false -> a = b.
Proof.
  rewrite !str_lt_leb, !negb_false_iff. intros H1 H2. now apply String.leb_antisym.
Qed.

(** [a <= b] on strings: not [b < a]. *)
Lemma str_le_trans (a b c : string) :
  str_lt b a = false -> str_lt c b = false -> str_lt c a = false.
Proof.
  rewrite !str_lt_leb, !negb_false_iff. apply leb_trans.
Qed.

Lemma str_lt_le_trans (a b c : string) :
  str_lt a b = true -> str_lt c b = false -> str_lt a c = true.
Proof.
  intros H1 H2. destruct (str_lt a c) eqn:E; [reflexivity |].
  destruct (str_lt c a) eqn:E'.
  - rewrite (str_lt_trans c a b E' H1) in H2. discriminate.
  - rewrite (str_trichotomy a c E E') in H1. congruence.
Qed.

(** ** Array.prototype.sort with a consistent comparator

    The comparator is consistent on the elements of the array: these are
    the elements in [dom]. *)
Section SortFacts.
Context {A : Type} (cmp : A -> A -> number) (dom : A -> Prop).

Hypothesis before_total :
  forall a b, dom a -> dom b -> Spec.before cmp a b \/ Spec.before cmp b a.
Hypothesis before_trans :
  forall a b c, dom a -> dom b -> dom c ->
                Spec.before cmp a b -> Spec.before cmp b c -> Spec.before cmp a c.

Lemma insert_perm (x : A) (l : list A) : Permutation (JSArray.insert cmp x l) (x :: l).
Proof.
  induction l as [|y l IH]; cbn [JSArray.insert]; [reflexivity |].
  destruct (JSArray.comes_after (cmp x y)); [| reflexivity].
  rewrite IH. apply perm_swap.
Qed.

Lemma sort_perm (l : list A) : Permutation (JSArray.sort cmp l) l.
Proof.
  induction l as [|x l IH]; [reflexivity |].
  unfold JSArray.sort in *. cbn [foldr]. rewrite insert_perm. now constructor.
Qed.

Lemma sort_In (l : list A) (x : A) : In x (JSArray.sort cmp l) <-> In x l.
Proof.
  split; apply Permutation_in; [apply sort_perm | symmetry; apply sort_perm].
Qed.

Lemma insert_sorted (x : A) (l : list A) :
  dom x -> List.Forall dom l ->
  StronglySorted (Spec.before cmp) l ->
  StronglySorted (Spec.before cmp) (JSArray.insert cmp x l).
Proof.
  intros Hx Hdom Hs. induction Hs as [|y l Hs IH Hy]; cbn [JSArray.insert].
  - repeat constructor.
  - apply List.Forall_cons_iff in Hdom as [Hdy Hdl].
    destruct (JSArray.comes_after (cmp x y)) eqn:E.
    + constructor; [now apply IH |].
      assert (Hyx : Spec.before cmp y x).
      { destruct (before_total x y Hx Hdy) as [H | H];
          [unfold Spec.before in H; congruence | exact H]. }
      eapply Permutation_Forall; [symmetry; apply insert_perm |].
      constructor; assumption.
    + constructor; [now constructor |].
      constructor; [exact E |].
      apply List.Forall_forall. intros z Hz.
      apply (before_trans x y z); auto.
      * exact (proj1 (List.Forall_forall _ _) Hdl z Hz).
      * exact (proj1 (List.Forall_forall _ _) Hy z Hz).
Qed.

Lemma sort_sorted (l : list A) :
  List.Forall dom l -> StronglySorted (Spec.before cmp) (JSArray.sort cmp l).
Proof.
  induction l as [|x l IH]; intros Hdom; [constructor |].
  apply List.Forall_cons_iff in Hdom as [Hx Hl].
  change (JSArray.sort cmp (x :: l)) with (JSArray.insert cmp x (JSArray.sort cmp l)).
  apply insert_sorted; auto.
  apply List.Forall_forall. intros z Hz. apply (proj1 (sort_In l z)) in Hz.
  exact (proj1 (List.Forall_forall _ _) Hl z Hz).
Qed.

Lemma sort_nil (l : list A) : JSArray.sort cmp l = [] -> l = [].
Proof.
  intros H. apply Permutation_nil. rewrite <- H. apply sort_perm.
Qed.

(** The first element of the sorted array may stay before every element. *)
Lemma sort_head (l : list A) (top : A) (rest : list A) :
  List.Forall dom l ->
  (forall a, dom a -> Spec.before cmp a a) ->
  JSArray.sort cmp l = top :: rest ->
  In top l /\ forall x, In x l -> Spec.before cmp top x.
Proof.
  intros Hdom Hrefl H. pose proof (sort_sorted l Hdom) as Hs. rewrite H in Hs.
  apply StronglySorted_inv in Hs as [_ Hall].
  assert (Htop : In top l) by (apply (proj1 (sort_In l top)); rewrite H; now left).
  split; [exact Htop |].
  intros x Hx. apply (proj2 (sort_In l x)) in Hx. rewrite H in Hx.
  destruct Hx as [<- | Hx].
  - apply Hrefl. exact (proj1 (List.Forall_forall _ _) Hdom _ Htop).
  - exact (proj1 (List.Forall_forall _ _) Hall x Hx).
Qed.
End SortFacts.


(** ** The order in which a flush meets its rows *)

Lemma before_rows (a b : Candle.Row) :
  Spec.before Ohlcv.by_pool_then_bucket a b
  <-> str_lt (Ohlcv.pool_key a) (Ohlcv.pool_key b) = true
      \/ (Ohlcv.pool_key a = Ohlcv.pool_key b
          /\ str_lt (Ohlcv.bucket_ts b) (Ohlcv.bucket_ts a) = false).
Proof.
  unfold Spec.before, Ohlcv.by_pool_then_bucket.
  fold (Ohlcv.pool_key a) (Ohlcv.pool_key b) (Ohlcv.bucket_ts a) (Ohlcv.bucket_ts b).
  destruct (str_lt (Ohlcv.pool_key a) (Ohlcv.pool_key b)) eqn:E1.
  - split; [auto | reflexivity].
  - destruct (str_lt (Ohlcv.pool_key b) (Ohlcv.pool_key a)) eqn:E2.
    + split; [discriminate |]. intros [H | [H _]]; [discriminate |].
      rewrite H, str_lt_irrefl in E2. discriminate.
    + pose proof (str_trichotomy _ _ E1 E2) as Hk.
      destruct (str_lt (Ohlcv.bucket_ts a) (Ohlcv.bucket_ts b)) eqn:E3.
      * split; [| reflexivity]. intros _. right. split; [exact Hk |].
        now apply str_lt_asym.
      * destruct (str_lt (Ohlcv.bucket_ts b) (Ohlcv.bucket_ts a)) eqn:E4.
        -- split; [discriminate |]. intros [H | [_ H]]; discriminate.
        -- split; [auto | reflexivity].
Qed.

Lemma before_rows_total (a b : Candle.Row) :
  Spec.before Ohlcv.by_pool_then_bucket a b \/ Spec.before Ohlcv.by_pool_then_bucket b a.
Proof.
  rewrite !before_rows.
  destruct (str_lt (Ohlcv.pool_key a) (Ohlcv.pool_key b)) eqn:E1; [auto |].
  destruct (str_lt (Ohlcv.pool_key b) (Ohlcv.pool_key a)) eqn:E2; [auto |].
  pose proof (str_trichotomy _ _ E1 E2) as Hk.
  destruct (str_lt (Ohlcv.bucket_ts b) (Ohlcv.bucket_ts a)) eqn:E3; [| auto].
  right. right. split; [auto |]. now apply str_lt_asym.
Qed.

Lemma before_rows_trans (a b c : Candle.Row) :
  Spec.before Ohlcv.by_pool_then_bucket a b ->
  Spec.before Ohlcv.by_pool_then_bucket b c ->
  Spec.before Ohlcv.by_pool_then_bucket a c.
Proof.
  rewrite !before_rows. intros [H1 | [H1 H1']] [H2 | [H2 H2']].
  - left. now apply (str_lt_trans _ (Ohlcv.pool_key b)).
  - left. now rewrite <- H2.
  - left. now rewrite H1.
  - right. split; [congruence |]. now apply (str_le_trans _ (Ohlcv.bucket_ts b)).
Qed.

Lemma sort_rows_sorted (rows : list Candle.Row) :
  StronglySorted (Spec.before Ohlcv.by_pool_then_bucket)
    (JSArray.sort Ohlcv.by_pool_then_bucket rows).
Proof.
  apply (sort_sorted _ (fun _ => True)).
  - intros a b _ _. apply before_rows_total.
  - intros a b c _ _ _. apply before_rows_trans.
  - apply List.Forall_forall. auto.
Qed.

(** In a sorted array the last row of a pool has its greatest bucket
    start. *)
Lemma last_pool_row_latest (rows : list Candle.Row) (k : string) (x : Candle.Row) :
  StronglySorted (Spec.before Ohlcv.by_pool_then_bucket) rows ->
  last (Spec.pool_rows k rows) = Some x ->
  forall y, In y (Spec.pool_rows k rows) ->
            str_lt (Ohlcv.bucket_ts x) (Ohlcv.bucket_ts y) = false.
Proof.
  induction 1 as [|a rows Hs IH Ha]; intros Hlast y Hy; [destruct Hy |].
  unfold Spec.pool_rows in *. cbn [List.filter] in *.
  destruct (String.eqb (Ohlcv.pool_key a) k) eqn:E; [| now apply IH].
  destruct (List.filter _ rows) as [|b f] eqn:Ef.
  - injection Hlast as <-. destruct Hy as [<- | []]. apply str_lt_irrefl.
  - change (last (b :: f) = Some x) in Hlast.
    destruct Hy as [<- | Hy]; [| now apply IH].
    assert (Hx : In x (List.filter (fun r => String.eqb (Ohlcv.pool_key r) k) rows)).
    { rewrite Ef. apply list_elem_of_In, last_Some_elem_of, Hlast. }
    apply filter_In in Hx as [Hx Hkx].
    pose proof (proj1 (List.Forall_forall _ _) Ha x Hx) as Hax.
    apply before_rows in Hax as [Hlt | [_ Hle]]; [| exact Hle].
    apply String.eqb_eq in E, Hkx. rewrite E, Hkx, str_lt_irrefl in Hlt. discriminate.
Qed.

(** ** The continuity loop *)

Lemma chain_spec (c : gmap string Ohlcv.LastClose) (r : Candle.Row) :
  Ohlcv.chain c r
  = (<[Ohlcv.pool_key r := Spec.entry_of r]> c, Spec.chained (c !! Ohlcv.pool_key r) r).
Proof. reflexivity. Qed.

Lemma seen_nil (c : gmap string Ohlcv.LastClose) (k : string) : Spec.seen c [] k = c !! k.
Proof. reflexivity. Qed.

Lemma seen_cons (c : gmap string Ohlcv.LastClose) (r : Candle.Row)
    (rows : list Candle.Row) (k : string) :
  Spec.seen c (r :: rows) k
  = Spec.seen (<[Ohlcv.pool_key r := Spec.entry_of r]> c) rows k.
Proof.
  unfold Spec.seen, Spec.pool_rows. cbn [List.filter].
  destruct (String.eqb (Ohlcv.pool_key r) k) eqn:E.
  - apply String.eqb_eq in E. subst k.
    destruct (List.filter _ rows) as [|b f]; cbn [last]; [now rewrite lookup_insert_eq |].
    change (match f with [] => Some b | _ :: _ => last f end) with (last (b :: f)).
    destruct (last (b :: f)) eqn:El; [reflexivity | apply last_None in El; discriminate].
  - apply String.eqb_neq in E. destruct (last _); [reflexivity |].
    now rewrite lookup_insert_ne.
Qed.

Lemma seen_app (c : gmap string Ohlcv.LastClose) (l1 l2 : list Candle.Row) (k : string) :
  Spec.seen c (l1 ++ l2) k
  = match last (Spec.pool_rows k l2) with
    | Some r => Some (Spec.entry_of r)
    | None => Spec.seen c l1 k
    end.
Proof.
  unfold Spec.seen, Spec.pool_rows. rewrite List.filter_app.
  destruct (List.filter _ l2) as [|b f] eqn:E using rev_ind.
  - now rewrite app_nil_r.
  - now rewrite app_assoc, !last_snoc.
Qed.

(** The cache left by the loop. *)
Lemma continuity_cache (rows : list Candle.Row) (c : gmap string Ohlcv.LastClose)
    (k : string) :
  fst (Ohlcv.continuity c rows) !! k = Spec.seen c rows k.
Proof.
  revert c. induction rows as [|r rows IH]; intros c; [reflexivity |].
  cbn [Ohlcv.continuity]. rewrite chain_spec.
  specialize (IH (<[Ohlcv.pool_key r := Spec.entry_of r]> c)).
  destruct (Ohlcv.continuity _ rows) as [c2 rest'] eqn:E. cbn [fst] in *.
  now rewrite IH, seen_cons.
Qed.

Lemma continuity_cache_eq (rows : list Candle.Row) (c c' : gmap string Ohlcv.LastClose) :
  (forall k, c !! k = c' !! k) ->
  Ohlcv.continuity c rows = Ohlcv.continuity c' rows.
Proof. intros H. now rewrite (map_eq c c' H). Qed.

(** The loop over two arrays in turn. *)
Lemma continuity_app (l1 l2 : list Candle.Row) (c : gmap string Ohlcv.LastClose) :
  Ohlcv.continuity c (l1 ++ l2)
  = (fst (Ohlcv.continuity (fst (Ohlcv.continuity c l1)) l2),
     snd (Ohlcv.continuity c l1) ++ snd (Ohlcv.continuity (fst (Ohlcv.continuity c l1)) l2)).
Proof.
  revert c. induction l1 as [|r l1 IH]; intros c.
  - cbn [app Ohlcv.continuity fst snd]. now destruct (Ohlcv.continuity c l2).
  - cbn [app Ohlcv.continuity]. rewrite chain_spec.
    rewrite (IH (<[Ohlcv.pool_key r := Spec.entry_of r]> c)).
    destruct (Ohlcv.continuity _ l1) as [c1 o1]. cbn [fst snd].
    now destruct (Ohlcv.continuity c1 l2).
Qed.

Lemma continuity_length (rows : list Candle.Row) (c : gmap string Ohlcv.LastClose) :
  length (snd (Ohlcv.continuity c rows)) = length rows.
Proof.
  revert c. induction rows as [|r rows IH]; intros c; [reflexivity |].
  cbn [Ohlcv.continuity]. rewrite chain_spec.
  specialize (IH (<[Ohlcv.pool_key r := Spec.entry_of r]> c)).
  destruct (Ohlcv.continuity _ rows). cbn [snd length] in *. now rewrite IH.
Qed.

(** The row the loop leaves at a position depends on what the cache holds
    for its pool when the loop reaches it. *)
Lemma continuity_at (l1 l3 : list Candle.Row) (r : Candle.Row)
    (c : gmap string Ohlcv.LastClose) :
  exists o1 o3,
    snd (Ohlcv.continuity c (l1 ++ r :: l3))
    = o1 ++ Spec.chained (Spec.seen c l1 (Ohlcv.pool_key r)) r :: o3
    /\ length o1 = length l1 /\ length o3 = length l3.
Proof.
  rewrite continuity_app. cbn [snd Ohlcv.continuity]. rewrite chain_spec.
  destruct (Ohlcv.continuity (<[_ := _]> _) l3) as [c3 o3] eqn:E3. cbn [snd].
  exists (snd (Ohlcv.continuity c l1)), o3.
  rewrite continuity_cache, continuity_length. repeat split.
  pose proof (continuity_length l3 (<[Ohlcv.pool_key r := Spec.entry_of r]>
                                      (fst (Ohlcv.continuity c l1)))) as H.
  now rewrite E3 in H.
Qed.

Lemma flush_rows_spec (c : gmap string Ohlcv.LastClose) (items : list Candle.CandleInput) :
  Ohlcv.flush_rows c items
  = Ohlcv.continuity c (JSArray.sort Ohlcv.by_pool_then_bucket (Ohlcv.aggregateBatch items)).
Proof.
  unfold Ohlcv.flush_rows. destruct items as [|it rest]; [reflexivity |].
  destruct (Ohlcv.aggregateBatch (it :: rest)); reflexivity.
Qed.

(** Successive flushes are one run of the loop over the rows of all the
    batches. *)
Lemma flushes_spec (batches : list (list Candle.CandleInput))
    (c : gmap string Ohlcv.LastClose) :
  fst (Ohlcv.flushes c batches) = fst (Ohlcv.continuity c (Spec.processed batches))
  /\ concat (snd (Ohlcv.flushes c batches))
     = snd (Ohlcv.continuity c (Spec.processed batches)).
Proof.
  revert c. induction batches as [|b rest IH]; intros c; [split; reflexivity |].
  cbn [Ohlcv.flushes]. unfold Spec.processed. cbn [map concat].
  fold (Spec.processed rest). rewrite continuity_app, flush_rows_spec.
  destruct (Ohlcv.continuity c _) as [c1 rows]. cbn [fst snd].
  destruct (IH c1) as [H1 H2]. destruct (Ohlcv.flushes c1 rest) as [c2 more].
  cbn [fst snd concat] in *. now rewrite H1, H2.
Qed.


(** ** The cache across flushes *)

(** C3, as the code has it: a flush with no row for a pool leaves the
    pool's entry as it was.  A flush that brings the pool a bucket at or
    after the recorded one (or the pool's first bucket) sets the entry to the
    pool's greatest bucket start of the batch and to that row's close, so the
    recorded bucket start does not move backwards; this holds as well when
    the greatest bucket is the recorded one, whose close is then replaced. *)
Theorem flush_updates_cache_entry :
  forall (c : gmap string Ohlcv.LastClose) (items : list Candle.CandleInput) (k : string),
    let agg := Ohlcv.aggregateBatch items in
    let c' := fst (Ohlcv.flush_rows c items) in
    ((forall r, In r agg -> Ohlcv.pool_key r <> k) -> c' !! k = c !! k)
    /\ (forall r,
          In r agg -> Ohlcv.pool_key r = k ->
          (forall prev, c !! k = Some prev ->
                        str_lt (Ohlcv.bucket_ts r) (Ohlcv.lc_bucket_start prev) = false) ->
          exists latest,
            In latest agg /\ Ohlcv.pool_key latest = k
            /\ (forall r', In r' agg -> Ohlcv.pool_key r' = k ->
                           str_lt (Ohlcv.bucket_ts latest) (Ohlcv.bucket_ts r') = false)
            /\ c' !! k = Some (Spec.entry_of latest)
            /\ (forall prev, c !! k = Some prev ->
                  str_lt (Ohlcv.bucket_ts latest) (Ohlcv.lc_bucket_start prev) = false)).
Proof.
  intros c items k agg c'. subst c'. rewrite flush_rows_spec, continuity_cache.
  fold agg. set (rows := JSArray.sort Ohlcv.by_pool_then_bucket agg).
  assert (Hin : forall r, In r rows <-> In r agg) by (intros r; apply sort_In).
  unfold Spec.seen. split.
  - intros Hnone.
    assert (E : Spec.pool_rows k rows = []).
    { unfold Spec.pool_rows. apply filter_none_nil. intros r Hr.
      apply String.eqb_neq, Hnone, Hin, Hr. }
    now rewrite E.
  - intros r Hr Hk Hnew.
    assert (Hrp : In r (Spec.pool_rows k rows)).
    { apply filter_In. split; [now apply Hin | now apply String.eqb_eq]. }
    destruct (last (Spec.pool_rows k rows)) as [latest|] eqn:El;
      [| apply last_None in El; rewrite El in Hrp; destruct Hrp].
    assert (Hlp : In latest (Spec.pool_rows k rows)).
    { apply list_elem_of_In, last_Some_elem_of, El. }
    pose proof (last_pool_row_latest rows k latest (sort_rows_sorted agg) El) as Hmax.
    apply filter_In in Hlp as [Hl Hlk]. apply String.eqb_eq in Hlk.
    exists latest. split; [now apply Hin |]. split; [exact Hlk |].
    split; [| split; [reflexivity |]].
    + intros r' Hr' Hk'. apply Hmax, filter_In.
      split; [now apply Hin | now apply String.eqb_eq].
    + intros prev Hprev.
      apply (str_le_trans _ (Ohlcv.bucket_ts r)); [now apply Hnew | now apply Hmax].
Qed.

Lemma flush_updates_cache_entry_witness :
  exists latest,
    In latest (Ohlcv.aggregateBatch [Sample.tick 1 "T0" 10; Sample.tick 1 "T1" 20])
    /\ fst (Ohlcv.flush_rows ∅ [Sample.tick 1 "T0" 10; Sample.tick 1 "T1" 20]) !! "1"%string
       = Some (Spec.entry_of latest).
Proof.
  destruct (proj2 (flush_updates_cache_entry
                     ∅ [Sample.tick 1 "T0" 10; Sample.tick 1 "T1" 20] "1"%string)
              {| Candle.pool_id := VInt 1; Candle.bucket_start := VStr "T0";
                 Candle.open := VInt 10; Candle.high := VInt 10; Candle.low := VInt 10;
                 Candle.close := VInt 10; Candle.volume_zig := VInt 0;
                 Candle.trade_count := VInt 1; Candle.liquidity_zig := VNull |})
    as (latest & Hin & _ & _ & Hc & _).
  - left. reflexivity.
  - reflexivity.
  - intros prev H. rewrite lookup_empty in H. discriminate.
  - exists latest. split; [exact Hin | exact Hc].
Defined.

(** C3 as stated fails: flushing again the bucket the cache records for a
    pool replaces the recorded close, although no bucket of the batch is
    newer than the recorded one. *)
Lemma reflush_of_recorded_bucket_changes_entry :
  let c := fst (Ohlcv.flush_rows ∅ [Sample.tick 1 "T0" 9]) in
  let c' := fst (Ohlcv.flush_rows c [Sample.tick 1 "T0" 11]) in
  c !! "1"%string
  = Some {| Ohlcv.lc_bucket_start := "T0"; Ohlcv.lc_close := VInt 9 |}
  /\ map Ohlcv.bucket_ts (Ohlcv.aggregateBatch [Sample.tick 1 "T0" 11]) = ["T0"%string]
  /\ c' !! "1"%string
     = Some {| Ohlcv.lc_bucket_start := "T0"; Ohlcv.lc_close := VInt 11 |}
  /\ c' !! "1"%string <> c !! "1"%string.
Proof.
  cbv zeta. repeat split; try (vm_compute; reflexivity).
  intros H. vm_compute in H. discriminate.
Qed.


(** ** Continuity of the candles of a pool *)

Lemma split_at_length {A : Type} (l : list A) (n1 n2 : nat) :
  length l = (n1 + S n2)%nat ->
  exists l1 x l2, l = l1 ++ x :: l2 /\ length l1 = n1 /\ length l2 = n2.
Proof.
  revert l. induction n1 as [|n1 IH]; intros [|a l] H; cbn [length Nat.add] in H;
    try discriminate.
  - exists [], a, l. repeat split. now injection H.
  - injection H as H. destruct (IH l H) as (l1 & x & l2 & -> & H1 & H2).
    exists (a :: l1), x, l2. cbn [length]. auto.
Qed.

Example second_flush_opens_at_first_close :
  snd (Ohlcv.flushes ∅
         [ map Ohlcv.upsertOHLCV1m
             [Sample.tick 1 "T0" 10; Sample.tick 1 "T0" 12; Sample.tick 1 "T0" 9];
           map Ohlcv.upsertOHLCV1m [Sample.tick 1 "T1" 20] ])
  = [ [ {| Candle.pool_id := VInt 1; Candle.bucket_start := VStr "T0";
           Candle.open := VInt 10; Candle.high := VInt 12; Candle.low := VInt 9;
           Candle.close := VInt 9; Candle.volume_zig := VInt 0;
           Candle.trade_count := VInt 3; Candle.liquidity_zig := VNull |} ];
      [ {| Candle.pool_id := VInt 1; Candle.bucket_start := VStr "T1";
           Candle.open := VInt 9; Candle.high := VInt 20; Candle.low := VInt 20;
           Candle.close := VInt 20; Candle.volume_zig := VInt 0;
           Candle.trade_count := VInt 1; Candle.liquidity_zig := VNull |} ] ].
Proof. vm_compute. reflexivity. Qed.

(** C1, as the code has it: let B1 and B2 be rows of one pool met by the
    continuity loop, in the same flush or in successive ones, B1 being the
    last row of the pool met before B2.  If B1's bucket start is strictly
    earlier than B2's, the row persisted for B2 is B2 with its open replaced
    by B1's close; its high and low stay the greatest and the least price of
    B2's own inputs.  After the flush of three trades at 10, 12 and 9 in
    bucket T0, the flush of one trade at 20 in bucket T1 persists open 9,
    high 20, low 20, close 20. *)
Theorem continuity_chains_consecutive_rows :
  (forall (c0 : gmap string Ohlcv.LastClose) (batches : list (list Candle.CandleInput))
          (L1 L2 L3 : list Candle.Row) (B1 B2 : Candle.Row),
      Spec.processed batches = L1 ++ B1 :: L2 ++ B2 :: L3 ->
      Ohlcv.pool_key B1 = Ohlcv.pool_key B2 ->
      (forall r, In r L2 -> Ohlcv.pool_key r <> Ohlcv.pool_key B2) ->
      str_lt (Ohlcv.bucket_ts B1) (Ohlcv.bucket_ts B2) = true ->
      let persisted := Candle.set_open B2 (Candle.close B1) in
      (exists O1 B1' O2 O3,
          concat (snd (Ohlcv.flushes c0 batches)) = O1 ++ B1' :: O2 ++ persisted :: O3
          /\ length O1 = length L1 /\ length O2 = length L2 /\ length O3 = length L3)
      /\ Candle.open persisted = Candle.close B1
      /\ forall b,
           In b batches -> In B2 (Ohlcv.aggregateBatch b) ->
           (forall it, In it b -> Spec.plain_pool_id it) ->
           Spec.extremes_of persisted (Spec.members (Spec.row_group B2) b))
  /\ exists first second,
       snd (Ohlcv.flushes ∅
              [ map Ohlcv.upsertOHLCV1m
                  [Sample.tick 1 "T0" 10; Sample.tick 1 "T0" 12; Sample.tick 1 "T0" 9];
                map Ohlcv.upsertOHLCV1m [Sample.tick 1 "T1" 20] ])
       = [[first]; [second]]
       /\ Candle.close first = VInt 9
       /\ Candle.open second = VInt 9 /\ Candle.high second = VInt 20
       /\ Candle.low second = VInt 20 /\ Candle.close second = VInt 20.
Proof.
  split.
  - intros c0 batches L1 L2 L3 B1 B2 Hproc Hpool Hbetween Hlt persisted.
    split; [| split; [reflexivity |]].
    + destruct (flushes_spec batches c0) as [_ ->]. rewrite Hproc.
      replace (L1 ++ B1 :: L2 ++ B2 :: L3) with ((L1 ++ B1 :: L2) ++ B2 :: L3)
        by (now rewrite <- app_assoc).
      destruct (continuity_at (L1 ++ B1 :: L2) L3 B2 c0) as (o1 & O3 & -> & Ho1 & Ho3).
      assert (Hseen : Spec.seen c0 (L1 ++ B1 :: L2) (Ohlcv.pool_key B2)
                      = Some (Spec.entry_of B1)).
      { rewrite seen_app. unfold Spec.pool_rows. cbn [List.filter].
        rewrite Hpool, String.eqb_refl, filter_none_nil; [reflexivity |].
        intros r Hr. now apply String.eqb_neq, Hbetween. }
      rewrite Hseen. unfold Spec.chained. cbn [Spec.entry_of Ohlcv.lc_bucket_start
        Ohlcv.lc_close]. rewrite Hlt. fold persisted.
      rewrite length_app in Ho1. cbn [length] in Ho1.
      destruct (split_at_length o1 (length L1) (length L2) Ho1)
        as (O1 & B1' & O2 & -> & H1 & H2).
      exists O1, B1', O2, O3. rewrite <- app_assoc. cbn [app]. auto.
    + intros b Hb HB2 Hplain.
      destruct (aggregated_row_summarises b B2 Hplain HB2)
        as (first & rest & -> & _ & _ & _ & _ & _ & _ & Hext).
      exact Hext.
  - do 2 eexists. split; [exact second_flush_opens_at_first_close |].
    cbn [Candle.open Candle.high Candle.low Candle.close]. tauto.
Qed.

Lemma continuity_chains_consecutive_rows_witness :
  exists O1 B1' O2 O3,
    concat (snd (Ohlcv.flushes ∅ [[Sample.tick 1 "T0" 9]; [Sample.tick 1 "T1" 20]]))
    = O1 ++ B1' :: O2
      ++ Candle.set_open
           {| Candle.pool_id := VInt 1; Candle.bucket_start := VStr "T1";
              Candle.open := VInt 20; Candle.high := VInt 20; Candle.low := VInt 20;
              Candle.close := VInt 20; Candle.volume_zig := VInt 0;
              Candle.trade_count := VInt 1; Candle.liquidity_zig := VNull |}
           (VInt 9) :: O3
    /\ length O1 = 0%nat /\ length O2 = 0%nat /\ length O3 = 0%nat.
Proof.
  apply (proj1 continuity_chains_consecutive_rows ∅
           [[Sample.tick 1 "T0" 9]; [Sample.tick 1 "T1" 20]] [] [] []
           {| Candle.pool_id := VInt 1; Candle.bucket_start := VStr "T0";
              Candle.open := VInt 9; Candle.high := VInt 9; Candle.low := VInt 9;
              Candle.close := VInt 9; Candle.volume_zig := VInt 0;
              Candle.trade_count := VInt 1; Candle.liquidity_zig := VNull |}).
  - reflexivity.
  - reflexivity.
  - intros r [].
  - reflexivity.
Defined.

(** C1 as stated fails: of three buckets of one pool flushed together, the
    third opens at the close of the second, not at the close of the first,
    although the first was met before it and is strictly earlier. *)
Lemma third_bucket_opens_at_second_close :
  map (fun r => (Candle.bucket_start r, Candle.open r, Candle.close r))
      (snd (Ohlcv.flush_rows ∅
              [Sample.tick 1 "T0" 10; Sample.tick 1 "T1" 20; Sample.tick 1 "T2" 30]))
  = [ (VStr "T0", VInt 10, VInt 10); (VStr "T1", VInt 10, VInt 20);
      (VStr "T2", VInt 20, VInt 30) ]
  /\ VInt 20 <> VInt 10.
Proof. split; [vm_compute; reflexivity | discriminate]. Qed.


(** ** More on the order of Numbers *)

Lemma le_total (a b : value) :
  Spec.is_number a -> Spec.is_number b -> le a b = true \/ le b a = true.
Proof.
  intros Ha Hb. destruct (lt b a) eqn:E.
  - right. now apply lt_le.
  - left. now apply not_lt_le.
Qed.

Lemma comes_after_Fin (d e : Z) : JSArray.comes_after (Fin d e) = (0 <? d).
Proof.
  unfold JSArray.comes_after. cbn [num_compare].
  rewrite (Fin_compare_at d e 0 0 (Z.min e 0)) by lia.
  unfold align. rewrite Z.mul_0_l.
  assert (Hp : 0 < 10 ^ (e - Z.min e 0)) by (apply Z.pow_pos_nonneg; lia).
  destruct (Z.compare_spec (d * 10 ^ (e - Z.min e 0)) 0), (Z.ltb_spec 0 d);
    try reflexivity; nia.
Qed.

(** [x - y] is positive exactly when [x <= y] fails. *)
Lemma sub_comes_after (x y : number) :
  x <> NaN -> y <> NaN ->
  JSArray.comes_after (num_sub x y) = negb (le (VNum x) (VNum y)).
Proof.
  intros Hx Hy. destruct x as [| | |m1 e1], y as [| | |m2 e2]; try congruence;
    try reflexivity.
  unfold num_sub. cbn [num_neg num_add]. rewrite comes_after_Fin.
  destruct (le (VNum (Fin m1 e1)) (VNum (Fin m2 e2))) eqn:E.
  - apply (le_Fin _ _ _ _ (Z.min e1 e2)) in E; [| lia | lia].
    apply Z.ltb_ge. unfold align in *. lia.
  - apply Z.ltb_lt.
    destruct (Z.le_gt_cases (align m1 e1 (Z.min e1 e2)) (align m2 e2 (Z.min e1 e2)))
      as [Hle | Hgt].
    + apply (le_Fin _ _ _ _ (Z.min e1 e2)) in Hle; [congruence | lia | lia].
    + unfold align in *. lia.
Qed.

Lemma num_equal_le (x y : number) :
  x <> NaN -> y <> NaN ->
  num_equal x y = le (VNum x) (VNum y) && le (VNum y) (VNum x).
Proof.
  intros Hx Hy. destruct x as [| | |m1 e1], y as [| | |m2 e2]; try congruence;
    try reflexivity.
  unfold num_equal, le, lessThan, num_lessThan. cbn [ToNumber num_compare].
  unfold Fin_compare. rewrite (Z.min_comm e2 e1).
  rewrite (Z.compare_antisym (align m1 e1 _) (align m2 e2 _)).
  destruct (align m1 e1 (Z.min e1 e2) ?= align m2 e2 (Z.min e1 e2)); reflexivity.
Qed.

(* ================================================================== *)
(** * Part III: further properties of the code *)
(* ================================================================== *)

(** ** More on strings *)

Lemma str_app_assoc (a b c : string) : (a +:+ b) +:+ c = a +:+ b +:+ c.
Proof.
  induction a as [|x a IH]; [reflexivity |].
  rewrite !append_cons. now rewrite IH.
Qed.

Lemma str_app_nil_r (a : string) : a +:+ "" = a.
Proof.
  induction a as [|x a IH]; [reflexivity |]. rewrite append_cons. now rewrite IH.
Qed.

Lemma str_drop_app_length (a b : string) : str_drop (String.length a) (a +:+ b) = b.
Proof.
  induction a as [|x a IH]; [now destruct b |].
  rewrite append_cons. cbn [String.length str_drop]. exact IH.
Qed.

Lemma str_take_app_length (a b : string) : str_take (String.length a) (a +:+ b) = a.
Proof.
  induction a as [|x a IH]; [now destruct b |].
  rewrite append_cons. cbn [String.length str_take]. now rewrite IH.
Qed.

Lemma str_drop_app_le (n : nat) (a b : string) :
  (n <= String.length a)%nat -> str_drop n (a +:+ b) = str_drop n a +:+ b.
Proof.
  revert a. induction n as [|n IH]; intros a H.
  - now destruct a.
  - destruct a as [|x a]; cbn [String.length] in H; [lia |].
    rewrite append_cons. cbn [str_drop]. apply IH. lia.
Qed.

Lemma str_take_all (n : nat) (s : string) :
  (String.length s <= n)%nat -> str_take n s = s.
Proof.
  revert s. induction n as [|n IH]; intros [|c s] H; try reflexivity.
  - cbn [String.length] in H. lia.
  - cbn [str_take]. rewrite IH; [reflexivity |]. cbn [String.length] in H. lia.
Qed.

Lemma str_rev_app_spec (s t : string) : String.rev_app s t = String.rev s +:+ t.
Proof.
  unfold String.rev. revert t. induction s as [|c s IH]; intros t; [reflexivity |].
  cbn [String.rev_app]. rewrite (IH (String c t)), (IH (String c "")).
  now rewrite str_app_assoc.
Qed.

Lemma str_rev_cons (c : ascii) (s : string) :
  String.rev (String c s) = String.rev s +:+ String c "".
Proof. unfold String.rev at 1. cbn [String.rev_app]. apply str_rev_app_spec. Qed.

Lemma str_rev_app_distr (a b : string) :
  String.rev (a +:+ b) = String.rev b +:+ String.rev a.
Proof.
  induction a as [|c a IH]; [now rewrite append_nil, str_app_nil_r |].
  rewrite append_cons, !str_rev_cons, IH. apply str_app_assoc.
Qed.

Lemma str_rev_involutive (s : string) : String.rev (String.rev s) = s.
Proof.
  induction s as [|c s IH]; [reflexivity |].
  rewrite str_rev_cons, str_rev_app_distr, IH. reflexivity.
Qed.

Lemma str_rev_empty (s : string) : String.rev s = "" -> s = "".
Proof. intros H. rewrite <- (str_rev_involutive s), H. reflexivity. Qed.

(** ** Numerals *)

Lemma is_digit_cases (c : ascii) :
  is_digit c = true ->
  c = "0"%char \/ c = "1"%char \/ c = "2"%char \/ c = "3"%char \/ c = "4"%char
  \/ c = "5"%char \/ c = "6"%char \/ c = "7"%char \/ c = "8"%char \/ c = "9"%char.
Proof.
  unfold is_digit. intros H. apply andb_true_iff in H as [H1 H2].
  apply Nat.leb_le in H1, H2.
  rewrite <- (ascii_nat_embedding c).
  assert (E : (nat_of_ascii c = 48 \/ nat_of_ascii c = 49 \/ nat_of_ascii c = 50
               \/ nat_of_ascii c = 51 \/ nat_of_ascii c = 52 \/ nat_of_ascii c = 53
               \/ nat_of_ascii c = 54 \/ nat_of_ascii c = 55 \/ nat_of_ascii c = 56
               \/ nat_of_ascii c = 57)%nat) by lia.
  repeat (destruct E as [-> | E]; [tauto |]). rewrite E. tauto.
Qed.

Lemma digit_not_ws (c : ascii) : is_digit c = true -> is_ws c = false.
Proof.
  intros H.
  destruct (is_digit_cases c H) as [-> | [-> | [-> | [-> | [-> | [-> | [-> | [-> | [-> | ->]]]]]]]]];
    reflexivity.
Qed.

Lemma digit_of_digit (c : ascii) :
  is_digit c = true ->
  digit_of 10 c = Some (Z.of_nat (nat_of_ascii c) - 48)
  /\ 0 <= Z.of_nat (nat_of_ascii c) - 48 <= 9.
Proof.
  intros H.
  destruct (is_digit_cases c H) as [-> | [-> | [-> | [-> | [-> | [-> | [-> | [-> | [-> | ->]]]]]]]]];
    (split; [reflexivity | vm_compute; split; intros H'; discriminate H']).
Qed.

Lemma digits_value_acc (u : Decimal.uint) (acc : positive) :
  digits_value 10 (Z.pos acc) (NilEmpty.string_of_uint u)
  = Some (Z.pos (Pos.of_uint_acc u acc)).
Proof.
  revert acc. induction u as [|u IH|u IH|u IH|u IH|u IH|u IH|u IH|u IH|u IH|u IH];
    intros acc; [reflexivity | ..];
    cbn [NilEmpty.string_of_uint digits_value Pos.of_uint_acc];
    match goal with
    | |- context [digit_of 10 ?c] =>
        let d := eval vm_compute in (digit_of 10 c) in
        change (digit_of 10 c) with d
    end;
    rewrite <- IH; f_equal; rewrite ?Pos2Z.inj_add, ?Pos2Z.inj_mul; lia.
Qed.

Lemma digits_value_uint (u : Decimal.uint) :
  digits_value 10 0 (NilEmpty.string_of_uint u) = Some (Z.of_N (N.of_uint u)).
Proof.
  induction u as [|u IH|u IH|u IH|u IH|u IH|u IH|u IH|u IH|u IH|u IH];
    [reflexivity | exact IH | ..];
    cbn [NilEmpty.string_of_uint digits_value];
    match goal with
    | |- context [digit_of 10 ?c] =>
        let d := eval vm_compute in (digit_of 10 c) in
        change (digit_of 10 c) with d
    end;
    cbv beta iota; rewrite Z.mul_0_r, Z.add_0_l; apply digits_value_acc.
Qed.

(** The digits of a natural number read back as that number. *)
Lemma digits_value_digits (z : Z) : 0 <= z -> digits_value 10 0 (digits z) = Some z.
Proof.
  intros Hz. unfold digits, NilZero.string_of_uint.
  pose proof (DecimalN.Unsigned.of_to (Z.to_N z)) as Hrt.
  destruct (N.to_uint (Z.to_N z)) as [|u|u|u|u|u|u|u|u|u|u] eqn:E;
    try (rewrite digits_value_uint, Hrt; f_equal; lia).
  change (N.of_uint Decimal.Nil) with 0%N in Hrt.
  assert (Ez : z = 0) by lia. subst z. reflexivity.
Qed.

Lemma digits_nonempty (z : Z) : digits z <> "".
Proof.
  unfold digits, NilZero.string_of_uint.
  destruct (N.to_uint (Z.to_N z)); discriminate.
Qed.

Lemma digits_numeral (z : Z) : Notions.numeral (digits z).
Proof. split; [apply digits_nonempty | apply digits_all_digits]. Qed.

Lemma zeros_value (s : string) :
  all_chars (is_char "0") s = true -> digits_value 10 0 s = Some 0.
Proof.
  induction s as [|c s IH]; [reflexivity |]. cbn [all_chars].
  intros H. apply andb_true_iff in H as [Hc Hs].
  unfold is_char in Hc. destruct (ascii_dec "0" c) as [<- | _]; [| discriminate].
  cbn [digits_value]. change (digit_of 10 "0") with (Some 0). now apply IH.
Qed.

(** The numeral of a positive integer has a digit other than zero. *)
Lemma digits_not_zeros (z : Z) : 0 < z -> all_chars (is_char "0") (digits z) = false.
Proof.
  intros Hz. destruct (all_chars (is_char "0") (digits z)) eqn:E; [| reflexivity].
  apply zeros_value in E. rewrite digits_value_digits in E by lia.
  injection E as E. lia.
Qed.

Lemma drop_zeros_empty (s : string) :
  drop_zeros s = "" -> all_chars (is_char "0") s = true.
Proof.
  induction s as [|c s IH]; [reflexivity |]. cbn [drop_zeros all_chars].
  destruct (ascii_dec c "0") as [-> | Hne].
  - intros H. now rewrite IH.
  - intros H. exfalso.
    destruct c as [[] [] [] [] [] [] [] []]; try discriminate H. congruence.
Qed.

Lemma strip_trailing_zeros_nonempty (z : Z) :
  0 < z -> strip_trailing_zeros (digits z) <> "".
Proof.
  intros Hz H. unfold strip_trailing_zeros in H.
  apply str_rev_empty, drop_zeros_empty in H. rewrite all_chars_rev in H.
  rewrite digits_not_zeros in H by assumption. discriminate.
Qed.

Lemma strip_trailing_zeros_digits (z : Z) :
  all_chars is_digit (strip_trailing_zeros (digits z)) = true.
Proof.
  unfold strip_trailing_zeros. rewrite all_chars_rev.
  apply all_chars_drop_zeros. rewrite all_chars_rev. apply digits_all_digits.
Qed.

Lemma trim_start_fixed (s : string) :
  match s with String c _ => is_ws c = false | EmptyString => True end ->
  trim_start s = s.
Proof. destruct s as [|c s]; [reflexivity |]. cbn [trim_start]. now intros ->. Qed.

(** A string that neither starts nor ends with white space is its own
    trimming. *)
Lemma trim_fixed (s : string) :
  match s with String c _ => is_ws c = false | EmptyString => True end ->
  match String.rev s with String c _ => is_ws c = false | EmptyString => True end ->
  trim s = s.
Proof.
  intros H1 H2. unfold trim. rewrite (trim_start_fixed s H1).
  rewrite (trim_start_fixed _ H2). apply str_rev_involutive.
Qed.

Lemma all_chars_head (p : ascii -> bool) (s : string) :
  all_chars p s = true ->
  match s with String c _ => p c = true | EmptyString => True end.
Proof.
  destruct s as [|c s]; [trivial |]. cbn [all_chars].
  intros H. now apply andb_true_iff in H.
Qed.

Lemma trim_numeral (s : string) : all_chars is_digit s = true -> trim s = s.
Proof.
  intros H. apply trim_fixed.
  - pose proof (all_chars_head _ _ H) as Hh. destruct s; [trivial |].
    now apply digit_not_ws.
  - rewrite <- all_chars_rev in H.
    pose proof (all_chars_head _ _ H) as Hh. destruct (String.rev s); [trivial |].
    now apply digit_not_ws.
Qed.

Lemma split_at_none (p : ascii -> bool) (s : string) :
  all_chars (fun c => negb (p c)) s = true -> split_at p s = (s, None).
Proof.
  induction s as [|c s IH]; [reflexivity |]. cbn [all_chars split_at].
  intros H. apply andb_true_iff in H as [Hc Hs].
  apply negb_true_iff in Hc. rewrite Hc, (IH Hs). reflexivity.
Qed.

Lemma digit_not_char (x c : ascii) :
  is_digit x = false -> is_digit c = true -> is_char x c = false.
Proof.
  intros Hx Hc. unfold is_char. destruct (ascii_dec x c) as [-> | _]; [congruence | reflexivity].
Qed.

(** [Number(s)] for a numeral [s] is the integer it writes. *)
Lemma StringToNumber_numeral (s : string) :
  Notions.numeral s ->
  exists n, digits_value 10 0 s = Some n /\ StringToNumber s = Fin n 0.
Proof.
  intros [Hne Hd].
  assert (Hv : exists n, digits_value 10 0 s = Some n).
  { clear Hne. generalize 0 as acc. induction s as [|c s IH]; intros acc; [now eexists |].
    cbn [all_chars] in Hd. apply andb_true_iff in Hd as [Hc Hs].
    cbn [digits_value]. destruct (digit_of_digit c Hc) as [-> _]. now apply IH. }
  destruct Hv as [n Hn]. exists n. split; [exact Hn |].
  unfold StringToNumber. rewrite (trim_numeral s Hd).
  assert (Hdec : parse_signed_decimal false s = Fin n 0).
  { unfold parse_signed_decimal.
    assert (String.eqb s "Infinity" = false) as ->.
    { apply String.eqb_neq. intros ->. discriminate Hd. }
    unfold parse_unsigned_decimal.
    rewrite (split_at_none _ s).
    2:{ apply (all_chars_weaken is_digit); [| exact Hd].
        intros c Hc. rewrite (digit_not_char "e" c), (digit_not_char "E" c) by easy.
        reflexivity. }
    rewrite (split_at_none _ s).
    2:{ apply (all_chars_weaken is_digit); [| exact Hd].
        intros c Hc. now rewrite (digit_not_char "." c). }
    rewrite str_app_nil_r, Hn.
    destruct s; [congruence | reflexivity]. }
  destruct s as [|c s]; [congruence |].
  cbn [all_chars] in Hd. apply andb_true_iff in Hd as [Hc Hs].
  destruct (is_digit_cases c Hc) as [-> | [-> | [-> | [-> | [-> | [-> | [-> | [-> | [-> | ->]]]]]]]]];
    try exact Hdec.
  destruct s as [|d s]; [exact Hdec |].
  cbn [all_chars] in Hs. apply andb_true_iff in Hs as [Hc' Hs].
  destruct (is_digit_cases d Hc') as [-> | [-> | [-> | [-> | [-> | [-> | [-> | [-> | [-> | ->]]]]]]]]];
    exact Hdec.
Qed.

(** The text of a natural number reads back as that number. *)
Lemma StringToNumber_digits (z : Z) : 0 <= z -> StringToNumber (digits z) = Fin z 0.
Proof.
  intros Hz. destruct (StringToNumber_numeral (digits z) (digits_numeral z)) as (n & Hn & ->).
  rewrite digits_value_digits in Hn by assumption. now injection Hn as <-.
Qed.

(** No Number has an empty text, and the text of a finite one starts with
    a digit or with a minus sign. *)
Lemma NumberToString_head (m e : Z) :
  exists c rest,
    NumberToString (Fin m e) = String c rest
    /\ (is_digit c = true \/ c = "-"%char).
Proof.
  unfold NumberToString. destruct (m =? 0) eqn:E0; [do 2 eexists; split; [reflexivity | now left] |].
  apply Z.eqb_neq in E0.
  destruct (m <? 0) eqn:En.
  { do 2 eexists. rewrite append_cons. split; [reflexivity | now right]. }
  apply Z.ltb_ge in En. rewrite append_nil.
  assert (Hpos : 0 < Z.abs m) by lia.
  set (s := strip_trailing_zeros (digits (Z.abs m))).
  pose proof (strip_trailing_zeros_nonempty _ Hpos) as Hne. fold s in Hne.
  pose proof (strip_trailing_zeros_digits (Z.abs m)) as Hd. fold s in Hd.
  destruct s as [|c s']; [congruence |].
  cbn [all_chars] in Hd. apply andb_true_iff in Hd as [Hc _].
  set (k := Z.of_nat (String.length (String c s'))).
  set (n := Z.of_nat (String.length (digits (Z.abs m))) + e).
  destruct ((k <=? n) && (n <=? 21)).
  { rewrite append_cons. eauto. }
  destruct ((0 <? n) && (n <=? 21)) eqn:E2.
  { apply andb_true_iff in E2 as [E2 _]. apply Z.ltb_lt in E2.
    destruct (Z.to_nat n) as [|n'] eqn:En'; [lia |].
    cbn [str_take]. rewrite append_cons. eauto. }
  destruct ((-6 <? n) && (n <=? 0)).
  { rewrite append_cons. do 2 eexists. split; [reflexivity | now left]. }
  destruct (k =? 1).
  { rewrite append_cons. eauto. }
  cbn [str_take]. rewrite append_cons. eauto.
Qed.

Lemma NumberToString_nonempty (n : number) : NumberToString n <> "".
Proof.
  destruct n as [| | |m e]; try discriminate.
  destruct (NumberToString_head m e) as (c & rest & -> & _). discriminate.
Qed.

(** The text of a truthy value is not empty. *)
Lemma ToString_truthy (v : value) : ToBoolean v = true -> ToString v <> "".
Proof.
  destruct v as [| |[]|n|s]; cbn [ToBoolean ToString]; try discriminate.
  - intros _. apply NumberToString_nonempty.
  - intros H. apply negb_true_iff, String.eqb_neq in H. exact H.
Qed.

(** ** The placeholders of a statement *)

Lemma is_char_eq (x c : ascii) : is_char x c = true -> c = x.
Proof. unfold is_char. destruct (ascii_dec x c); [auto | discriminate]. Qed.

Lemma starts_with_digit_leading (s : string) :
  Notions.starts_with_digit s = negb (String.eqb (Db.leading_digits s) "").
Proof.
  destruct s as [|c s]; [reflexivity |]. cbn [Notions.starts_with_digit Db.leading_digits].
  destruct (is_digit c); reflexivity.
Qed.

Lemma leading_digits_none (s : string) :
  Notions.starts_with_digit s = false -> Db.leading_digits s = "".
Proof.
  rewrite starts_with_digit_leading. intros H.
  apply negb_false_iff, String.eqb_eq in H. exact H.
Qed.

Lemma leading_digits_digits (s : string) :
  all_chars is_digit (Db.leading_digits s) = true.
Proof.
  induction s as [|c s IH]; [reflexivity |]. cbn [Db.leading_digits].
  destruct (is_digit c) eqn:E; [| reflexivity]. cbn [all_chars]. now rewrite E.
Qed.

Lemma leading_digits_split (s : string) :
  s = Db.leading_digits s +:+ str_drop (String.length (Db.leading_digits s)) s
  /\ Notions.starts_with_digit (str_drop (String.length (Db.leading_digits s)) s) = false.
Proof.
  induction s as [|c s [IH1 IH2]]; [split; reflexivity |].
  cbn [Db.leading_digits]. destruct (is_digit c) eqn:E.
  - cbn [String.length str_drop]. rewrite append_cons. split; [now rewrite <- IH1 | exact IH2].
  - cbn [String.length str_drop]. split; [reflexivity |].
    cbn [Notions.starts_with_digit]. exact E.
Qed.

Lemma leading_digits_app (ds b : string) :
  all_chars is_digit ds = true ->
  Notions.starts_with_digit b = false ->
  Db.leading_digits (ds +:+ b) = ds.
Proof.
  intros Hd Hb. induction ds as [|c ds IH].
  - rewrite append_nil. now apply leading_digits_none.
  - cbn [all_chars] in Hd. apply andb_true_iff in Hd as [Hc Hd].
    rewrite append_cons. cbn [Db.leading_digits]. rewrite Hc. now rewrite IH.
Qed.

(** The digits before a character that is no digit. *)
Lemma leading_digits_before (a : string) (c : ascii) (x : string) :
  is_digit c = false ->
  Db.leading_digits (a +:+ String c x) = Db.leading_digits a.
Proof.
  intros Hc. induction a as [|d a IH].
  - rewrite append_nil. cbn [Db.leading_digits]. now rewrite Hc.
  - rewrite append_cons. cbn [Db.leading_digits]. destruct (is_digit d); [| reflexivity].
    now rewrite IH.
Qed.

Lemma leading_digits_length (a : string) :
  (String.length (Db.leading_digits a) <= String.length a)%nat.
Proof.
  induction a as [|d a IH]; [reflexivity |]. cbn [Db.leading_digits].
  destruct (is_digit d); cbn [String.length]; lia.
Qed.

(** Passing over the digits of a match. *)
Lemma replace_placeholders_skip (params : list value) (ds b : string)
    (qp : Db.query_params) :
  Db.replace_placeholders params (String.length ds) (ds +:+ b) qp
  = Db.replace_placeholders params 0 b qp.
Proof.
  induction ds as [|c ds IH]; [reflexivity |].
  rewrite append_cons. cbn [String.length Db.replace_placeholders]. exact IH.
Qed.

Lemma no_dollar_head (a b : string) :
  all_chars (fun c => negb (is_char "$" c)) a = true ->
  Notions.has_placeholder (a +:+ b) = Notions.has_placeholder b.
Proof.
  induction a as [|c a IH]; [reflexivity |]. cbn [all_chars].
  intros H. apply andb_true_iff in H as [Hc Ha]. apply negb_true_iff in Hc.
  rewrite append_cons. cbn [Notions.has_placeholder]. rewrite Hc. cbn [andb orb].
  now apply IH.
Qed.

Lemma digit_not_dollar (c : ascii) : is_digit c = true -> negb (is_char "$" c) = true.
Proof.
  unfold is_char. destruct (ascii_dec "$" c) as [<- | _]; [discriminate | reflexivity].
Qed.

Lemma on_match_text (params : list value) (numStr : string) (qp : Db.query_params) :
  fst (Db.on_match params numStr qp) = "{p" +:+ numStr +:+ ":String}".
Proof. reflexivity. Qed.

(** What is left of a statement by the replacement holds no placeholder. *)
Lemma replace_placeholders_clean (params : list value) (s : string) :
  forall (skip : nat) (qp : Db.query_params),
    Notions.has_placeholder (fst (Db.replace_placeholders params skip s qp)) = false
    /\ (Notions.starts_with_digit (str_drop skip s) = false ->
        Notions.starts_with_digit (fst (Db.replace_placeholders params skip s qp)) = false).
Proof.
  induction s as [|c s IH]; intros skip qp.
  - split; [reflexivity |]. now destruct skip.
  - destruct skip as [|k]; [| exact (IH k qp)].
    cbn [Db.replace_placeholders str_drop].
    destruct (is_char "$" c && negb (String.eqb (Db.leading_digits s) "")) eqn:E.
    + destruct (Db.on_match params (Db.leading_digits s) qp) as [named qp1] eqn:Eon.
      assert (Hn : named = "{p" +:+ Db.leading_digits s +:+ ":String}").
      { now rewrite <- (on_match_text params _ qp), Eon. }
      destruct (IH (String.length (Db.leading_digits s)) qp1) as [IH1 _].
      destruct (Db.replace_placeholders params _ s qp1) as [t qp2]. cbn [fst] in *.
      subst named. split; [| reflexivity].
      rewrite <- !str_app_assoc, no_dollar_head; [exact IH1 |].
      rewrite !all_chars_app.
      rewrite (all_chars_weaken is_digit _ _ digit_not_dollar (leading_digits_digits s)).
      reflexivity.
    + destruct (IH 0%nat qp) as [IH1 IH2].
      destruct (Db.replace_placeholders params 0 s qp) as [t qp2]. cbn [fst str_drop] in *.
      cbn [Notions.has_placeholder Notions.starts_with_digit]. split; [| auto].
      rewrite IH1, orb_false_r.
      destruct (is_char "$" c); [| reflexivity]. cbn [andb] in *.
      apply IH2. now rewrite starts_with_digit_leading, E.
Qed.

(** A text without placeholder is left as it is. *)
Lemma replace_placeholders_none (params : list value) (s : string) (qp : Db.query_params) :
  Notions.has_placeholder s = false ->
  Db.replace_placeholders params 0 s qp = (s, qp).
Proof.
  induction s as [|c s IH]; [reflexivity |]. cbn [Notions.has_placeholder].
  intros H. apply orb_false_iff in H as [H1 H2].
  cbn [Db.replace_placeholders]. rewrite <- starts_with_digit_leading, H1.
  now rewrite (IH H2).
Qed.

(** X1 (lib/db.js, [prepareQuery]): when there is at least one argument the
    text returned holds no placeholder any more, that is, no dollar sign
    followed by a digit; preparing that text again changes nothing. *)
Theorem prepareQuery_leaves_no_placeholder :
  forall (sql : string) (params params' : list value),
    params <> [] ->
    Notions.has_placeholder (Db.text (Db.prepareQuery sql params)) = false
    /\ Db.text (Db.prepareQuery (Db.text (Db.prepareQuery sql params)) params')
       = Db.text (Db.prepareQuery sql params).
Proof.
  intros sql params params' Hne.
  assert (Hclean : Notions.has_placeholder (Db.text (Db.prepareQuery sql params)) = false).
  { unfold Db.prepareQuery. destruct params as [|p ps]; [congruence |].
    pose proof (replace_placeholders_clean (p :: ps) sql 0 ∅) as [H _].
    destruct (Db.replace_placeholders (p :: ps) 0 sql ∅) as [t qp]. exact H. }
  split; [exact Hclean |].
  set (t := Db.text (Db.prepareQuery sql params)) in *.
  unfold Db.prepareQuery at 1. destruct params' as [|p' ps']; [reflexivity |].
  now rewrite (replace_placeholders_none _ t ∅ Hclean).
Qed.

Lemma prepareQuery_leaves_no_placeholder_witness :
  Notions.has_placeholder
    (Db.text (Db.prepareQuery "SELECT pool_id FROM pools WHERE pair_contract = $1 LIMIT 1"
                              [VStr "zig1abc"])) = false.
Proof.
  apply (prepareQuery_leaves_no_placeholder _ [VStr "zig1abc"] []). discriminate.
Defined.

(** ** The parameters bound by a statement *)

Lemma occurs_cons (ds : string) (c : ascii) (s : string) :
  Notions.occurs ds s -> Notions.occurs ds (String c s).
Proof.
  intros (Hn & a & b & -> & Hb). split; [exact Hn |].
  exists (String c a), b. now rewrite append_cons.
Qed.

Lemma occurs_drop (ds : string) (n : nat) (s : string) :
  Notions.occurs ds (str_drop n s) -> Notions.occurs ds s.
Proof.
  intros (Hn & a & b & E & Hb). split; [exact Hn |].
  exists (str_take n s +:+ a), b. split; [| exact Hb].
  rewrite str_app_assoc, <- E. symmetry. apply take_drop.
Qed.

Lemma occurs_here (s : string) :
  Db.leading_digits s <> "" -> Notions.occurs (Db.leading_digits s) (String "$" s).
Proof.
  intros Hne. split; [split; [exact Hne | apply leading_digits_digits] |].
  destruct (leading_digits_split s) as [E Hb].
  exists "", (str_drop (String.length (Db.leading_digits s)) s).
  split; [| exact Hb]. rewrite append_nil, append_cons, append_nil. now rewrite <- E.
Qed.

(** A placeholder of a text is at its start or further on. *)
Lemma occurs_inv (ds : string) (c : ascii) (s : string) :
  Notions.occurs ds (String c s) ->
  (c = "$"%char /\ Db.leading_digits s = ds)
  \/ Notions.occurs ds (str_drop (String.length (Db.leading_digits s)) s).
Proof.
  intros ([Hne Hd] & a & b & E & Hb). destruct a as [|x a].
  - left. rewrite append_nil, append_cons, append_nil in E. injection E as -> ->.
    split; [reflexivity | now apply leading_digits_app].
  - right. rewrite append_cons in E. injection E as -> ->.
    split; [split; assumption |].
    rewrite append_cons, leading_digits_before by reflexivity.
    rewrite str_drop_app_le by apply leading_digits_length.
    exists (str_drop (String.length (Db.leading_digits a)) a), b.
    now rewrite append_cons.
Qed.

Lemma on_match_bound (params : list value) (ds : string) (qp : Db.query_params) :
  let qp1 := snd (Db.on_match params ds qp) in
  (forall key v, qp !! key = Some v -> qp1 !! key = Some v)
  /\ (forall key v, qp1 !! key = Some v ->
        qp !! key = Some v
        \/ (key = "p" +:+ ds /\ v = Db.stored (Notions.argument params ds)))
  /\ exists v, qp1 !! ("p" +:+ ds) = Some v
               /\ (qp !! ("p" +:+ ds) = None -> v = Db.stored (Notions.argument params ds)).
Proof.
  unfold Db.on_match. cbn [snd]. fold (Notions.argument params ds).
  destruct (qp !! ("p" +:+ ds)) as [v0|] eqn:E.
  - split; [auto |]. split; [auto |]. exists v0. split; [exact E | discriminate].
  - split; [| split].
    + intros key v Hk. rewrite lookup_insert_ne; [exact Hk |]. congruence.
    + intros key v Hk. destruct (decide (key = "p" +:+ ds)) as [-> | Hne].
      * rewrite lookup_insert_eq in Hk. injection Hk as <-. now right.
      * rewrite lookup_insert_ne in Hk by congruence. now left.
    + eexists. split; [apply lookup_insert_eq | reflexivity].
Qed.

(** The parameters bound while a text is rewritten: those bound before,
    and one for each placeholder of the text. *)
Lemma replace_placeholders_binds (params : list value) (s : string) :
  forall (skip : nat) (qp : Db.query_params),
    let qp' := snd (Db.replace_placeholders params skip s qp) in
    (forall key v, qp !! key = Some v -> qp' !! key = Some v)
    /\ (forall key v, qp' !! key = Some v ->
          qp !! key = Some v
          \/ exists ds, key = "p" +:+ ds /\ Notions.occurs ds (str_drop skip s)
                        /\ v = Db.stored (Notions.argument params ds))
    /\ (forall ds, Notions.occurs ds (str_drop skip s) ->
          exists v, qp' !! ("p" +:+ ds) = Some v
                    /\ (qp !! ("p" +:+ ds) = None ->
                        v = Db.stored (Notions.argument params ds))).
Proof.
  induction s as [|c s IH]; intros skip qp.
  - cbn [Db.replace_placeholders snd]. split; [auto |]. split; [auto |].
    intros ds (_ & a & b & E & _). exfalso.
    replace (str_drop skip "") with ""%string in E by now destruct skip.
    destruct a; rewrite ?append_nil, ?append_cons in E; discriminate.
  - destruct skip as [|k]; [| exact (IH k qp)].
    cbn [Db.replace_placeholders str_drop].
    destruct (is_char "$" c && negb (String.eqb (Db.leading_digits s) "")) eqn:E.
    + apply andb_true_iff in E as [Ec Ene]. apply is_char_eq in Ec. subst c.
      apply negb_true_iff, String.eqb_neq in Ene.
      pose proof (on_match_bound params (Db.leading_digits s) qp) as (M1 & M2 & M3).
      destruct (Db.on_match params (Db.leading_digits s) qp) as [named qp1].
      cbn [snd] in M1, M2, M3.
      pose proof (IH (String.length (Db.leading_digits s)) qp1) as (I1 & I2 & I3).
      destruct (Db.replace_placeholders params _ s qp1) as [t qp2].
      cbn [snd] in *. split; [| split].
      * auto.
      * intros key v Hk. destruct (I2 key v Hk) as [Hq | (ds & -> & Hocc & ->)].
        -- destruct (M2 key v Hq) as [? | [-> ->]]; [now left |].
           right. exists (Db.leading_digits s). repeat split; try assumption.
           ++ apply leading_digits_digits.
           ++ apply occurs_here, Ene.
        -- right. exists ds. split; [reflexivity |]. split; [| reflexivity].
           apply occurs_cons. eapply occurs_drop, Hocc.
      * intros ds Hocc. apply occurs_inv in Hocc as [[_ <-] | Hocc].
        -- destruct M3 as (v & Hv & Hval). exists v. split; [now apply I1 | exact Hval].
        -- destruct (I3 ds Hocc) as (v & Hv & Hval). exists v. split; [exact Hv |].
           intros Hnone. destruct (qp1 !! ("p" +:+ ds)) as [v1|] eqn:E1.
           ++ rewrite (I1 _ _ E1) in Hv. injection Hv as <-.
              destruct (M2 _ _ E1) as [? | [Hkey ->]]; [congruence |].
              apply (String.app_inj "p") in Hkey. now rewrite Hkey.
           ++ now apply Hval.
    + pose proof (IH 0%nat qp) as (I1 & I2 & I3).
      destruct (Db.replace_placeholders params 0 s qp) as [t qp2].
      cbn [snd str_drop] in *. split; [auto |]. split.
      * intros key v Hk. destruct (I2 key v Hk) as [? | (ds & -> & Hocc & ->)]; [now left |].
        right. exists ds. split; [reflexivity |]. split; [| reflexivity].
        now apply occurs_cons.
      * intros ds Hocc. pose proof Hocc as Hocc0.
        apply occurs_inv in Hocc as [[-> Hld] | Hocc].
        -- exfalso. destruct Hocc0 as ([Hne _] & _). rewrite <- Hld in Hne.
           apply String.eqb_neq in Hne. now rewrite Hne in E.
        -- apply I3. eapply occurs_drop, Hocc.
Qed.

Lemma sub_one (n : Z) : num_sub (Fin n 0) (of_Z 1) = Fin (n - 1) 0.
Proof.
  unfold num_sub, num_add, num_neg, of_Z, align. cbn [Z.min Z.sub Z.opp].
  f_equal. change (Z.min 0 0) with 0. change (0 - 0) with 0. change (10 ^ 0) with 1. lia.
Qed.

(** The argument named by the numeral of [k]: the one at position [k]
    counting from one, and [undefined] when there is none. *)
Lemma argument_digits (params : list value) (k : Z) :
  0 <= k ->
  Notions.argument params (digits k)
  = if k =? 0 then VUndefined else nth (Z.to_nat (k - 1)) params VUndefined.
Proof.
  intros Hk. unfold Notions.argument. cbn [ToNumber].
  rewrite StringToNumber_digits, sub_one by assumption.
  unfold Db.at_index, Db.integer_of. change (0 <=? 0) with true. cbv iota.
  change (10 ^ 0) with 1. rewrite Z.mul_1_r.
  destruct (k =? 0) eqn:E0.
  - apply Z.eqb_eq in E0. subst k. reflexivity.
  - apply Z.eqb_neq in E0. destruct (k - 1 <? 0) eqn:E1; [| reflexivity].
    apply Z.ltb_lt in E1. lia.
Qed.

(** X2 (lib/db.js, [prepareQuery]): when there is at least one argument,
    [query_params] holds exactly one entry per distinct placeholder of the
    statement: [p<digits>] for [$<digits>], bound to the argument the number
    names, as a string ([null] and [undefined] as null, a boolean as "1" or
    "0").  A placeholder numbered zero or beyond the last argument is bound
    to null, and an argument no placeholder names is not sent. *)
Theorem prepareQuery_binds_each_placeholder :
  forall (sql : string) (params : list value),
    params <> [] ->
    exists qp : Db.query_params,
      Db.query_params_of (Db.prepareQuery sql params) = Some qp
      /\ (forall numStr,
            Notions.occurs numStr sql ->
            qp !! ("p" +:+ numStr) = Some (Db.stored (Notions.argument params numStr)))
      /\ (forall key v,
            qp !! key = Some v ->
            exists numStr,
              key = "p" +:+ numStr /\ Notions.occurs numStr sql
              /\ v = Db.stored (Notions.argument params numStr))
      /\ (forall k,
            1 <= k <= Z.of_nat (length params) ->
            Notions.argument params (digits k) = nth (Z.to_nat (k - 1)) params VUndefined)
      /\ (forall k,
            k = 0 \/ Z.of_nat (length params) < k ->
            Db.stored (Notions.argument params (digits k)) = None).
Proof.
  intros sql params Hne.
  pose proof (replace_placeholders_binds params sql 0 ∅) as (_ & H2 & H3).
  unfold Db.prepareQuery. destruct params as [|p ps]; [congruence |].
  destruct (Db.replace_placeholders (p :: ps) 0 sql ∅) as [t qp].
  cbn [snd str_drop] in H2, H3. exists qp. split; [reflexivity |].
  split; [| split; [| split]].
  - intros numStr Hocc. destruct (H3 numStr Hocc) as (v & Hv & Hval).
    rewrite Hv, Hval; [reflexivity | apply lookup_empty].
  - intros key v Hk. destruct (H2 key v Hk) as [Hq | H]; [| exact H].
    rewrite lookup_empty in Hq. discriminate.
  - intros k Hk. rewrite argument_digits by lia.
    destruct (k =? 0) eqn:E; [apply Z.eqb_eq in E; lia | reflexivity].
  - intros k Hk. destruct Hk as [-> | Hk]; [reflexivity |].
    rewrite argument_digits by lia.
    destruct (k =? 0) eqn:E; [reflexivity |].
    rewrite nth_overflow; [reflexivity | lia].
Qed.

Lemma prepareQuery_binds_each_placeholder_witness :
  exists qp : Db.query_params,
    Db.query_params_of
      (Db.prepareQuery "SELECT pool_id FROM pools WHERE pool_id=$1 AND base_token_id=$2"
                       [VInt 2; VBool true]) = Some qp
    /\ qp !! "p2"%string = Some (Some "1"%string).
Proof.
  destruct (prepareQuery_binds_each_placeholder
              "SELECT pool_id FROM pools WHERE pool_id=$1 AND base_token_id=$2"
              [VInt 2; VBool true]) as (qp & Hqp & Hocc & _); [discriminate |].
  exists qp. split; [exact Hqp |].
  apply (Hocc "2"%string). split; [split; [discriminate | reflexivity] |].
  exists "SELECT pool_id FROM pools WHERE pool_id=$1 AND base_token_id="%string, ""%string.
  split; reflexivity.
Defined.

(** ** The insert statements, as the client receives them *)

Lemma replace_placeholders_literal (params : list value) (a s : string)
    (qp : Db.query_params) :
  Notions.no_dollar a ->
  Db.replace_placeholders params 0 (a +:+ s) qp
  = (a +:+ fst (Db.replace_placeholders params 0 s qp),
     snd (Db.replace_placeholders params 0 s qp)).
Proof.
  unfold Notions.no_dollar. induction a as [|c a IH].
  - intros _. rewrite !append_nil. now destruct (Db.replace_placeholders params 0 s qp).
  - cbn [all_chars]. intros H. apply andb_true_iff in H as [Hc Ha].
    apply negb_true_iff in Hc. rewrite !append_cons.
    cbn [Db.replace_placeholders]. rewrite Hc. cbn [andb].
    rewrite (IH Ha). reflexivity.
Qed.

Lemma replace_placeholders_dollar (params : list value) (k : Z) (b : string)
    (qp : Db.query_params) :
  Notions.starts_with_digit b = false ->
  Db.replace_placeholders params 0 (Notions.dollar k +:+ b) qp
  = (Notions.named k
       +:+ fst (Db.replace_placeholders params 0 b (Notions.bound params [k] qp)),
     snd (Db.replace_placeholders params 0 b (Notions.bound params [k] qp))).
Proof.
  intros Hb. unfold Notions.dollar, Notions.bound. cbn [fold_left].
  rewrite str_app_assoc, append_cons, append_nil.
  cbn [Db.replace_placeholders]. cbv zeta.
  rewrite (leading_digits_app _ _ (digits_all_digits k) Hb).
  assert (String.eqb (digits k) "" = false) as ->
    by (apply String.eqb_neq, digits_nonempty).
  change (is_char "$" "$" && negb false) with true. cbv iota.
  destruct (Db.on_match params (digits k) qp) as [named qp1] eqn:E.
  assert (named = Notions.named k) as ->.
  { unfold Db.on_match in E. injection E as <- _. reflexivity. }
  rewrite replace_placeholders_skip.
  cbn [snd]. now destruct (Db.replace_placeholders params 0 b qp1).
Qed.

Lemma bound_app (params : list value) (ks1 ks2 : list Z) (qp : Db.query_params) :
  Notions.bound params (ks1 ++ ks2) qp
  = Notions.bound params ks2 (Notions.bound params ks1 qp).
Proof. apply fold_left_app. Qed.

Lemma comma_no_dollar : Notions.no_dollar ",".
Proof. reflexivity. Qed.

(** A list of placeholders separated by commas. *)
Lemma replace_placeholders_list (params : list value) (ks : list Z) :
  forall (b : string) (qp : Db.query_params),
    Notions.starts_with_digit b = false ->
    Db.replace_placeholders params 0
      (JSArray.join "," (map Notions.dollar ks) +:+ b) qp
    = (JSArray.join "," (map Notions.named ks)
         +:+ fst (Db.replace_placeholders params 0 b (Notions.bound params ks qp)),
       snd (Db.replace_placeholders params 0 b (Notions.bound params ks qp))).
Proof.
  induction ks as [|k ks IH]; intros b qp Hb.
  - cbn [map JSArray.join]. rewrite !append_nil.
    now destruct (Db.replace_placeholders params 0 b _).
  - destruct ks as [|k' ks].
    + cbn [map JSArray.join]. now apply replace_placeholders_dollar.
    + change (JSArray.join "," (map Notions.dollar (k :: k' :: ks)))
        with (Notions.dollar k +:+ "," +:+ JSArray.join "," (map Notions.dollar (k' :: ks))).
      change (JSArray.join "," (map Notions.named (k :: k' :: ks)))
        with (Notions.named k +:+ "," +:+ JSArray.join "," (map Notions.named (k' :: ks))).
      rewrite !str_app_assoc.
      rewrite replace_placeholders_dollar by reflexivity.
      rewrite (replace_placeholders_literal _ "," _ _ comma_no_dollar).
      cbn [fst snd]. rewrite (IH b _ Hb).
      cbn [fst snd]. change (k :: k' :: ks) with ([k] ++ k' :: ks).
      now rewrite bound_app.
Qed.

Lemma paren_no_dollar : Notions.no_dollar "(" /\ Notions.no_dollar ")".
Proof. split; reflexivity. Qed.

(** The tuples of an insert statement. *)
Lemma replace_placeholders_tuples (params : list value) (w : Z) (n : nat) :
  0 <= w ->
  forall (p : Z) (b : string) (qp : Db.query_params),
    Db.replace_placeholders params 0
      (JSArray.join "," (Notions.tuples Notions.dollar w p n) +:+ b) qp
    = (JSArray.join "," (Notions.tuples Notions.named w p n)
         +:+ fst (Db.replace_placeholders params 0 b
                    (Notions.bound params (seqZ p (w * Z.of_nat n)) qp)),
       snd (Db.replace_placeholders params 0 b
              (Notions.bound params (seqZ p (w * Z.of_nat n)) qp))).
Proof.
  intros Hw. destruct paren_no_dollar as [Hopen Hclose].
  assert (Hone : forall p b qp,
             Db.replace_placeholders params 0
               (("(" +:+ JSArray.join "," (map Notions.dollar (seqZ p w)) +:+ ")") +:+ b) qp
             = (("(" +:+ JSArray.join "," (map Notions.named (seqZ p w)) +:+ ")")
                  +:+ fst (Db.replace_placeholders params 0 b
                             (Notions.bound params (seqZ p w) qp)),
                snd (Db.replace_placeholders params 0 b
                       (Notions.bound params (seqZ p w) qp)))).
  { intros p b qp. rewrite !str_app_assoc.
    rewrite (replace_placeholders_literal _ "(" _ _ Hopen).
    rewrite replace_placeholders_list by reflexivity.
    rewrite (replace_placeholders_literal _ ")" _ _ Hclose). reflexivity. }
  induction n as [|n IH]; intros p b qp.
  - cbn [Notions.tuples JSArray.join]. rewrite !append_nil.
    rewrite seqZ_nil by lia. now destruct (Db.replace_placeholders params 0 b _).
  - replace (w * Z.of_nat (S n)) with (w + w * Z.of_nat n) by lia.
    rewrite seqZ_app, bound_app by lia.
    cbn [Notions.tuples]. destruct n as [|n].
    + cbn [Notions.tuples JSArray.join]. rewrite Hone.
      rewrite (seqZ_nil (p + w)) by lia. reflexivity.
    + set (rest := Notions.tuples Notions.dollar w (p + w) (S n)) in *.
      set (rest' := Notions.tuples Notions.named w (p + w) (S n)) in *.
      assert (Hj : forall (x : string) (l : list string),
                 l <> [] -> JSArray.join "," (x :: l) = x +:+ "," +:+ JSArray.join "," l).
      { intros x [|y l] H; [congruence | reflexivity]. }
      rewrite !Hj by (subst rest rest'; discriminate).
      set (T := "(" +:+ JSArray.join "," (map Notions.dollar (seqZ p w)) +:+ ")").
      set (T' := "(" +:+ JSArray.join "," (map Notions.named (seqZ p w)) +:+ ")").
      rewrite !str_app_assoc. subst T T'.
      rewrite Hone. rewrite (replace_placeholders_literal _ "," _ _ comma_no_dollar).
      rewrite (IH (p + w) b). reflexivity.
Qed.

(** The parameters bound by the placeholders numbered [ks]. *)
Lemma bound_spec (params : list value) (ks : list Z) :
  forall qp : Db.query_params,
    (forall key v, qp !! key = Some v -> Notions.bound params ks qp !! key = Some v)
    /\ (forall key v,
          Notions.bound params ks qp !! key = Some v ->
          qp !! key = Some v
          \/ exists k, In k ks /\ key = "p" +:+ digits k
                       /\ v = Db.stored (Notions.argument params (digits k)))
    /\ (forall k,
          In k ks ->
          exists v, Notions.bound params ks qp !! ("p" +:+ digits k) = Some v
                    /\ (qp !! ("p" +:+ digits k) = None ->
                        v = Db.stored (Notions.argument params (digits k)))).
Proof.
  induction ks as [|k0 ks IH]; intros qp.
  - split; [auto |]. split; [auto |]. intros k [].
  - change (k0 :: ks) with ([k0] ++ ks). rewrite bound_app.
    unfold Notions.bound at 2 4 6. cbn [fold_left app].
    pose proof (on_match_bound params (digits k0) qp) as (M1 & M2 & M3).
    set (qp1 := snd (Db.on_match params (digits k0) qp)) in *.
    destruct (IH qp1) as (I1 & I2 & I3). split; [auto | split].
    + intros key v Hk. destruct (I2 key v Hk) as [Hq | (k & Hin & -> & ->)].
      * destruct (M2 key v Hq) as [? | [-> ->]]; [now left |].
        right. exists k0. split; [now left | split; reflexivity].
      * right. exists k. split; [now right | split; reflexivity].
    + intros k [<- | Hin].
      * destruct M3 as (v & Hv & Hval). exists v. split; [now apply I1 | exact Hval].
      * destruct (I3 k Hin) as (v & Hv & Hval). exists v. split; [exact Hv |].
        intros Hnone. destruct (qp1 !! ("p" +:+ digits k)) as [v1|] eqn:E1.
        -- rewrite (I1 _ _ E1) in Hv. injection Hv as <-.
           destruct (M2 _ _ E1) as [? | [Hkey ->]]; [congruence |].
           apply (String.app_inj "p") in Hkey. now rewrite Hkey.
        -- now apply Hval.
Qed.

(** The parameters of a statement whose placeholders are numbered from 1
    to [n]: one per argument. *)
Lemma bound_from_one (params : list value) (n : Z) :
  n = Z.of_nat (length params) ->
  let qp := Notions.bound params (seqZ 1 n) ∅ in
  (forall k, 1 <= k <= n ->
     qp !! ("p" +:+ digits k) = Some (Db.stored (nth (Z.to_nat (k - 1)) params VUndefined)))
  /\ (forall key, is_Some (qp !! key) -> exists k, 1 <= k <= n /\ key = "p" +:+ digits k).
Proof.
  intros Hn qp. destruct (bound_spec params (seqZ 1 n) ∅) as (_ & H2 & H3). split.
  - intros k Hk. destruct (H3 k) as (v & Hv & Hval).
    { apply list_elem_of_In, elem_of_seqZ. lia. }
    subst qp. rewrite Hv, Hval by apply lookup_empty.
    rewrite argument_digits by lia.
    destruct (k =? 0) eqn:E; [apply Z.eqb_eq in E; lia | reflexivity].
  - intros key [v Hv]. destruct (H2 key v Hv) as [Hq | (k & Hin & -> & _)].
    + rewrite lookup_empty in Hq. discriminate.
    + exists k. split; [| reflexivity].
      apply list_elem_of_In, elem_of_seqZ in Hin. lia.
Qed.

(** *** Statements that are not queries *)

Lemma trim_start_ws (a b : string) :
  all_chars is_ws a = true -> trim_start (a +:+ b) = trim_start b.
Proof.
  induction a as [|c a IH]; [reflexivity |]. cbn [all_chars].
  intros H. apply andb_true_iff in H as [Hc Ha].
  rewrite append_cons. cbn [trim_start]. rewrite Hc. now apply IH.
Qed.

Lemma trim_start_keeps_last (a : string) (c : ascii) :
  is_ws c = false -> exists x, trim_start (a +:+ String c "") = x +:+ String c "".
Proof.
  intros Hc. induction a as [|d a [x IH]].
  - exists ""%string. rewrite !append_nil. cbn [trim_start]. now rewrite Hc.
  - rewrite append_cons. cbn [trim_start]. destruct (is_ws d).
    + now exists x.
    + exists (String d a). now rewrite append_cons.
Qed.

(** The trimmed text starts with the first character that is no white
    space. *)
Lemma trim_head (s : string) (c : ascii) (r : string) :
  trim_start s = String c r -> is_ws c = false ->
  exists r', trim s = String c r'.
Proof.
  intros E Hc. unfold trim. rewrite E, str_rev_cons.
  destruct (trim_start_keeps_last (String.rev r) c Hc) as [x ->].
  rewrite str_rev_app_distr. exists (String.rev x). reflexivity.
Qed.

(** A statement that starts, after white space, with the letter I is not
    taken for a query. *)
Lemma insert_is_no_select (ws rest : string) :
  all_chars is_ws ws = true ->
  Db.isSelect (trim (ws +:+ String "I" rest)) = false.
Proof.
  intros Hws.
  destruct (trim_head (ws +:+ String "I" rest) "I" rest) as [r' ->].
  - now rewrite trim_start_ws.
  - reflexivity.
  - reflexivity.
Qed.

(** *** The candle insert *)

Lemma map_dollar_from (p w : Z) :
  map (fun i => "$" +:+ digits (p + i)) (seqZ 0 w) = map Notions.dollar (seqZ p w).
Proof.
  replace (seqZ p w) with (Z.add p <$> seqZ 0 w)
    by (rewrite fmap_add_seqZ, Z.add_0_r; reflexivity).
  change (map Notions.dollar (Z.add p <$> seqZ 0 w))
    with (Notions.dollar <$> (Z.add p <$> seqZ 0 w)).
  rewrite <- list_fmap_compose. reflexivity.
Qed.

Lemma placeholder_tuple (p : Z) :
  Ohlcv.placeholder p = "(" +:+ JSArray.join "," (map Notions.dollar (seqZ p 9)) +:+ ")".
Proof. unfold Ohlcv.placeholder. now rewrite map_dollar_from. Qed.

Lemma insert_loop_tuples (rows : list Candle.Row) :
  forall (p : Z) ph a,
    Ohlcv.insert_loop p rows = Ok (ph, a) ->
    ph = Notions.tuples Notions.dollar 9 p (length rows)
    /\ length a = (9 * length rows)%nat.
Proof.
  induction rows as [|r rows IH]; intros p ph a H.
  - injection H as <- <-. split; reflexivity.
  - cbn [Ohlcv.insert_loop] in H.
    destruct (row_args_returns r) as (a0 & E0 & Ha0). rewrite E0 in H. cbn [bind] in H.
    destruct (Ohlcv.insert_loop (p + 9) rows) as [[ph' a']|err] eqn:E; [| discriminate].
    cbn [bind] in H. injection H as <- <-.
    destruct (IH (p + 9) ph' a' E) as [-> Ha'].
    cbn [Notions.tuples length]. rewrite placeholder_tuple, length_app. split; [reflexivity | lia].
Qed.

Lemma no_dollar_clean (t : string) :
  Notions.no_dollar t -> Notions.has_placeholder t = false.
Proof.
  intros H. rewrite <- (str_app_nil_r t). now rewrite no_dollar_head.
Qed.

(** An insert statement of [n] tuples of [w] parameters numbered from 1,
    between a head and a tail without dollar sign: it is sent as a command,
    with every placeholder named and every argument bound. *)
Lemma insert_request (params : list value) (ws rest head tail : string) (w : Z) (n : nat) :
  0 <= w ->
  params <> [] ->
  head = ws +:+ String "I" rest ->
  all_chars is_ws ws = true ->
  Notions.no_dollar head ->
  Notions.no_dollar tail ->
  Db.request_of (head +:+ JSArray.join "," (Notions.tuples Notions.dollar w 1 n) +:+ tail)
                params
  = Db.ClientCommand
      (head +:+ JSArray.join "," (Notions.tuples Notions.named w 1 n) +:+ tail)
      (Some (Notions.bound params (seqZ 1 (w * Z.of_nat n)) ∅)).
Proof.
  intros Hw Hne Hhead Hws Hh Ht. unfold Db.request_of.
  assert (Db.isSelect
            (trim (head +:+ JSArray.join "," (Notions.tuples Notions.dollar w 1 n) +:+ tail))
          = false) as ->.
  { rewrite Hhead, str_app_assoc, append_cons. now apply insert_is_no_select. }
  unfold Db.prepareQuery. destruct params as [|p0 ps]; [congruence |].
  rewrite (replace_placeholders_literal _ head _ _ Hh).
  rewrite replace_placeholders_tuples by assumption.
  rewrite (replace_placeholders_none _ tail _ (no_dollar_clean tail Ht)).
  reflexivity.
Qed.

(** X3 (core/ohlcv.js [buildInsertSQL] and [flushFn], lib/db.js [DB.query]
    and [prepareQuery]): the statement built for a non-empty list of rows is
    sent to the client as a command, not as a query.  Its text is the
    statement with every [$k] replaced by [{pk:String}], and [query_params]
    binds [p1], ..., [p(9n)], for [n] rows, each to its own argument and
    nothing else. *)
Theorem candle_insert_as_sent :
  forall rows : list Candle.Row,
    rows <> [] ->
    exists (q : Ohlcv.InsertSQL) (sql head tail : string) (qp : Db.query_params),
      Ohlcv.buildInsertSQL rows = Ok q
      /\ Ohlcv.sql q = Some sql
      /\ Notions.no_dollar head
      /\ Notions.no_dollar tail
      /\ sql = head
               +:+ JSArray.join "," (Notions.tuples Notions.dollar 9 1 (length rows))
               +:+ tail
      /\ Db.request_of sql (Ohlcv.args q)
         = Db.ClientCommand
             (head
              +:+ JSArray.join "," (Notions.tuples Notions.named 9 1 (length rows))
              +:+ tail)
             (Some qp)
      /\ (forall k,
            1 <= k <= 9 * Z.of_nat (length rows) ->
            qp !! ("p" +:+ digits k)
            = Some (Db.stored (nth (Z.to_nat (k - 1)) (Ohlcv.args q) VUndefined)))
      /\ (forall key,
            is_Some (qp !! key) ->
            exists k, 1 <= k <= 9 * Z.of_nat (length rows) /\ key = "p" +:+ digits k).
Proof.
  intros rows Hne.
  destruct (insert_loop_returns rows 1) as (ph & a & E & _ & Ha).
  destruct (insert_loop_tuples rows 1 ph a E) as [-> _].
  set (head := "
    INSERT INTO ohlcv_1m
      (" +:+ JSArray.join "," Ohlcv.cols +:+ ")
    VALUES
      ").
  set (tail := "
  "%string).
  assert (Ea : a <> []).
  { destruct rows; [congruence |]. destruct a; [cbn [length] in Ha; lia | discriminate]. }
  pose proof (bound_from_one a (9 * Z.of_nat (length rows)) ltac:(lia)) as [Hb1 Hb2].
  eexists _, _, head, tail, _.
  split.
  { unfold Ohlcv.buildInsertSQL. destruct rows as [|r rest]; [congruence |].
    rewrite E. reflexivity. }
  cbn [Ohlcv.sql Ohlcv.args].
  split; [reflexivity |]. split; [reflexivity |]. split; [reflexivity |].
  split; [subst head tail; now rewrite !str_app_assoc |].
  split; [| split; [exact Hb1 | exact Hb2]].
  replace (_ +:+ _ +:+ _ +:+ _ +:+ tail)
    with (head +:+ JSArray.join "," (Notions.tuples Notions.dollar 9 1 (length rows))
            +:+ tail)
    by (subst head tail; now rewrite !str_app_assoc).
  apply (insert_request a (str_take 5 head) (str_drop 6 head)); try reflexivity;
    [lia | exact Ea].
Qed.

Lemma candle_insert_as_sent_witness :
  exists (q : Ohlcv.InsertSQL) (sql : string),
    Ohlcv.buildInsertSQL
      [ {| Candle.pool_id := VInt 1; Candle.bucket_start := VStr "T0";
           Candle.open := VInt 10; Candle.high := VInt 12; Candle.low := VInt 9;
           Candle.close := VInt 9; Candle.volume_zig := VInt 0;
           Candle.trade_count := VInt 3; Candle.liquidity_zig := VNull |} ]
    = Ok q
    /\ Ohlcv.sql q = Some sql.
Proof.
  destruct (candle_insert_as_sent
              [ {| Candle.pool_id := VInt 1; Candle.bucket_start := VStr "T0";
                   Candle.open := VInt 10; Candle.high := VInt 12; Candle.low := VInt 9;
                   Candle.close := VInt 9; Candle.volume_zig := VInt 0;
                   Candle.trade_count := VInt 3; Candle.liquidity_zig := VNull |} ])
    as (q & sql & _ & _ & _ & Hq & Hsql & _); [discriminate |].
  exists q, sql. split; [exact Hq | exact Hsql].
Defined.

(** *** The trade insert *)

Lemma map_dollar_from19 (p : Z) :
  Trades.placeholder p = "(" +:+ JSArray.join "," (map Notions.dollar (seqZ p 19)) +:+ ")".
Proof. unfold Trades.placeholder. now rewrite map_dollar_from. Qed.

Lemma values_loop_tuples (rows : list Trades.Trade) (i : Z) :
  fst (Trades.values_loop i rows) = Notions.tuples Notions.dollar 19 i (length rows).
Proof.
  revert i. induction rows as [|t rows IH]; intros i; [reflexivity |].
  cbn [Trades.values_loop]. specialize (IH (i + 19)).
  destruct (Trades.values_loop (i + 19) rows) as [vals args]. cbn [fst] in *.
  cbn [Notions.tuples length]. now rewrite map_dollar_from19, IH.
Qed.

Lemma trade_args_length (rows : list Trades.Trade) :
  length (concat (map Trades.trade_args rows)) = (19 * length rows)%nat.
Proof.
  induction rows as [|t rows IH]; [reflexivity |].
  cbn [map concat]. rewrite length_app, IH. cbn [Trades.trade_args length]. lia.
Qed.

(** X4 (core/trades.js [sqlValues] and [flushFn], lib/db.js [DB.query] and
    [prepareQuery]): the statement built for a non-empty batch of trades is
    [INSERT_SQL] with the tuples of placeholders in the place of [%VALUES%];
    it is sent to the client as a command whose text has every [$k]
    replaced by [{pk:String}], and [query_params] binds [p1], ..., [p(19n)],
    for [n] trades, each to its own argument and nothing else. *)
Theorem trade_insert_as_sent :
  forall items : list Trades.Trade,
    items <> [] ->
    exists (st : Trades.Statement) (qp : Db.query_params),
      Trades.flushFn items = Some st
      /\ Trades.text st
         = Trades.replace "%VALUES%"
             (JSArray.join "," (Notions.tuples Notions.dollar 19 1 (length items)))
             Trades.INSERT_SQL
      /\ Db.request_of (Trades.text st) (Trades.args st)
         = Db.ClientCommand
             (Trades.replace "%VALUES%"
                (JSArray.join "," (Notions.tuples Notions.named 19 1 (length items)))
                Trades.INSERT_SQL)
             (Some qp)
      /\ (forall k,
            1 <= k <= 19 * Z.of_nat (length items) ->
            qp !! ("p" +:+ digits k)
            = Some (Db.stored (nth (Z.to_nat (k - 1)) (Trades.args st) VUndefined)))
      /\ (forall key,
            is_Some (qp !! key) ->
            exists k, 1 <= k <= 19 * Z.of_nat (length items) /\ key = "p" +:+ digits k).
Proof.
  intros items Hne.
  assert (Hsplit : forall rep : string,
             Trades.replace "%VALUES%" rep Trades.INSERT_SQL
             = str_take 353 Trades.INSERT_SQL +:+ rep +:+ str_drop 361 Trades.INSERT_SQL).
  { intros rep. reflexivity. }
  assert (Hst : Trades.text (Trades.sqlValues items)
                = Trades.replace "%VALUES%"
                    (JSArray.join "," (Notions.tuples Notions.dollar 19 1 (length items)))
                    Trades.INSERT_SQL
                /\ Trades.args (Trades.sqlValues items)
                   = concat (map Trades.trade_args items)).
  { pose proof (values_loop_tuples items 1) as Hvals.
    pose proof (values_loop_args items 1) as Hargs.
    unfold Trades.sqlValues. destruct (Trades.values_loop 1 items) as [vals args].
    cbn [fst snd] in Hvals, Hargs. subst vals args. split; reflexivity. }
  destruct Hst as [Htext Hargs].
  pose proof (trade_args_length items) as Hlen. rewrite <- Hargs in Hlen.
  set (st := Trades.sqlValues items) in *.
  assert (Ea : Trades.args st <> []).
  { destruct items; [congruence |].
    destruct (Trades.args st); [cbn [length] in Hlen; lia | discriminate]. }
  pose proof (bound_from_one (Trades.args st) (19 * Z.of_nat (length items)) ltac:(lia))
    as [Hb1 Hb2].
  exists st. eexists. split; [destruct items; [congruence | reflexivity] |].
  split; [exact Htext |]. split; [| split; [exact Hb1 | exact Hb2]].
  rewrite Htext, !Hsplit.
  apply (insert_request (Trades.args st) (str_take 3 Trades.INSERT_SQL)
           (str_drop 4 (str_take 353 Trades.INSERT_SQL))); try reflexivity;
    [lia | exact Ea].
Qed.

Lemma trade_insert_as_sent_witness :
  exists st : Trades.Statement,
    Trades.flushFn
      [Trades.Build_Trade (VInt 1) VNull VUndefined VUndefined VUndefined VNull
         VUndefined VUndefined VUndefined VUndefined VUndefined VUndefined
         VUndefined VUndefined VUndefined VNull VUndefined VUndefined VUndefined]
    = Some st.
Proof.
  destruct (trade_insert_as_sent
              [Trades.Build_Trade (VInt 1) VNull VUndefined VUndefined VUndefined VNull
                 VUndefined VUndefined VUndefined VUndefined VUndefined VUndefined
                 VUndefined VUndefined VUndefined VNull VUndefined VUndefined VUndefined])
    as (st & _ & Hst & _); [discriminate |].
  exists st. exact Hst.
Defined.

(** ** Retries *)

(** *** A Number against the integers *)

Lemma lt_int_Fin (i m e : Z) :
  lt (VInt i) (VNum (Fin m e)) = (i * 10 ^ (- Z.min e 0) <? m * 10 ^ (e - Z.min e 0)).
Proof.
  unfold lt, lessThan, VInt, of_Z, num_lessThan. cbn [ToNumber num_compare].
  rewrite (Fin_compare_at i 0 m e (Z.min e 0)) by lia. unfold align.
  replace (0 - Z.min e 0) with (- Z.min e 0) by lia.
  destruct (Z.compare_spec (i * 10 ^ (- Z.min e 0)) (m * 10 ^ (e - Z.min e 0)));
    symmetry; [apply Z.ltb_ge | apply Z.ltb_lt | apply Z.ltb_ge]; lia.
Qed.

Lemma lt_Fin_int (i m e : Z) :
  lt (VNum (Fin m e)) (VInt i) = (m * 10 ^ (e - Z.min e 0) <? i * 10 ^ (- Z.min e 0)).
Proof.
  unfold lt, lessThan, VInt, of_Z, num_lessThan. cbn [ToNumber num_compare].
  rewrite (Fin_compare_at m e i 0 (Z.min e 0)) by lia. unfold align.
  replace (0 - Z.min e 0) with (- Z.min e 0) by lia.
  destruct (Z.compare_spec (m * 10 ^ (e - Z.min e 0)) (i * 10 ^ (- Z.min e 0)));
    symmetry; [apply Z.ltb_ge | apply Z.ltb_lt | apply Z.ltb_ge]; lia.
Qed.

Lemma equal_Fin_int (n m e : Z) :
  num_equal (Fin m e) (of_Z n) = (m * 10 ^ (e - Z.min e 0) =? n * 10 ^ (- Z.min e 0)).
Proof.
  unfold num_equal, of_Z. cbn [num_compare].
  rewrite (Fin_compare_at m e n 0 (Z.min e 0)) by lia. unfold align.
  replace (0 - Z.min e 0) with (- Z.min e 0) by lia.
  destruct (Z.compare_spec (m * 10 ^ (e - Z.min e 0)) (n * 10 ^ (- Z.min e 0)));
    symmetry; [apply Z.eqb_eq | apply Z.eqb_neq | apply Z.eqb_neq]; lia.
Qed.

(** [i === x - 1] *)
Lemma last_Fin (i m e : Z) :
  num_equal (of_Z i) (num_sub (Fin m e) (of_Z 1))
  = ((i + 1) * 10 ^ (- Z.min e 0) =? m * 10 ^ (e - Z.min e 0)).
Proof.
  unfold num_sub, of_Z. cbn [num_neg num_add]. unfold num_equal. cbn [num_compare].
  set (e0 := Z.min e 0).
  rewrite (Fin_compare_at i 0 _ e0 e0) by lia. unfold align.
  replace (0 - e0) with (- e0) by lia. rewrite Z.sub_diag, Z.pow_0_r, Z.mul_1_r.
  set (s := 10 ^ (- e0)). set (M := m * 10 ^ (e - e0)).
  destruct (Z.compare_spec (i * s) (M + - (1) * s));
    symmetry; [apply Z.eqb_eq | apply Z.eqb_neq | apply Z.eqb_neq]; lia.
Qed.

Lemma scale_pos (e : Z) : 0 < 10 ^ (- Z.min e 0).
Proof. apply Z.pow_pos_nonneg; lia. Qed.

(** An integer below one that is below [x] is below [x]. *)
Lemma lt_int_mono (i j : Z) (x : number) :
  j <= i -> lt (VInt i) (VNum x) = true -> lt (VInt j) (VNum x) = true.
Proof.
  intros Hj. destruct x as [| | |m e]; try (intros H; exact H).
  rewrite !lt_int_Fin, !Z.ltb_lt. pose proof (scale_pos e). nia.
Qed.

(** [i] is not [x - 1] when [i + 1] is below [x]. *)
Lemma not_last_below (i : Z) (x : number) :
  lt (VInt (i + 1)) (VNum x) = true ->
  num_equal (of_Z i) (num_sub x (of_Z 1)) = false.
Proof.
  destruct x as [| | |m e]; try reflexivity.
  rewrite lt_int_Fin, last_Fin, Z.ltb_lt, Z.eqb_neq. lia.
Qed.

(** For a whole number [n], "below" is [<] and [x - 1] is [n - 1]. *)
Lemma whole_number (x : number) (n : Z) :
  num_equal x (of_Z n) = true ->
  (forall i, lt (VInt i) (VNum x) = (i <? n))
  /\ (forall i, num_equal (of_Z i) (num_sub x (of_Z 1)) = (i =? n - 1)).
Proof.
  destruct x as [| | |m e]; try discriminate.
  rewrite equal_Fin_int, Z.eqb_eq. intros H. pose proof (scale_pos e) as Hs. split; intros i.
  - rewrite lt_int_Fin, H.
    destruct (Z.ltb_spec i n); [apply Z.ltb_lt | apply Z.ltb_ge]; nia.
  - rewrite last_Fin, H.
    destruct (Z.eqb_spec i (n - 1)); [apply Z.eqb_eq | apply Z.eqb_neq]; nia.
Qed.

(** For a Number strictly between [n] and [n + 1], "below" is [<=  n] and
    no integer is [x - 1]. *)
Lemma between_integers (x : number) (n : Z) :
  lt (VInt n) (VNum x) = true -> lt (VNum x) (VInt (n + 1)) = true ->
  (forall i, lt (VInt i) (VNum x) = (i <=? n))
  /\ (forall i, num_equal (of_Z i) (num_sub x (of_Z 1)) = false).
Proof.
  destruct x as [| | |m e]; try discriminate.
  rewrite lt_int_Fin, lt_Fin_int, !Z.ltb_lt. intros H1 H2.
  pose proof (scale_pos e) as Hs. split; intros i.
  - rewrite lt_int_Fin.
    destruct (Z.leb_spec i n); [apply Z.ltb_lt | apply Z.ltb_ge]; nia.
  - rewrite last_Fin. apply Z.eqb_neq. intros Heq.
    destruct (Z.le_gt_cases (i + 1) n); nia.
Qed.

Section RetryFacts.
Context {A : Type}.
Variable answer : Z -> outcome A.
Variable attempts : number.
Variable msg : Z -> string.

Lemma retry_from_S (fuel : nat) (i : Z) :
  Db.retry_from answer attempts (S fuel) i
  = if lt (VInt i) (VNum attempts) then
      match answer i with
      | Ok r => Some (Ok (Some r), [Db.Queried])
      | Throw e =>
          if num_equal (of_Z i) (num_sub attempts (of_Z 1))
          then Some (Throw e, [Db.Queried])
          else
            match Db.retry_from answer attempts fuel (i + 1) with
            | Some (r, events) =>
                Some (r, Db.Queried :: Db.Warned (i + 1) e :: Db.Slept (150 * (i + 1))
                         :: events)
            | None => None
            end
      end
    else Some (Ok None, []).
Proof. reflexivity. Qed.

Lemma failures_from_S (i : Z) (k : nat) :
  Notions.failures_from msg i (Z.of_nat (S k))
  = Db.Queried :: Db.Warned (i + 1) (msg i) :: Db.Slept (150 * (i + 1))
    :: Notions.failures_from msg (i + 1) (Z.of_nat k).
Proof.
  unfold Notions.failures_from. rewrite (seqZ_cons i) by lia. cbn [flat_map app].
  replace (Z.pred (Z.of_nat (S k))) with (Z.of_nat k) by lia.
  replace (Z.succ i) with (i + 1) by lia. reflexivity.
Qed.

Lemma retry_from_success (k : nat) :
  forall (fuel : nat) (i : Z) (r : A),
    (k < fuel)%nat ->
    lt (VInt (i + Z.of_nat k)) (VNum attempts) = true ->
    (forall j, i <= j < i + Z.of_nat k -> answer j = Throw (msg j)) ->
    answer (i + Z.of_nat k) = Ok r ->
    Db.retry_from answer attempts fuel i
    = Some (Ok (Some r), Notions.failures_from msg i (Z.of_nat k) ++ [Db.Queried]).
Proof.
  induction k as [|k IH]; intros fuel i r Hk Hbelow Hfail Hok.
  - destruct fuel as [|fuel]; [lia |]. rewrite retry_from_S.
    replace (i + Z.of_nat 0) with i in * by lia. now rewrite Hbelow, Hok.
  - destruct fuel as [|fuel]; [lia |]. rewrite retry_from_S.
    rewrite (lt_int_mono (i + Z.of_nat (S k)) i attempts ltac:(lia) Hbelow),
      (Hfail i) by lia.
    rewrite not_last_below
      by (apply (lt_int_mono (i + Z.of_nat (S k)) (i + 1) attempts ltac:(lia) Hbelow)).
    rewrite (IH fuel (i + 1) r); [| lia | | intros j Hj; apply Hfail; lia |].
    + now rewrite failures_from_S.
    + replace (i + 1 + Z.of_nat k) with (i + Z.of_nat (S k)) by lia. exact Hbelow.
    + rewrite <- Hok. f_equal. lia.
Qed.

Lemma retry_from_exhausted (n : Z) (k : nat) :
  num_equal attempts (of_Z n) = true ->
  forall (fuel : nat) (i : Z),
    (k < fuel)%nat ->
    i + Z.of_nat k = n - 1 ->
    (forall j, i <= j < n -> answer j = Throw (msg j)) ->
    Db.retry_from answer attempts fuel i
    = Some (Throw (msg (n - 1)), Notions.failures_from msg i (Z.of_nat k) ++ [Db.Queried]).
Proof.
  intros Hn. destruct (whole_number attempts n Hn) as [Hlt Hlast].
  induction k as [|k IH]; intros fuel i Hk Hi Hfail.
  - destruct fuel as [|fuel]; [lia |]. rewrite retry_from_S, Hlt, Hlast, (Hfail i) by lia.
    replace (i <? n) with true by (symmetry; apply Z.ltb_lt; lia).
    replace (i =? n - 1) with true by (symmetry; apply Z.eqb_eq; lia).
    replace (n - 1) with i by lia. reflexivity.
  - destruct fuel as [|fuel]; [lia |]. rewrite retry_from_S, Hlt, Hlast, (Hfail i) by lia.
    replace (i <? n) with true by (symmetry; apply Z.ltb_lt; lia).
    replace (i =? n - 1) with false by (symmetry; apply Z.eqb_neq; lia).
    rewrite (IH fuel (i + 1)); [| lia | lia | intros j Hj; apply Hfail; lia].
    now rewrite failures_from_S.
Qed.

Lemma retry_from_defined (n : Z) :
  num_equal attempts (of_Z n) = true ->
  forall (fuel : nat) (i : Z) res events,
    i < n ->
    Db.retry_from answer attempts fuel i = Some (res, events) ->
    res <> Ok None.
Proof.
  intros Hn. destruct (whole_number attempts n Hn) as [Hlt Hlast].
  induction fuel as [|fuel IH]; intros i res events Hi; [discriminate |].
  rewrite retry_from_S, Hlt, Hlast.
  replace (i <? n) with true by (symmetry; apply Z.ltb_lt; lia).
  destruct (answer i) as [r | e]; [intros [= <- _]; discriminate |].
  destruct (Z.eqb_spec i (n - 1)); [intros [= <- _]; discriminate |].
  destruct (Db.retry_from answer attempts fuel (i + 1)) as [[res' events']|] eqn:E;
    [| discriminate].
  intros [= <- _]. apply (IH (i + 1) res' events'); [lia | exact E].
Qed.

Lemma retry_from_runs_out (n : Z) (k : nat) :
  lt (VInt n) (VNum attempts) = true ->
  lt (VNum attempts) (VInt (n + 1)) = true ->
  forall (fuel : nat) (i : Z),
    (k < fuel)%nat ->
    i + Z.of_nat k = n + 1 ->
    (forall j, i <= j <= n -> answer j = Throw (msg j)) ->
    Db.retry_from answer attempts fuel i
    = Some (Ok None, Notions.failures_from msg i (Z.of_nat k)).
Proof.
  intros H1 H2. destruct (between_integers attempts n H1 H2) as [Hlt Hlast].
  induction k as [|k IH]; intros fuel i Hk Hi Hfail.
  - destruct fuel as [|fuel]; [lia |]. rewrite retry_from_S, Hlt.
    replace (i <=? n) with false by (symmetry; apply Z.leb_gt; lia). reflexivity.
  - destruct fuel as [|fuel]; [lia |]. rewrite retry_from_S, Hlt, Hlast, (Hfail i) by lia.
    replace (i <=? n) with true by (symmetry; apply Z.leb_le; lia).
    rewrite (IH fuel (i + 1)); [| lia | lia | intros j Hj; apply Hfail; lia].
    now rewrite failures_from_S.
Qed.

End RetryFacts.

(** X5 (lib/db.js, [queryRetry]): when the attempts numbered 0 to [k - 1]
    fail and attempt [k], with [k < attempts], succeeds, the call returns the
    rows of attempt [k]; it has queried [k + 1] times and, after each
    failure, has warned with the number and the message of the attempt and
    paused 150 ms times that number.  This holds whatever Number [attempts]
    is, an infinity included. *)
Theorem queryRetry_returns_first_success :
  forall (A : Type) (answer : Z -> outcome A) (attempts : number) (k : Z)
         (msg : Z -> string) (r : A) (fuel : nat),
    0 <= k ->
    lt (VInt k) (VNum attempts) = true ->
    (Z.to_nat k < fuel)%nat ->
    (forall j, 0 <= j < k -> answer j = Throw (msg j)) ->
    answer k = Ok r ->
    Db.queryRetry answer attempts fuel
    = Some (Ok (Some r), Notions.failures msg k ++ [Db.Queried]).
Proof.
  intros A answer attempts k msg r fuel Hk Hbelow Hfuel Hfail Hok. unfold Db.queryRetry.
  rewrite (retry_from_success answer attempts msg (Z.to_nat k) fuel 0 r);
    rewrite ?Z2Nat.id by lia;
    first [assumption | reflexivity | intros j Hj; apply Hfail; lia].
Qed.

Lemma queryRetry_returns_first_success_witness :
  Db.queryRetry (fun i => if i =? 0 then Throw "timeout" else Ok 7) (of_Z 3) 2
  = Some (Ok (Some 7), Notions.failures (fun _ => "timeout"%string) 1 ++ [Db.Queried]).
Proof.
  apply (queryRetry_returns_first_success Z
           (fun i => if i =? 0 then Throw "timeout" else Ok 7) (of_Z 3) 1
           (fun _ => "timeout"%string) 7 2).
  - lia.
  - reflexivity.
  - cbn. lia.
  - intros j Hj. replace j with 0 by lia. reflexivity.
  - reflexivity.
Defined.

(** X6 (lib/db.js, [queryRetry]): when [attempts] is a whole number, one or
    more, and all the attempts fail, the call raises the error of the last
    one, the earlier errors being only warned about; it has queried
    [attempts] times and paused after every failure but the last. *)
Theorem queryRetry_raises_last_error :
  forall (A : Type) (answer : Z -> outcome A) (attempts : number) (n : Z)
         (msg : Z -> string) (fuel : nat),
    1 <= n ->
    num_equal attempts (of_Z n) = true ->
    (Z.to_nat n <= fuel)%nat ->
    (forall j, 0 <= j < n -> answer j = Throw (msg j)) ->
    Db.queryRetry answer attempts fuel
    = Some (Throw (msg (n - 1)), Notions.failures msg (n - 1) ++ [Db.Queried]).
Proof.
  intros A answer attempts n msg fuel Hn Hwhole Hfuel Hfail. unfold Db.queryRetry.
  rewrite (retry_from_exhausted answer attempts msg n (Z.to_nat (n - 1)) Hwhole fuel 0);
    rewrite ?Z2Nat.id by lia; first [lia | reflexivity | assumption].
Qed.

Lemma queryRetry_raises_last_error_witness :
  Db.queryRetry (A := Z) (fun i => Throw (digits i)) (of_Z 3) 3
  = Some (Throw "2"%string, Notions.failures digits 2 ++ [Db.Queried]).
Proof.
  apply (queryRetry_raises_last_error Z (fun i => Throw (digits i)) (of_Z 3) 3 digits 3).
  - lia.
  - reflexivity.
  - cbn. lia.
  - reflexivity.
Defined.

(** X7 (lib/db.js, [queryRetry]): the call returns [undefined] without
    querying exactly when [0 < attempts] fails, that is for zero, a negative
    Number and NaN.  When [attempts] is a whole number, one or more, it never
    returns [undefined]: it returns the rows of a query or raises.  When
    [attempts] lies strictly between the integers [n] and [n + 1] and the
    [n + 1] attempts it allows all fail, no error is raised: the call returns
    [undefined] after [n + 1] queries, each followed by its warning and its
    pause. *)
Theorem queryRetry_undefined_iff_no_attempt :
  forall (A : Type) (answer : Z -> outcome A) (attempts : number),
    (forall fuel : nat,
        (0 < fuel)%nat ->
        (Db.queryRetry answer attempts fuel = Some (Ok None, [])
         <-> lt (VInt 0) (VNum attempts) = false))
    /\ (forall (n : Z) (fuel : nat) res events,
          1 <= n ->
          num_equal attempts (of_Z n) = true ->
          Db.queryRetry answer attempts fuel = Some (res, events) ->
          res <> Ok None)
    /\ (forall (n : Z) (msg : Z -> string) (fuel : nat),
          0 <= n ->
          lt (VInt n) (VNum attempts) = true ->
          lt (VNum attempts) (VInt (n + 1)) = true ->
          (Z.to_nat n + 2 <= fuel)%nat ->
          (forall j, 0 <= j <= n -> answer j = Throw (msg j)) ->
          Db.queryRetry answer attempts fuel = Some (Ok None, Notions.failures msg (n + 1))).
Proof.
  intros A answer attempts. split; [| split].
  - intros fuel Hfuel. destruct fuel as [|fuel]; [lia |].
    unfold Db.queryRetry. rewrite retry_from_S.
    destruct (lt (VInt 0) (VNum attempts)); [| tauto].
    split; [| discriminate].
    destruct (answer 0) as [r | e]; [discriminate |].
    destruct (num_equal _ _); [discriminate |].
    destruct (Db.retry_from answer attempts fuel (0 + 1)) as [[res events]|]; discriminate.
  - intros n fuel res events Hn Hwhole. unfold Db.queryRetry.
    apply (retry_from_defined answer attempts n Hwhole). lia.
  - intros n msg fuel Hn H1 H2 Hfuel Hfail. unfold Db.queryRetry.
    rewrite (retry_from_runs_out answer attempts msg n (Z.to_nat (n + 1)) H1 H2 fuel 0);
      rewrite ?Z2Nat.id by lia; first [lia | reflexivity | assumption].
Qed.

Lemma queryRetry_undefined_iff_no_attempt_witness :
  Db.queryRetry (fun _ : Z => Ok 7) NaN 1 = Some (Ok None, [])
  /\ Db.queryRetry (A := Z) (fun i => Throw (digits i)) (Fin 15 (-1)) 3
     = Some (Ok None, Notions.failures digits 2).
Proof.
  split.
  - apply (proj1 (queryRetry_undefined_iff_no_attempt Z (fun _ => Ok 7) NaN) 1%nat);
      [lia | reflexivity].
  - apply (proj2 (proj2 (queryRetry_undefined_iff_no_attempt Z (fun i => Throw (digits i))
                           (Fin 15 (-1)))) 1 digits 3%nat);
      try reflexivity; cbn; lia.
Defined.

(** ** Timestamps cut to the second *)

Lemma normalizeBucketStart_truthy (v : value) :
  ToBoolean v = true ->
  Ohlcv.normalizeBucketStart v = VStr (str_take 19 (ToString v)).
Proof.
  intros H. unfold Ohlcv.normalizeBucketStart. rewrite H. cbn [negb].
  destruct (19 <=? String.length (ToString v))%nat eqn:E; [reflexivity |].
  apply Nat.leb_gt in E. rewrite str_take_all by lia. reflexivity.
Qed.

(** X8 (core/ohlcv.js [normalizeBucketStart], core/trades.js
    [normalizeCreatedAt]): a falsy timestamp becomes null; any other becomes
    the first 19 code units of its text, a non-empty string.  Normalising
    twice is normalising once, and the two functions agree (on values other
    than [Date] objects). *)
Theorem normalizeBucketStart_keeps_19_code_units :
  forall v : value,
    (ToBoolean v = false -> Ohlcv.normalizeBucketStart v = VNull)
    /\ (ToBoolean v = true ->
        Ohlcv.normalizeBucketStart v = VStr (str_take 19 (ToString v))
        /\ (1 <= String.length (str_take 19 (ToString v)) <= 19)%nat)
    /\ Ohlcv.normalizeBucketStart (Ohlcv.normalizeBucketStart v)
       = Ohlcv.normalizeBucketStart v
    /\ Trades.normalizeCreatedAt v = Ohlcv.normalizeBucketStart v.
Proof.
  intros v.
  assert (Hfalsy : ToBoolean v = false -> Ohlcv.normalizeBucketStart v = VNull).
  { intros H. unfold Ohlcv.normalizeBucketStart. now rewrite H. }
  assert (Hlen : ToBoolean v = true ->
                 (1 <= String.length (str_take 19 (ToString v)) <= 19)%nat).
  { intros H. pose proof (ToString_truthy v H) as Hne. rewrite length_take.
    destruct (ToString v); [congruence | cbn [String.length]; lia]. }
  split; [exact Hfalsy |]. split; [| split; [| reflexivity]].
  - intros H. split; [now apply normalizeBucketStart_truthy | now apply Hlen].
  - destruct (ToBoolean v) eqn:E.
    + rewrite (normalizeBucketStart_truthy v E).
      destruct (Hlen eq_refl) as [H1 H2].
      rewrite normalizeBucketStart_truthy.
      * cbn [ToString]. now rewrite str_take_all.
      * cbn [ToBoolean]. apply negb_true_iff, String.eqb_neq.
        intros H0. rewrite H0 in H1. cbn [String.length] in H1. lia.
    + now rewrite (Hfalsy eq_refl).
Qed.

Lemma normalizeBucketStart_keeps_19_code_units_witness :
  Ohlcv.normalizeBucketStart (VStr "2025-09-27T21:31:14.123456789Z")
  = VStr (str_take 19 (ToString (VStr "2025-09-27T21:31:14.123456789Z")))
  /\ (1 <= String.length (str_take 19 (ToString (VStr "2025-09-27T21:31:14.123456789Z")))
      <= 19)%nat.
Proof.
  apply (normalizeBucketStart_keeps_19_code_units (VStr "2025-09-27T21:31:14.123456789Z")).
  reflexivity.
Defined.

(** ** Ticks of one bucket *)

(** A batch whose inputs all carry the same key builds one row. *)
Lemma absorb_one_key (items : list Candle.CandleInput) (k : string) :
  items <> [] ->
  (forall it, In it items -> Candle.key_of it = k) ->
  exists r, fold_left Candle.absorb items [] = [(k, r)]
            /\ Spec.candle_of items = Some r.
Proof.
  induction items as [|it items IH] using rev_ind; [congruence |].
  intros _ Hkey. rewrite fold_left_snoc, candle_of_snoc.
  assert (Hk : Candle.key_of it = k) by (apply Hkey, in_or_app; right; now left).
  destruct items as [|it0 items].
  - cbn [fold_left Spec.candle_of]. unfold Candle.absorb. rewrite Hk.
    cbn [JSMap.get JSMap.set]. eauto.
  - destruct IH as (r & -> & ->); [discriminate | |].
    { intros x Hx. apply Hkey, in_or_app. now left. }
    unfold Candle.absorb. rewrite Hk. cbn [JSMap.get JSMap.set].
    rewrite String.eqb_refl. eauto.
Qed.

Lemma upsert_key (a : Candle.CandleInput) (s : string) :
  Candle.it_bucket_start a = VStr s -> s <> "" ->
  Candle.key_of (Ohlcv.upsertOHLCV1m a)
  = ToString (Candle.it_pool_id a) +:+ "__" +:+ str_take 19 s.
Proof.
  intros Hs Hne. unfold Candle.key_of, Ohlcv.upsertOHLCV1m.
  cbn [Candle.it_pool_id Candle.it_bucket_start]. rewrite Hs.
  rewrite normalizeBucketStart_truthy; [reflexivity |].
  cbn [ToBoolean]. now apply negb_true_iff, String.eqb_neq.
Qed.

(** X9 (core/ohlcv.js [upsertOHLCV1m], [normalizeBucketStart] and
    [aggregateBatch]): ticks of one pool whose bucket starts are strings with
    the same first 19 code units, whatever follows them, are aggregated into
    a single row: it opens at the first price pushed, closes at the last and
    sums the volumes and the trade counts. *)
Theorem ticks_of_one_bucket_make_one_row :
  forall (ticks : list Candle.CandleInput) (pool : value) (stamp : string),
    ticks <> [] ->
    stamp <> "" ->
    (forall t, In t ticks ->
       Candle.it_pool_id t = pool
       /\ exists s, Candle.it_bucket_start t = VStr s /\ str_take 19 s = stamp) ->
    exists r,
      Ohlcv.aggregateBatch (map Ohlcv.upsertOHLCV1m ticks) = [r]
      /\ Candle.pool_id r = pool
      /\ Candle.bucket_start r = VStr stamp
      /\ Spec.summarises r (map Ohlcv.upsertOHLCV1m ticks).
Proof.
  intros ticks pool stamp Hne Hstamp Hall.
  destruct (absorb_one_key (map Ohlcv.upsertOHLCV1m ticks)
              (ToString pool +:+ "__" +:+ stamp)) as (r & Hfold & Hcandle).
  - destruct ticks; [congruence | discriminate].
  - intros it Hit. apply in_map_iff in Hit as (t & <- & Ht).
    destruct (Hall t Ht) as (Hp & s & Hs & Htake).
    rewrite (upsert_key t s Hs); [now rewrite Hp, Htake |].
    intros ->. now destruct Hstamp.
  - exists r. unfold Ohlcv.aggregateBatch. rewrite Hfold. split; [reflexivity |].
    destruct ticks as [|t0 ticks]; [congruence |]. cbn [map] in Hcandle |- *.
    pose proof (candle_of_group _ _ _ Hcandle) as (H1 & H2 & H3 & H4 & H5 & H6 & H7).
    destruct (Hall t0 (or_introl eq_refl)) as (Hp & s & Hs & Htake).
    split; [| split].
    + rewrite H1. exact Hp.
    + rewrite H2. unfold Ohlcv.upsertOHLCV1m. cbn [Candle.it_bucket_start].
      rewrite Hs, normalizeBucketStart_truthy; [cbn [ToString]; now rewrite Htake |].
      cbn [ToBoolean]. apply negb_true_iff, String.eqb_neq.
      intros ->. now destruct Hstamp.
    + exists (Ohlcv.upsertOHLCV1m t0), (map Ohlcv.upsertOHLCV1m ticks).
      split; [reflexivity |]. repeat (split; [assumption |]). exact H7.
Qed.

Lemma ticks_of_one_bucket_make_one_row_witness :
  exists r,
    Ohlcv.aggregateBatch
      (map Ohlcv.upsertOHLCV1m
         [Sample.tick 1 "2025-09-27T21:31:00.000Z" 10; Sample.tick 1 "2025-09-27T21:31:00" 12])
    = [r]
    /\ Candle.bucket_start r = VStr "2025-09-27T21:31:00".
Proof.
  destruct (ticks_of_one_bucket_make_one_row
              [Sample.tick 1 "2025-09-27T21:31:00.000Z" 10;
               Sample.tick 1 "2025-09-27T21:31:00" 12]
              (VInt 1) "2025-09-27T21:31:00")
    as (r & Hr & _ & Hb & _).
  - discriminate.
  - discriminate.
  - intros t [<- | [<- | []]]; (split; [reflexivity | eexists; split; reflexivity]).
  - exists r. split; [exact Hr | exact Hb].
Defined.

(** ** What a flush persists *)

Lemma aggregateBatch_length (items : list Candle.CandleInput) :
  (length (Ohlcv.aggregateBatch items) <= length items)%nat
  /\ (items <> [] -> Ohlcv.aggregateBatch items <> []).
Proof.
  unfold Ohlcv.aggregateBatch, JSMap.values.
  destruct (keys_absorbed items) as [Hnd Hin].
  unfold JSMap.keys in *. split.
  - rewrite length_map, <- (length_map fst), <- (length_map Candle.key_of items).
    apply List.NoDup_incl_length; [exact Hnd |].
    intros k Hk. apply Hin in Hk as (it & Hit & <-). now apply in_map.
  - intros Hne Hnil. destruct items as [|it items]; [congruence |].
    assert (Hk : In (Candle.key_of it) (map fst (fold_left Candle.absorb (it :: items) []))).
    { apply Hin. exists it. split; [now left | reflexivity]. }
    destruct (fold_left Candle.absorb (it :: items) []); [destruct Hk | discriminate].
Qed.

Lemma flush_rows_length (c : gmap string Ohlcv.LastClose) (items : list Candle.CandleInput) :
  length (snd (Ohlcv.flush_rows c items)) = length (Ohlcv.aggregateBatch items).
Proof.
  rewrite flush_rows_spec, continuity_length.
  apply Permutation_length, sort_perm.
Qed.

(** X10 (core/ohlcv.js [flushFn], both versions): an empty flush sends
    nothing and leaves the cache alone; a flush of at least one item sends
    exactly one INSERT, of at least one row and of no more rows than items,
    with nine arguments per row. *)
Theorem flushFn_sends_one_insert :
  forall (c : gmap string Ohlcv.LastClose),
    Ohlcv.flushFn c [] = (c, Ok None)
    /\ OhlcvPlain.flushFn [] = Ok None
    /\ forall items : list Candle.CandleInput,
        items <> [] ->
        let n := length (Ohlcv.aggregateBatch items) in
        (1 <= n <= length items)%nat
        /\ (exists text args,
              snd (Ohlcv.flushFn c items) = Ok (Some (text, args))
              /\ length args = (9 * n)%nat)
        /\ (exists text args,
              OhlcvPlain.flushFn items = Ok (Some (text, args))
              /\ length args = (9 * n)%nat).
Proof.
  intros c. split; [reflexivity |]. split; [reflexivity |].
  intros items Hne n.
  destruct (aggregateBatch_length items) as [Hle Hnonempty].
  specialize (Hnonempty Hne).
  assert (Hn : (1 <= n)%nat).
  { subst n. destruct (Ohlcv.aggregateBatch items); [congruence | cbn [length]; lia]. }
  assert (Hbuild : forall rows : list Candle.Row,
             length rows = n ->
             exists text args,
               bind (Ohlcv.buildInsertSQL rows)
                    (fun q => match Ohlcv.sql q with
                              | None => Ok None
                              | Some text => Ok (Some (text, Ohlcv.args q))
                              end)
               = Ok (Some (text, args))
               /\ length args = (9 * n)%nat).
  { intros rows Hrows.
    destruct (insert_loop_returns rows 1) as (ph & a & E & _ & Ha).
    unfold Ohlcv.buildInsertSQL. destruct rows as [|r rows]; [cbn [length] in Hrows; lia |].
    rewrite E. cbn [bind Ohlcv.sql Ohlcv.args]. do 2 eexists. split; [reflexivity |].
    now rewrite Ha, Hrows. }
  split; [lia |]. split.
  - unfold Ohlcv.flushFn. destruct items as [|it items]; [congruence |].
    pose proof (flush_rows_length c (it :: items)) as Hlen.
    destruct (Ohlcv.flush_rows c (it :: items)) as [c' agg]. cbn [snd] in *.
    now apply Hbuild.
  - unfold OhlcvPlain.flushFn. destruct items as [|it items]; [congruence |].
    change (OhlcvPlain.aggregateBatch (it :: items))
      with (Ohlcv.aggregateBatch (it :: items)).
    now apply Hbuild.
Qed.

Lemma flushFn_sends_one_insert_witness :
  exists text args,
    snd (Ohlcv.flushFn ∅ [Sample.tick 1 "T0" 10; Sample.tick 1 "T0" 12])
    = Ok (Some (text, args))
    /\ length args = 9%nat.
Proof.
  destruct (proj2 (proj2 (flushFn_sends_one_insert ∅))
              [Sample.tick 1 "T0" 10; Sample.tick 1 "T0" 12])
    as (_ & (text & args & H1 & H2) & _); [discriminate |].
  exists text, args. split; [exact H1 | exact H2].
Defined.

Lemma chained_without_open (prev : option Ohlcv.LastClose) (r : Candle.Row) :
  Notions.without_open (Spec.chained prev r) = Notions.without_open r.
Proof.
  unfold Spec.chained. destruct prev as [p|]; [| reflexivity].
  destruct (str_lt _ _); reflexivity.
Qed.

Lemma continuity_without_open (rows : list Candle.Row) (c : gmap string Ohlcv.LastClose) :
  map Notions.without_open (snd (Ohlcv.continuity c rows))
  = map Notions.without_open rows.
Proof.
  revert c. induction rows as [|r rows IH]; intros c; [reflexivity |].
  cbn [Ohlcv.continuity]. rewrite chain_spec.
  specialize (IH (<[Ohlcv.pool_key r := Spec.entry_of r]> c)).
  destruct (Ohlcv.continuity _ rows) as [c2 rest]. cbn [snd map] in *.
  now rewrite chained_without_open, IH.
Qed.

Lemma in_order_without_open (a b a' b' : Candle.Row) :
  Notions.without_open a = Notions.without_open a' ->
  Notions.without_open b = Notions.without_open b' ->
  Notions.in_order a b -> Notions.in_order a' b'.
Proof.
  intros Ha Hb.
  assert (Hk : forall x y, Notions.without_open x = Notions.without_open y ->
                           Ohlcv.pool_key x = Ohlcv.pool_key y
                           /\ Ohlcv.bucket_ts x = Ohlcv.bucket_ts y).
  { intros x y H. unfold Ohlcv.pool_key, Ohlcv.bucket_ts.
    change (Candle.pool_id x) with (Candle.pool_id (Notions.without_open x)).
    change (Candle.bucket_start x) with (Candle.bucket_start (Notions.without_open x)).
    rewrite H. split; reflexivity. }
  unfold Notions.in_order.
  destruct (Hk a a' Ha) as [-> ->]. destruct (Hk b b' Hb) as [-> ->]. trivial.
Qed.

Lemma sorted_without_open (l l' : list Candle.Row) :
  map Notions.without_open l = map Notions.without_open l' ->
  StronglySorted Notions.in_order l -> StronglySorted Notions.in_order l'.
Proof.
  intros Hmap Hs. revert l' Hmap.
  induction Hs as [|a l Hs IH Ha]; intros [|a' l'] Hmap; try discriminate; [constructor |].
  cbn [map] in Hmap.
  pose proof (f_equal (hd (Notions.without_open a)) Hmap) as Haa.
  pose proof (f_equal (@tl _) Hmap) as Hll. cbn [hd tl] in Haa, Hll.
  constructor; [now apply IH |].
  apply List.Forall_forall. intros b' Hb'.
  assert (Hin : In (Notions.without_open b') (map Notions.without_open l)).
  { rewrite Hll. now apply in_map. }
  apply in_map_iff in Hin as (b & Hb & Hbl).
  apply (in_order_without_open a b a' b' Haa Hb).
  exact (proj1 (List.Forall_forall _ _) Ha b Hbl).
Qed.

Lemma sort_rows_in_order (rows : list Candle.Row) :
  StronglySorted Notions.in_order (JSArray.sort Ohlcv.by_pool_then_bucket rows).
Proof.
  pose proof (sort_rows_sorted rows) as H.
  induction H as [|a l Hs IH Ha]; constructor; [exact IH |].
  apply List.Forall_forall. intros b Hb. apply before_rows.
  exact (proj1 (List.Forall_forall _ _) Ha b Hb).
Qed.

(** X11 (core/ohlcv.js, [flushFn]): the rows a flush persists are the
    aggregated rows put in ascending order of pool and bucket start, both
    compared as texts; the continuity pass drops no row, adds none and
    changes no field other than [open]. *)
Theorem flush_changes_only_open :
  forall (c : gmap string Ohlcv.LastClose) (items : list Candle.CandleInput),
    let sorted := JSArray.sort Ohlcv.by_pool_then_bucket (Ohlcv.aggregateBatch items) in
    let rows := snd (Ohlcv.flush_rows c items) in
    map Notions.without_open rows = map Notions.without_open sorted
    /\ Permutation sorted (Ohlcv.aggregateBatch items)
    /\ StronglySorted Notions.in_order rows.
Proof.
  intros c items sorted rows.
  assert (Hmap : map Notions.without_open rows = map Notions.without_open sorted).
  { subst rows sorted. rewrite flush_rows_spec. apply continuity_without_open. }
  split; [exact Hmap |]. split; [apply sort_perm |].
  apply (sorted_without_open sorted rows); [now symmetry |].
  apply sort_rows_in_order.
Qed.

(** ** Buckets that are not chained *)

Lemma pool_rows_none (k : string) (rows : list Candle.Row) :
  (forall r, In r rows -> Ohlcv.pool_key r <> k) -> Spec.pool_rows k rows = [].
Proof.
  intros H. unfold Spec.pool_rows. apply filter_none_nil.
  intros r Hr. now apply String.eqb_neq, H.
Qed.

(** X12 (core/ohlcv.js, [flushFn]): a row is persisted with the open of its
    own batch when the pool has no recorded close yet, or when the bucket
    recorded last for the pool, by an earlier row or before the first flush,
    is not strictly earlier than the row's own, as for a bucket flushed
    again. *)
Theorem bucket_not_later_keeps_its_open :
  forall (c0 : gmap string Ohlcv.LastClose) (batches : list (list Candle.CandleInput))
         (L1 L3 : list Candle.Row) (B : Candle.Row),
    Spec.processed batches = L1 ++ B :: L3 ->
    ((forall r, In r L1 -> Ohlcv.pool_key r <> Ohlcv.pool_key B)
     /\ (forall prev,
           c0 !! Ohlcv.pool_key B = Some prev ->
           str_lt (Ohlcv.lc_bucket_start prev) (Ohlcv.bucket_ts B) = false))
    \/ (exists L0 B1 L2,
          L1 = L0 ++ B1 :: L2
          /\ Ohlcv.pool_key B1 = Ohlcv.pool_key B
          /\ (forall r, In r L2 -> Ohlcv.pool_key r <> Ohlcv.pool_key B)
          /\ str_lt (Ohlcv.bucket_ts B1) (Ohlcv.bucket_ts B) = false) ->
    exists O1 O3,
      concat (snd (Ohlcv.flushes c0 batches)) = O1 ++ B :: O3
      /\ length O1 = length L1 /\ length O3 = length L3.
Proof.
  intros c0 batches L1 L3 B Hproc Hcase.
  destruct (flushes_spec batches c0) as [_ ->]. rewrite Hproc.
  destruct (continuity_at L1 L3 B c0) as (O1 & O3 & -> & H1 & H3).
  exists O1, O3. split; [| split; assumption].
  do 2 f_equal. unfold Spec.chained.
  destruct Hcase as [[Hnone Hprev] | (L0 & B1 & L2 & -> & Hk & Hnone & Hlt)].
  - unfold Spec.seen. rewrite (pool_rows_none _ _ Hnone). cbn [last].
    destruct (c0 !! Ohlcv.pool_key B) as [prev|]; [| reflexivity].
    now rewrite (Hprev prev eq_refl).
  - rewrite seen_app. unfold Spec.pool_rows at 1. cbn [List.filter].
    rewrite Hk, String.eqb_refl.
    fold (Spec.pool_rows (Ohlcv.pool_key B) L2). rewrite (pool_rows_none _ _ Hnone).
    cbn [last Spec.entry_of Ohlcv.lc_bucket_start]. now rewrite Hlt.
Qed.

Lemma bucket_not_later_keeps_its_open_witness :
  exists O1 O3,
    concat (snd (Ohlcv.flushes ∅ [[Sample.tick 1 "T0" 9]; [Sample.tick 1 "T0" 11]]))
    = O1
      ++ {| Candle.pool_id := VInt 1; Candle.bucket_start := VStr "T0";
            Candle.open := VInt 11; Candle.high := VInt 11; Candle.low := VInt 11;
            Candle.close := VInt 11; Candle.volume_zig := VInt 0;
            Candle.trade_count := VInt 1; Candle.liquidity_zig := VNull |} :: O3
    /\ length O1 = 1%nat /\ length O3 = 0%nat.
Proof.
  apply (bucket_not_later_keeps_its_open ∅
           [[Sample.tick 1 "T0" 9]; [Sample.tick 1 "T0" 11]]
           [ {| Candle.pool_id := VInt 1; Candle.bucket_start := VStr "T0";
                Candle.open := VInt 9; Candle.high := VInt 9; Candle.low := VInt 9;
                Candle.close := VInt 9; Candle.volume_zig := VInt 0;
                Candle.trade_count := VInt 1; Candle.liquidity_zig := VNull |} ]
           []).
  - reflexivity.
  - right.
    exists [], {| Candle.pool_id := VInt 1; Candle.bucket_start := VStr "T0";
                  Candle.open := VInt 9; Candle.high := VInt 9; Candle.low := VInt 9;
                  Candle.close := VInt 9; Candle.volume_zig := VInt 0;
                  Candle.trade_count := VInt 1; Candle.liquidity_zig := VNull |}, [].
    split; [reflexivity |]. split; [reflexivity |]. split; [intros r [] | reflexivity].
Defined.

(** ** The pools of the cache *)

Lemma processed_In (batches : list (list Candle.CandleInput)) (r : Candle.Row) :
  In r (Spec.processed batches) ->
  exists b, In b batches /\ In r (Ohlcv.aggregateBatch b).
Proof.
  unfold Spec.processed. intros H. apply in_concat in H as (l & Hl & Hr).
  apply in_map_iff in Hl as (b & <- & Hb). exists b. split; [exact Hb |].
  exact (proj1 (sort_In _ _ r) Hr).
Qed.

(** X13 (core/ohlcv.js, [lastCloseByPool] in [flushFn]): the cache never
    drops a pool, whatever is flushed; and the entry it holds for a pool
    after some flushes is the one it held before them, or the bucket start
    and the close of a row aggregated for that pool in one of them. *)
Theorem cache_never_drops_a_pool :
  forall (c : gmap string Ohlcv.LastClose) (batches : list (list Candle.CandleInput))
         (k : string),
    let c' := fst (Ohlcv.flushes c batches) in
    (is_Some (c !! k) -> is_Some (c' !! k))
    /\ (forall e,
          c' !! k = Some e ->
          c !! k = Some e
          \/ exists b r,
               In b batches /\ In r (Ohlcv.aggregateBatch b)
               /\ Ohlcv.pool_key r = k /\ e = Spec.entry_of r).
Proof.
  intros c batches k c'. subst c'.
  destruct (flushes_spec batches c) as [-> _]. rewrite continuity_cache.
  unfold Spec.seen.
  destruct (last (Spec.pool_rows k (Spec.processed batches))) as [r|] eqn:E.
  - split; [eauto |]. intros e [= <-]. right.
    apply last_Some_elem_of, list_elem_of_In in E.
    apply filter_In in E as [Hr Hk]. apply String.eqb_eq in Hk.
    destruct (processed_In _ _ Hr) as (b & Hb & Hrb). eauto 6.
  - split; [auto |]. intros e He. now left.
Qed.

Lemma cache_never_drops_a_pool_witness :
  is_Some (fst (Ohlcv.flushes
                  (<["1"%string := {| Ohlcv.lc_bucket_start := "T0"; Ohlcv.lc_close := VInt 9 |}]> ∅)
                  [[Sample.tick 2 "T5" 3]]) !! "1"%string).
Proof.
  apply (cache_never_drops_a_pool
           (<["1"%string := {| Ohlcv.lc_bucket_start := "T0"; Ohlcv.lc_close := VInt 9 |}]> ∅)
           [[Sample.tick 2 "T5" 3]] "1"%string).
  rewrite lookup_insert_eq. eauto.
Defined.

(** ** Amounts of a trade *)

Lemma trim_start_head (s : string) :
  match trim_start s with String c _ => is_ws c = false | EmptyString => True end.
Proof.
  induction s as [|c s IH]; [exact I |]. cbn [trim_start].
  destruct (is_ws c) eqn:E; [exact IH | exact E].
Qed.

Lemma trim_start_suffix (s : string) :
  exists a, s = a +:+ trim_start s.
Proof.
  induction s as [|c s [a IH]]; [now exists ""%string |]. cbn [trim_start].
  destruct (is_ws c).
  - exists (String c a). now rewrite append_cons, <- IH.
  - now exists ""%string.
Qed.

(** Trimming leaves nothing to trim. *)
Lemma trim_idempotent (s : string) : trim (trim s) = trim s.
Proof.
  apply trim_fixed.
  - unfold trim. set (u := trim_start s).
    destruct (trim_start_suffix (String.rev u)) as [a Ha].
    set (t := trim_start (String.rev u)) in *.
    assert (Hu : u = String.rev t +:+ String.rev a).
    { rewrite <- (str_rev_involutive u), Ha. apply str_rev_app_distr. }
    pose proof (trim_start_head s) as Hh. fold u in Hh.
    destruct (String.rev t) as [|c r]; [exact I |].
    rewrite Hu, append_cons in Hh. exact Hh.
  - unfold trim. rewrite str_rev_involutive. apply trim_start_head.
Qed.

(** X14 (core/trades.js, [decOrZero]): an amount is sent as the number 0
    exactly when it is null, undefined or blank, and otherwise as its text
    without surrounding white space; what is sent is never the empty
    string, null or undefined. *)
Theorem trades_decOrZero_never_blank :
  forall v : value,
    (Trades.decOrZero v = VInt 0 <-> is_nullish v = true \/ trim (ToString v) = "")
    /\ (Trades.decOrZero v = VInt 0 \/ Trades.decOrZero v = VStr (trim (ToString v)))
    /\ (forall s, Trades.decOrZero v = VStr s -> s <> "" /\ trim s = s)
    /\ is_nullish (Trades.decOrZero v) = false.
Proof.
  intros v. unfold Trades.decOrZero.
  destruct (is_nullish v) eqn:En.
  { split; [split; auto |]. split; [now left |]. split; [discriminate | reflexivity]. }
  cbn [ToBoolean]. destruct (String.eqb (trim (ToString v)) "") eqn:E; cbn [negb].
  - apply String.eqb_eq in E.
    split; [split; auto |]. split; [now left |]. split; [discriminate | reflexivity].
  - apply String.eqb_neq in E. split; [| split; [now right | split; [| reflexivity]]].
    + split; [discriminate |]. intros [H | H]; [discriminate | congruence].
    + intros s [= <-]. split; [exact E | apply trim_idempotent].
Qed.

Lemma trades_decOrZero_never_blank_witness :
  Trades.decOrZero (VStr "   ") = VInt 0.
Proof.
  apply (trades_decOrZero_never_blank (VStr "   ")). right. reflexivity.
Defined.

(** ** The list of pool ids of the TVL statement *)

Lemma join_cons (x : string) (l : list string) :
  exists rest, JSArray.join "," (x :: l) = x +:+ rest.
Proof.
  destruct l as [|y l]; [exists ""%string; now rewrite str_app_nil_r |].
  now exists ("," +:+ JSArray.join "," (y :: l)).
Qed.

(** X15 (api/util/pool-select.js, [bestUzigPool]): for at least one
    candidate the text spliced into [IN (...)] is the list of the pool ids
    as numbers, separated by commas; it is neither empty nor [NULL], which
    stands for an empty list only. *)
Theorem in_list_of_candidates_is_never_null :
  PoolSelect.in_list [] = "NULL"%string
  /\ forall ids : list value,
       ids <> [] ->
       PoolSelect.in_list ids
       = JSArray.join "," (map (fun id => DoubleToString (ToDouble id)) ids)
       /\ PoolSelect.in_list ids <> ""%string
       /\ PoolSelect.in_list ids <> "NULL"%string.
Proof.
  split; [reflexivity |]. intros ids Hne.
  destruct ids as [|id ids]; [congruence |]. unfold PoolSelect.in_list. cbn [map].
  destruct (join_cons (DoubleToString (ToDouble id))
              (map (fun id => DoubleToString (ToDouble id)) ids)) as [rest ->].
  assert (Hhead : exists c r,
             DoubleToString (ToDouble id) +:+ rest = String c r
             /\ (c <> "N"%char \/ exists r', r = String "a" r')).
  { unfold DoubleToString. destruct (shortest (ToDouble id)) as [| | |m e].
    - exists "N"%char, ("aN" +:+ rest). split; [reflexivity |]. right.
      exists ("N" +:+ rest). reflexivity.
    - exists "I"%char, ("nfinity" +:+ rest). split; [reflexivity |]. now left.
    - exists "-"%char, ("Infinity" +:+ rest). split; [reflexivity |]. now left.
    - destruct (NumberToString_head m e) as (c & r & -> & Hc).
      do 2 eexists. rewrite append_cons. split; [reflexivity |]. left.
      destruct Hc as [Hc | ->]; [| discriminate]. intros ->. discriminate Hc. }
  destruct Hhead as (c & r & -> & Hc).
  unfold or_else. cbn [ToBoolean String.eqb negb ToString].
  split; [reflexivity |]. split; [discriminate |].
  intros H. injection H as -> ->. destruct Hc as [Hc | [r' Hc]]; [congruence | discriminate].
Qed.

Lemma in_list_of_candidates_is_never_null_witness :
  PoolSelect.in_list [VStr "12"; VNull] <> "NULL"%string.
Proof.
  apply (proj2 in_list_of_candidates_is_never_null [VStr "12"; VNull]). discriminate.
Defined.

(** ** The earliest pool *)

Lemma insert_by_perm {A : Type} (key : A -> Z) (x : A) (l : list A) :
  Permutation (Store.insert_by key x l) (x :: l).
Proof.
  induction l as [|y l IH]; cbn [Store.insert_by]; [reflexivity |].
  destruct (key y <? key x); [| reflexivity]. rewrite IH. apply perm_swap.
Qed.

Lemma order_by_perm {A : Type} (key : A -> Z) (l : list A) :
  Permutation (Store.order_by key l) l.
Proof.
  induction l as [|x l IH]; [reflexivity |].
  unfold Store.order_by in *. cbn [foldr]. rewrite insert_by_perm. now constructor.
Qed.

Lemma insert_by_sorted {A : Type} (key : A -> Z) (x : A) (l : list A) :
  StronglySorted (fun a b => key a <= key b) l ->
  StronglySorted (fun a b => key a <= key b) (Store.insert_by key x l).
Proof.
  intros Hs. induction Hs as [|y l Hs IH Hy]; cbn [Store.insert_by].
  - repeat constructor.
  - destruct (key y <? key x) eqn:E.
    + apply Z.ltb_lt in E. constructor; [exact IH |].
      eapply Permutation_Forall; [symmetry; apply insert_by_perm |].
      constructor; [lia | exact Hy].
    + apply Z.ltb_ge in E. constructor; [now constructor |].
      constructor; [exact E |].
      apply List.Forall_forall. intros z Hz.
      pose proof (proj1 (List.Forall_forall _ _) Hy z Hz) as Hyz. cbv beta in Hyz. lia.
Qed.

Lemma order_by_sorted {A : Type} (key : A -> Z) (l : list A) :
  StronglySorted (fun a b => key a <= key b) (Store.order_by key l).
Proof.
  induction l as [|x l IH]; [constructor |].
  change (Store.order_by key (x :: l)) with (Store.insert_by key x (Store.order_by key l)).
  now apply insert_by_sorted.
Qed.

(** The first row of an ascending order has the least key. *)
Lemma order_by_head {A : Type} (key : A -> Z) (l : list A) :
  match Store.order_by key l with
  | [] => l = []
  | x :: _ => In x l /\ forall y, In y l -> key x <= key y
  end.
Proof.
  pose proof (order_by_sorted key l) as Hs. pose proof (order_by_perm key l) as Hp.
  destruct (Store.order_by key l) as [|x rest].
  - now apply Permutation_nil.
  - split; [apply (Permutation_in _ Hp); now left |].
    intros y Hy. apply (Permutation_in _ (Permutation_sym Hp)) in Hy.
    destruct Hy as [<- | Hy]; [lia |].
    apply StronglySorted_inv in Hs as [_ Hall].
    exact (proj1 (List.Forall_forall _ _) Hall y Hy).
Qed.

Lemma falsy_not_first (v : value) :
  ToBoolean v = false -> toLowerCase (ToString v) <> "first"%string.
Proof.
  intros H. destruct (falsy_cases v H) as [-> | [-> | [-> | [-> | [[e ->] | ->]]]]];
    cbn; discriminate.
Qed.

Lemma first_policy_src (priceSource : value) :
  toLowerCase (ToString priceSource) = "first"%string ->
  toLowerCase
    (ToString (or_else match priceSource with VUndefined => VStr "best" | v => v end
                       (VStr "best")))
  = "first"%string.
Proof.
  intros H. destruct (ToBoolean priceSource) eqn:E.
  - destruct priceSource; try discriminate E; unfold or_else; now rewrite E.
  - now apply falsy_not_first in E.
Qed.

(** X16 (api/util/pool-select.js, [firstUzigPool] and the policy [first] of
    [resolvePoolSelection]): on the reference store one statement is issued;
    the pool returned is a UZIG-quoted pool of the token created no later
    than any other, and null is returned exactly when the token has no
    UZIG-quoted pool.  Under the policy [first], in any letter case, this
    pool is the selection, whatever the pool id passed. *)
Theorem firstUzigPool_is_the_earliest :
  forall (T : Store.Tables) (tokenId : value),
    exists result : option PoolSelect.PoolRow,
      PoolSelect.run (PoolSelect.firstUzigPool (Store.db T) tokenId)
      = (Ok result, [PoolSelect.FirstUzigPool tokenId])
      /\ (result = None <->
          forall p, In p (Store.pools T) ->
                    Store.param_is tokenId (Store.p_base_token_id p) = true ->
                    Store.p_is_uzig_quote p = false)
      /\ (forall row,
            result = Some row ->
            exists p,
              In p (Store.pools T)
              /\ row = Store.pool_row p
              /\ Store.param_is tokenId (Store.p_base_token_id p) = true
              /\ Store.p_is_uzig_quote p = true
              /\ forall q,
                   In q (Store.pools T) ->
                   Store.param_is tokenId (Store.p_base_token_id q) = true ->
                   Store.p_is_uzig_quote q = true ->
                   Store.p_created_at p <= Store.p_created_at q)
      /\ (forall priceSource poolId,
            toLowerCase (ToString priceSource) = "first"%string ->
            PoolSelect.run
              (PoolSelect.resolvePoolSelection (Store.db T) tokenId priceSource poolId)
            = (Ok {| PoolSelect.mode := "first";
                     PoolSelect.pool := option_map PoolSelect.of_row result |},
               [PoolSelect.FirstUzigPool tokenId])).
Proof.
  intros T tokenId.
  set (mine := fun p => Store.param_is tokenId (Store.p_base_token_id p)
                        && Store.p_is_uzig_quote p).
  pose proof (order_by_head Store.p_created_at (List.filter mine (Store.pools T))) as Hhead.
  assert (Hrun : PoolSelect.run (PoolSelect.firstUzigPool (Store.db T) tokenId)
                 = (Ok (match Store.order_by Store.p_created_at
                                (List.filter mine (Store.pools T)) with
                        | [] => None
                        | p :: _ => Some (Store.pool_row p)
                        end),
                    [PoolSelect.FirstUzigPool tokenId])).
  { unfold PoolSelect.firstUzigPool, PoolSelect.run, PoolSelect.mbind, PoolSelect.query.
    cbn [Store.db PoolSelect.select_first_uzig_pool app]. unfold Store.first_uzig_pool.
    fold mine. destruct (Store.order_by _ _) as [|p rest]; reflexivity. }
  eexists. split; [exact Hrun |].
  destruct (Store.order_by Store.p_created_at (List.filter mine (Store.pools T)))
    as [|p rest] eqn:E.
  - split; [| split].
    + split; [| reflexivity]. intros _ q Hq Hqt.
      destruct (Store.p_is_uzig_quote q) eqn:Hu; [| reflexivity].
      assert (Hin : In q (List.filter mine (Store.pools T))).
      { apply filter_In. split; [exact Hq |]. subst mine. cbv beta. now rewrite Hqt, Hu. }
      rewrite Hhead in Hin. destruct Hin.
    + discriminate.
    + intros priceSource poolId Hsrc. apply first_policy_src in Hsrc.
      unfold PoolSelect.resolvePoolSelection. rewrite Hsrc.
      change (String.eqb "first" "pool") with false.
      change (String.eqb "first" "first") with true. cbv iota.
      unfold PoolSelect.run, PoolSelect.mbind in *.
      now rewrite Hrun.
  - destruct Hhead as [Hp Hmin]. apply filter_In in Hp as [Hp Hmine].
    subst mine. cbv beta in Hmine. apply andb_true_iff in Hmine as [Ht Hu].
    split; [| split].
    + split; [discriminate |]. intros Hnone. rewrite (Hnone p Hp Ht) in Hu. discriminate.
    + intros row [= <-]. exists p. repeat split; try assumption.
      intros q Hq Hqt Hqu. apply Hmin, filter_In. split; [exact Hq |].
      cbv beta. now rewrite Hqt, Hqu.
    + intros priceSource poolId Hsrc. apply first_policy_src in Hsrc.
      unfold PoolSelect.resolvePoolSelection. rewrite Hsrc.
      change (String.eqb "first" "pool") with false.
      change (String.eqb "first" "first") with true. cbv iota.
      unfold PoolSelect.run, PoolSelect.mbind in *.
      now rewrite Hrun.
Qed.

Lemma firstUzigPool_is_the_earliest_witness :
  exists result : option PoolSelect.PoolRow,
    PoolSelect.run (PoolSelect.firstUzigPool (Store.db Sample.tables) (VInt 7))
    = (Ok result, [PoolSelect.FirstUzigPool (VInt 7)])
    /\ PoolSelect.run
         (PoolSelect.resolvePoolSelection (Store.db Sample.tables) (VInt 7) (VStr "First")
            (VInt 2))
       = (Ok {| PoolSelect.mode := "first";
                PoolSelect.pool := option_map PoolSelect.of_row result |},
          [PoolSelect.FirstUzigPool (VInt 7)]).
Proof.
  destruct (firstUzigPool_is_the_earliest Sample.tables (VInt 7))
    as (result & Hrun & _ & _ & Hpolicy).
  exists result. split; [exact Hrun |]. now apply Hpolicy.
Defined.

(** ** The default policy *)

(** X17 (api/util/pool-select.js, [resolvePoolSelection]): a price source
    that is missing or falsy, or whose text in lower case is neither [pool]
    nor [first], is the policy [best]: the call is the call with
    [priceSource: 'best'], it never reads the pool id, and a selection it
    returns has the mode [best]. *)
Theorem resolvePoolSelection_defaults_to_best :
  forall (db : PoolSelect.DB) (tokenId priceSource poolId : value),
    ToBoolean priceSource = false
    \/ (toLowerCase (ToString priceSource) <> "pool"%string
        /\ toLowerCase (ToString priceSource) <> "first"%string) ->
    PoolSelect.run (PoolSelect.resolvePoolSelection db tokenId priceSource poolId)
    = PoolSelect.run (PoolSelect.resolvePoolSelection db tokenId (VStr "best") VUndefined)
    /\ forall sel log,
         PoolSelect.run (PoolSelect.resolvePoolSelection db tokenId priceSource poolId)
         = (Ok sel, log) ->
         PoolSelect.mode sel = "best"%string.
Proof.
  intros db tokenId priceSource poolId Hsrc.
  set (src := toLowerCase
                (ToString (or_else match priceSource with
                                   | VUndefined => VStr "best"
                                   | v => v
                                   end (VStr "best")))).
  assert (Hs : String.eqb src "pool" = false /\ String.eqb src "first" = false).
  { subst src. destruct (ToBoolean priceSource) eqn:E.
    - destruct Hsrc as [? | [H1 H2]]; [discriminate |].
      assert (or_else match priceSource with VUndefined => VStr "best" | v => v end
                      (VStr "best") = priceSource) as ->.
      { destruct priceSource; try discriminate E; unfold or_else; now rewrite E. }
      split; now apply String.eqb_neq.
    - assert (or_else match priceSource with VUndefined => VStr "best" | v => v end
                      (VStr "best") = VStr "best") as ->.
      { destruct priceSource; try reflexivity; unfold or_else; now rewrite E. }
      split; reflexivity. }
  destruct Hs as [Hp Hf].
  assert (Hrun : PoolSelect.run
                   (PoolSelect.resolvePoolSelection db tokenId priceSource poolId)
                 = PoolSelect.run
                     (PoolSelect.mbind (PoolSelect.bestUzigPool db tokenId)
                        (fun p => PoolSelect.ret
                                    {| PoolSelect.mode := "best";
                                       PoolSelect.pool := option_map PoolSelect.of_best p |}))).
  { unfold PoolSelect.resolvePoolSelection. fold src. now rewrite Hp, Hf. }
  split; [rewrite Hrun; reflexivity |].
  intros sel log. rewrite Hrun. unfold PoolSelect.run, PoolSelect.mbind, PoolSelect.ret.
  destruct (PoolSelect.bestUzigPool db tokenId []) as [[p|err] log'];
    [| discriminate].
  intros [= <- _]. reflexivity.
Qed.

Lemma resolvePoolSelection_defaults_to_best_witness :
  PoolSelect.run
    (PoolSelect.resolvePoolSelection (Store.db Sample.tables) (VInt 7) (VStr "cheapest")
       (VInt 1))
  = PoolSelect.run
      (PoolSelect.resolvePoolSelection (Store.db Sample.tables) (VInt 7) (VStr "best")
         VUndefined).
Proof.
  apply (resolvePoolSelection_defaults_to_best (Store.db Sample.tables) (VInt 7)
           (VStr "cheapest") (VInt 1)).
  right. split; discriminate.
Defined.

(** ** Channels that are no strings *)

(** X18 (lib/pg_notify.js, [pgNotify] and [pgListen] of both versions): a
    channel that is not a string is tested through its text.  So a call
    with no channel at all, or with null, a boolean, NaN or Infinity, passes
    the test, while every finite number and -Infinity is rejected with
    [invalid channel: <text>]. *)
Theorem channel_that_is_no_string :
  (forall v : value,
      In v [VUndefined; VNull; VBool true; VBool false; VNum NaN; VNum PosInfinity] ->
      forall payload emit,
        PgNotifyCommon.CHAN_RX_test v = true
        /\ PgNotifyNoop.pgNotify v payload = (Ok tt, [])
        /\ fst (PgNotifyBus.pgNotify emit v payload) = Ok tt
        /\ fst (PgNotifyNoop.pgListen v) = Ok (PgNotifyCommon.Client v)
        /\ fst (PgNotifyBus.pgListen v) = Ok (PgNotifyCommon.Client v))
  /\ (forall n : number,
        isFinite n = true \/ n = NegInfinity ->
        forall payload emit,
          let raised := Throw ("invalid channel: " +:+ NumberToString n) in
          PgNotifyCommon.CHAN_RX_test (VNum n) = false
          /\ PgNotifyNoop.pgNotify (VNum n) payload = (raised, [])
          /\ PgNotifyBus.pgNotify emit (VNum n) payload = (raised, [])
          /\ PgNotifyNoop.pgListen (VNum n) = (Throw ("invalid channel: " +:+ NumberToString n), [])
          /\ PgNotifyBus.pgListen (VNum n) = (Throw ("invalid channel: " +:+ NumberToString n), [])).
Proof.
  split.
  - intros v Hv payload emit.
    assert (Ht : PgNotifyCommon.CHAN_RX_test v = true).
    { cbn [In] in Hv.
      destruct Hv as [<- | [<- | [<- | [<- | [<- | [<- | []]]]]]]; reflexivity. }
    unfold PgNotifyNoop.pgNotify, PgNotifyBus.pgNotify, PgNotifyNoop.pgListen,
      PgNotifyBus.pgListen. rewrite Ht. cbn [negb fst].
    repeat split. now destruct (emit v payload).
  - intros n Hn payload emit raised.
    assert (Ht : PgNotifyCommon.CHAN_RX_test (VNum n) = false).
    { unfold PgNotifyCommon.CHAN_RX_test. cbn [ToString].
      destruct n as [| | |m e]; try reflexivity.
      - destruct Hn as [Hn | Hn]; discriminate Hn.
      - destruct Hn as [Hn | Hn]; discriminate Hn.
      - destruct (NumberToString_head m e) as (c & r & -> & Hc).
        assert (PgNotifyCommon.ident_start c = false) as ->; [| reflexivity].
        destruct Hc as [Hc | ->]; [| reflexivity].
        destruct (is_digit_cases c Hc)
          as [-> | [-> | [-> | [-> | [-> | [-> | [-> | [-> | [-> | ->]]]]]]]]]; reflexivity. }
    unfold PgNotifyNoop.pgNotify, PgNotifyBus.pgNotify, PgNotifyNoop.pgListen,
      PgNotifyBus.pgListen. rewrite Ht. cbn [negb]. repeat split.
Qed.

Lemma channel_that_is_no_string_witness :
  PgNotifyCommon.CHAN_RX_test VUndefined = true
  /\ PgNotifyCommon.CHAN_RX_test (VNum (Fin 42 0)) = false.
Proof.
  split.
  - apply (proj1 channel_that_is_no_string VUndefined (or_introl eq_refl) VNull
             (fun _ _ => Ok tt)).
  - apply (proj2 channel_that_is_no_string (Fin 42 0) (or_introl eq_refl) VNull
             (fun _ _ => Ok tt)).
Defined.

(** ** Volumes that are strings *)



(** ** The order of the aggregated rows *)

Lemma filter_twice {A : Type} (P Q : A -> bool) (l : list A) :
  List.filter P (List.filter Q l) = List.filter (fun x => Q x && P x) l.
Proof.
  induction l as [|a l IH]; [reflexivity |]. cbn [List.filter].
  destruct (Q a); cbn [List.filter andb]; [destruct (P a) |]; now rewrite IH.
Qed.

Lemma In_existsb_eqb (k : string) (l : list string) :
  existsb (String.eqb k) l = true <-> In k l.
Proof.
  rewrite existsb_exists. split.
  - intros (x & Hx & E). apply String.eqb_eq in E. now subst x.
  - intros H. exists k. split; [exact H | apply String.eqb_refl].
Qed.

(** The keys of the map once a batch is absorbed: those it had, then the
    new ones in the order of their first input. *)
Lemma keys_absorbed_order (items : list Candle.CandleInput) :
  forall m : JSMap.t Candle.Row,
    JSMap.keys (fold_left Candle.absorb items m)
    = JSMap.keys m
      ++ List.filter (fun k => negb (existsb (String.eqb k) (JSMap.keys m)))
           (Notions.first_occurrences (map Candle.key_of items)).
Proof.
  induction items as [|it items IH]; intros m.
  - cbn [fold_left map Notions.first_occurrences List.filter]. now rewrite app_nil_r.
  - cbn [fold_left map Notions.first_occurrences]. rewrite IH. clear IH.
    set (k := Candle.key_of it). set (fo := Notions.first_occurrences _).
    unfold Candle.absorb. fold k.
    destruct (JSMap.get k m) as [row|] eqn:E.
    + rewrite (keys_set_present _ _ _ _ E). f_equal.
      assert (Hin : existsb (String.eqb k) (JSMap.keys m) = true).
      { apply In_existsb_eqb.
        destruct (in_dec string_dec k (JSMap.keys m)) as [H | H]; [exact H |].
        apply get_None_keys in H. congruence. }
      cbn [List.filter]. rewrite Hin. cbn [negb]. rewrite filter_twice.
      apply filter_ext. intros x. destruct (String.eqb x k) eqn:Ex; [| reflexivity].
      apply String.eqb_eq in Ex. subst x. now rewrite Hin.
    + rewrite (keys_set_fresh _ _ _ E), <- app_assoc. f_equal.
      assert (Hout : existsb (String.eqb k) (JSMap.keys m) = false).
      { destruct (existsb (String.eqb k) (JSMap.keys m)) eqn:Hx; [| reflexivity].
        apply In_existsb_eqb in Hx. now apply get_None_keys in E. }
      cbn [List.filter app]. rewrite Hout. cbn [negb]. f_equal.
      rewrite filter_twice. apply filter_ext. intros x.
      rewrite existsb_app. cbn [existsb]. rewrite orb_false_r.
      destruct (String.eqb x k); [now rewrite orb_true_r | now rewrite orb_false_r].
Qed.

(** X20 (core/ohlcv.js, [aggregateBatch] of both versions): the rows come
    out in the order in which the first input of each candle was pushed,
    one row for each distinct key [pool_id__bucket_start], the key of a row
    being the one of its inputs; this is the order of the rows of the INSERT
    in the version without the continuity pass. *)
Theorem aggregateBatch_keeps_first_appearance_order :
  forall items : list Candle.CandleInput,
    map Notions.row_key (Ohlcv.aggregateBatch items)
    = Notions.first_occurrences (map Candle.key_of items)
    /\ map Notions.row_key (OhlcvPlain.aggregateBatch items)
       = Notions.first_occurrences (map Candle.key_of items).
Proof.
  intros items.
  change (OhlcvPlain.aggregateBatch items) with (Ohlcv.aggregateBatch items).
  enough (H : map Notions.row_key (Ohlcv.aggregateBatch items)
              = Notions.first_occurrences (map Candle.key_of items)) by now split.
  pose proof (keys_absorbed_order items []) as Hkeys.
  cbn [JSMap.keys map app existsb negb] in Hkeys.
  assert (Hall : List.filter (fun _ : string => true)
                   (Notions.first_occurrences (map Candle.key_of items))
                 = Notions.first_occurrences (map Candle.key_of items)).
  { generalize (Notions.first_occurrences (map Candle.key_of items)).
    intros l. induction l as [|a l IH]; [reflexivity |]. cbn [List.filter]. now rewrite IH. }
  rewrite Hall in Hkeys. rewrite <- Hkeys.
  unfold Ohlcv.aggregateBatch, JSMap.values, JSMap.keys. rewrite map_map.
  apply map_ext_in. intros [k r] Hin. cbn [fst snd].
  destruct (absorbed_binding items k r Hin) as (first & rest & _ & _ & _ & <- & Hg).
  unfold Spec.row_group, Spec.group_of in Hg. injection Hg as Hp Hb.
  unfold Notions.row_key, Candle.key_of. now rewrite Hp, Hb.
Qed.

(** ** Several TVL rows for one pool *)

Lemma tvl_map_other (tvls : list PoolSelect.TvlRow) (k : string) (m : gmap string number) :
  (forall t, In t tvls -> ToString (PoolSelect.tv_pool_id t) <> k) ->
  fold_left
    (fun m r => <[ToString (PoolSelect.tv_pool_id r)
                  := ToDouble (or_else (PoolSelect.tv_tvl_zig r) (VInt 0))]> m)
    tvls m !! k
  = m !! k.
Proof.
  revert m. induction tvls as [|t tvls IH]; intros m H; [reflexivity |].
  cbn [fold_left]. rewrite IH by (intros t' Ht'; apply H; now right).
  apply lookup_insert_ne, H. now left.
Qed.

(** X21 (api/util/pool-select.js, [bestUzigPool]): the TVL rows are keyed
    by the text of their pool id, so that 1 and "1" are one pool; when
    several rows come for a pool the last one returned counts, and a TVL that
    is missing, zero or no number counts for zero. *)
Theorem tvl_of_last_row_counts :
  forall (l1 l2 : list PoolSelect.TvlRow) (t : PoolSelect.TvlRow) (r : PoolSelect.PriceRow),
    ToString (PoolSelect.tv_pool_id t) = ToString (PoolSelect.pr_pool_id r) ->
    (forall t', In t' l2 ->
                ToString (PoolSelect.tv_pool_id t') <> ToString (PoolSelect.pr_pool_id r)) ->
    let n := ToDouble (or_else (PoolSelect.tv_tvl_zig t) (VInt 0)) in
    Spec.tvl_in (l1 ++ t :: l2) r = or_else (VNum n) (VInt 0)
    /\ (ToBoolean (PoolSelect.tv_tvl_zig t) = false \/ n = NaN ->
        Spec.tvl_in (l1 ++ t :: l2) r = VInt 0).
Proof.
  intros l1 l2 t r Hkey Hlast n.
  assert (H : Spec.tvl_in (l1 ++ t :: l2) r = or_else (VNum n) (VInt 0)).
  { unfold Spec.tvl_in, PoolSelect.tvl_of, PoolSelect.tvl_map.
    rewrite fold_left_app. cbn [fold_left].
    rewrite tvl_map_other by exact Hlast.
    now rewrite Hkey, lookup_insert_eq. }
  split; [exact H |]. rewrite H. intros [Hf | Hn].
  - subst n. unfold or_else at 2. rewrite Hf. reflexivity.
  - rewrite Hn. reflexivity.
Qed.

Lemma tvl_of_last_row_counts_witness :
  Spec.tvl_in
    ([ {| PoolSelect.tv_pool_id := VInt 1; PoolSelect.tv_tvl_zig := VStr "100" |} ]
     ++ {| PoolSelect.tv_pool_id := VStr "1"; PoolSelect.tv_tvl_zig := VStr "250.5" |} :: [])
    {| PoolSelect.pr_pool_id := VInt 1; PoolSelect.pr_price_in_zig := VStr "5";
       PoolSelect.pr_updated_at := VNull; PoolSelect.pr_pair_contract := VStr "A" |}
  = or_else (VNum (ToDouble (or_else (VStr "250.5") (VInt 0)))) (VInt 0).
Proof.
  apply (tvl_of_last_row_counts
           [ {| PoolSelect.tv_pool_id := VInt 1; PoolSelect.tv_tvl_zig := VStr "100" |} ] []
           {| PoolSelect.tv_pool_id := VStr "1"; PoolSelect.tv_tvl_zig := VStr "250.5" |}
           {| PoolSelect.pr_pool_id := VInt 1; PoolSelect.pr_price_in_zig := VStr "5";
              PoolSelect.pr_updated_at := VNull; PoolSelect.pr_pair_contract := VStr "A" |}).
  - reflexivity.
  - intros t' [].
Defined.


(** ** The statements of the pool selection, as sent *)

Lemma trim_start_keeps_from (a : string) (c : ascii) (x : string) :
  is_ws c = false -> exists y, trim_start (a +:+ String c x) = y +:+ String c x.
Proof.
  intros Hc. induction a as [|d a [y IH]].
  - exists ""%string. rewrite !append_nil. cbn [trim_start]. now rewrite Hc.
  - rewrite append_cons. cbn [trim_start]. destruct (is_ws d).
    + now exists y.
    + exists (String d a). now rewrite append_cons.
Qed.

(** Trimming keeps what the text starts with after its white space, up to
    a character that is no white space. *)
Lemma trim_prefix (s p : string) (c : ascii) (r : string) :
  trim_start s = (p +:+ String c "") +:+ r -> is_ws c = false ->
  exists r', trim s = (p +:+ String c "") +:+ r'.
Proof.
  intros E Hc. unfold trim. rewrite E, str_rev_app_distr.
  replace (String.rev (p +:+ String c "")) with (String c (String.rev p))
    by (now rewrite str_rev_app_distr).
  destruct (trim_start_keeps_from (String.rev r) c (String.rev p) Hc) as [y ->].
  rewrite str_rev_app_distr, str_rev_cons, str_rev_involutive.
  now exists (String.rev y).
Qed.

Lemma tvl_24h_is_select (ids : string) :
  Db.isSelect (trim (PoolSelectText.tvl_24h ids)) = true.
Proof.
  destruct (trim_prefix (PoolSelectText.tvl_24h ids) "SELECT " "p"
              ("ool_id, tvl_zig
    FROM pool_matrix
    WHERE bucket='24h' AND pool_id IN (" +:+ ids +:+ ")
    ")) as [r' ->]; reflexivity.
Qed.

(** X22 (api/util/pool-select.js with lib/db.js, [DB.query] and
    [prepareQuery]): every statement of the pool selection is sent to the
    client as a query, so that its rows are read.  The four statements with
    arguments are sent without any placeholder left, [query_params] binding
    [p1], and [p2] where there are two arguments, each to its argument and
    nothing else; the statement of the TVL rows is sent as it is written,
    without [query_params]. *)
Theorem pool_select_statements_are_queries :
  forall q : PoolSelect.issued,
    let sql := fst (PoolSelectText.call q) in
    let args := snd (PoolSelectText.call q) in
    exists (text : string) (qp : option Db.query_params),
      Db.request_of sql args = Db.ClientQuery text qp
      /\ match q with
         | PoolSelect.FirstUzigPool tokenId | PoolSelect.RecentPrices tokenId =>
             Notions.has_placeholder text = false
             /\ qp = Some {[ "p1"%string := Db.stored tokenId ]}
         | PoolSelect.Tvl24h ids => text = sql /\ qp = None
         | PoolSelect.PoolOfToken a b | PoolSelect.Change a b =>
             Notions.has_placeholder text = false
             /\ qp = Some (<[ "p1"%string := Db.stored a ]> {[ "p2"%string := Db.stored b ]})
         end.
Proof.
  intros q sql args. subst sql args.
  exists (Db.text (Db.prepareQuery (fst (PoolSelectText.call q)) (snd (PoolSelectText.call q)))),
         (Db.query_params_of
            (Db.prepareQuery (fst (PoolSelectText.call q)) (snd (PoolSelectText.call q)))).
  destruct q as [t | t | ids | a b | a b]; cbn [PoolSelectText.call fst snd].
  3: { unfold Db.request_of. rewrite tvl_24h_is_select. now repeat split. }
  all: repeat split; vm_compute; reflexivity.
Qed.

(* ================================================================== *)
(** * Part IV: properties that rest on the Numbers the engine reads *)
(* ================================================================== *)

(** ** Binary64 *)

(** The Numbers some texts are read as, as exact decimals. *)
Example round64_examples :
  map (fun '(s, x) => num_compare (ToDouble (VStr s)) x)
      [ ("5", Fin 5 0); ("0.5", Fin 5 (-1)); ("5.000000000000000001", Fin 5 0);
        ("9007199254740993", Fin 9007199254740992 0);
        ("0.1", Fin 1000000000000000055511151231257827021181583404541015625 (-55));
        ("1e400", PosInfinity); ("-1e400", NegInfinity); ("1e-400", Fin 0 0);
        ("abc", Fin 0 0) ]%string
  = [Some Eq; Some Eq; Some Eq; Some Eq; Some Eq; Some Eq; Some Eq; Some Eq; None].
Proof. vm_compute. reflexivity. Qed.

Example DoubleToString_examples :
  map (fun s => DoubleToString (ToDouble (VStr s)))
      ["5"; "0.1"; "2.50"; "5.000000000000000001"; "9007199254740993";
       "4611686018427387904"; "1e21"; "123456789012345680000"; "1e-7"; "0.000001";
       "3.14159265358979323846"; "1e400"; "abc"]%string
  = ["5"; "0.1"; "2.5"; "5"; "9007199254740992"; "4611686018427388000"; "1e+21";
     "123456789012345680000"; "1e-7"; "0.000001"; "3.141592653589793"; "Infinity";
     "NaN"]%string.
Proof. vm_compute. reflexivity. Qed.

(** 0.1 + 0.2 *)
Example sum_of_doubles :
  DoubleToString (round64 (num_add (ToDouble (VStr "0.1")) (ToDouble (VStr "0.2"))))
  = "0.30000000000000004"%string.
Proof. vm_compute. reflexivity. Qed.

(** [div_nearest_even n d] is an integer nearest to [n / d]. *)
Lemma div_nearest_even_near (n d : Z) :
  0 < d -> - d <= 2 * (n - div_nearest_even n d * d) <= d.
Proof.
  intros Hd. unfold div_nearest_even.
  pose proof (Z.div_mod n d ltac:(lia)) as Hdm.
  pose proof (Z.mod_pos_bound n d Hd) as Hb.
  destruct (Z.compare_spec (2 * (n mod d)) d) as [H | H | H];
    [destruct (Z.even (n / d)) | |]; nia.
Qed.

(** On a tie the even neighbour is taken. *)
Lemma div_nearest_even_tie (n d : Z) :
  0 < d -> 2 * (n mod d) = d -> Z.even (div_nearest_even n d) = true.
Proof.
  intros Hd H. unfold div_nearest_even. rewrite H, Z.compare_refl.
  destruct (Z.even (n / d)) eqn:E; [exact E |].
  rewrite Z.even_add, E. reflexivity.
Qed.

(** [log2_ratio a b] is the exponent [p] with [2^p <= a / b < 2^(p+1)]. *)
Lemma log2_ratio_spec (a b : Z) :
  0 < a -> 0 < b ->
  let p := log2_ratio a b in
  b * 2 ^ Z.max p 0 <= a * 2 ^ Z.max (- p) 0 < 2 * (b * 2 ^ Z.max p 0).
Proof.
  intros Ha Hb p. subst p. unfold log2_ratio. cbv zeta.
  pose proof (Z.log2_spec a Ha) as [Hla Hla'].
  pose proof (Z.log2_spec b Hb) as [Hlb Hlb'].
  pose proof (Z.log2_nonneg a) as Hla0. pose proof (Z.log2_nonneg b) as Hlb0.
  set (la := Z.log2 a) in *. set (lb := Z.log2 b) in *.
  rewrite Z.pow_succ_r in Hla', Hlb' by lia.
  destruct (0 <=? la - lb) eqn:Hl; [apply Z.leb_le in Hl | apply Z.leb_gt in Hl].
  - assert (E : 2 ^ la = 2 ^ lb * 2 ^ (la - lb))
      by (rewrite <- Z.pow_add_r by lia; f_equal; lia).
    assert (P : 0 < 2 ^ (la - lb)) by (apply Z.pow_pos_nonneg; lia).
    set (X := 2 ^ lb) in *. set (Y := 2 ^ la) in *.
    destruct (b * 2 ^ (la - lb) <=? a) eqn:Hr;
      [apply Z.leb_le in Hr | apply Z.leb_gt in Hr].
    + rewrite !Z.max_l, Z.max_r by lia. rewrite Z.pow_0_r.
      set (W := 2 ^ (la - lb)) in *.
      clearbody W X Y. assert (X * W <= b * W) by nia. lia.
    + destruct (Z.eq_dec (la - lb) 0) as [E0 | E0].
      * replace (la - lb - 1) with (-1) by lia. rewrite E0, Z.pow_0_r in *.
        change (2 ^ Z.max (-1) 0) with 1. change (2 ^ Z.max (- -1) 0) with 2.
        clearbody X Y. lia.
      * rewrite (Z.max_l (la - lb - 1)), Z.max_r by lia. rewrite Z.pow_0_r.
        assert (E' : 2 ^ (la - lb) = 2 * 2 ^ (la - lb - 1))
          by (rewrite <- Z.pow_succ_r by lia; f_equal; lia).
        set (W := 2 ^ (la - lb - 1)) in *. rewrite E' in *.
        clearbody W X Y. assert (0 < W) by lia.
        assert (b * W < 2 * X * W) by nia. lia.
  - assert (E : 2 ^ lb = 2 ^ la * 2 ^ (- (la - lb)))
      by (rewrite <- Z.pow_add_r by lia; f_equal; lia).
    assert (P : 0 < 2 ^ (- (la - lb))) by (apply Z.pow_pos_nonneg; lia).
    set (X := 2 ^ lb) in *. set (Y := 2 ^ la) in *.
    destruct (b <=? a * 2 ^ (- (la - lb))) eqn:Hr;
      [apply Z.leb_le in Hr | apply Z.leb_gt in Hr].
    + rewrite Z.max_r, Z.max_l by lia. rewrite Z.pow_0_r.
      set (W := 2 ^ (- (la - lb))) in *.
      clearbody W X Y. assert (a * W < 2 * Y * W) by nia. lia.
    + rewrite Z.max_r, Z.max_l by lia. rewrite Z.pow_0_r.
      replace (- (la - lb - 1)) with (Z.succ (- (la - lb))) by lia.
      rewrite Z.pow_succ_r by lia.
      set (W := 2 ^ (- (la - lb))) in *.
      clearbody W X Y. assert (Y * W <= a * W) by nia. lia.
Qed.

Lemma div_nearest_even_1 (n : Z) : div_nearest_even n 1 = n.
Proof.
  unfold div_nearest_even. rewrite Z.mod_1_r, Z.div_1_r. reflexivity.
Qed.

(** An integer below 2^53 is a Number: it is read as it is. *)
Lemma binary64_of_integer (n : Z) :
  0 < n < 2 ^ 53 -> binary64_of_ratio n 1 = Fin n 0.
Proof.
  intros Hn. unfold binary64_of_ratio.
  pose proof (log2_ratio_spec n 1 ltac:(lia) ltac:(lia)) as Hp. cbv zeta in Hp.
  set (p := log2_ratio n 1) in *.
  assert (Hp0 : 0 <= p).
  { destruct (Z.lt_ge_cases p 0) as [Hneg | H]; [| exact H]. exfalso.
    rewrite Z.max_r, Z.max_l in Hp by lia. rewrite Z.pow_0_r in Hp.
    assert (2 <= 2 ^ (- p)).
    { replace (- p) with (Z.succ (- p - 1)) by lia. rewrite Z.pow_succ_r by lia.
      assert (0 < 2 ^ (- p - 1)) by (apply Z.pow_pos_nonneg; lia). lia. }
    nia. }
  rewrite Z.max_l, Z.max_r in Hp by lia. rewrite Z.pow_0_r in Hp.
  assert (Hp52 : p <= 52).
  { destruct (Z.le_gt_cases p 52) as [H | H]; [exact H |]. exfalso.
    assert (2 ^ 53 <= 2 ^ p) by (apply Z.pow_le_mono_r; lia). lia. }
  rewrite Z.max_r by lia.
  destruct (0 <=? p - 52) eqn:HE; [apply Z.leb_le in HE | apply Z.leb_gt in HE].
  - replace (p - 52) with 0 by lia. rewrite Z.pow_0_r, !Z.mul_1_r, div_nearest_even_1.
    destruct (2 ^ 1024 <=? n) eqn:Hov; [| reflexivity].
    apply Z.leb_le in Hov.
    assert (2 ^ 53 <= 2 ^ 1024) by (apply Z.pow_le_mono_r; lia). lia.
  - rewrite div_nearest_even_1.
    assert (P : 0 < 2 ^ (- (p - 52))) by (apply Z.pow_pos_nonneg; lia).
    rewrite Z.mod_mul by lia. cbn [Z.eqb]. now rewrite Z.div_mul by lia.
Qed.

Lemma round64_integer (n : Z) : Z.abs n < 2 ^ 53 -> round64 (Fin n 0) = Fin n 0.
Proof.
  intros Hn. cbn [round64]. destruct (Z.eqb_spec n 0) as [-> | Hne]; [reflexivity |].
  change (0 <=? 0) with true. cbv iota. rewrite Z.pow_0_r, Z.mul_1_r.
  rewrite binary64_of_integer by lia.
  destruct (Z.ltb_spec n 0); cbn [num_neg]; f_equal; lia.
Qed.

Lemma pow10_pos (e : Z) : 0 <= e -> 0 < 10 ^ e.
Proof. intros H. apply Z.pow_pos_nonneg; lia. Qed.

Lemma div_nearest_even_bounds (n d : Z) :
  0 <= n -> 0 < d -> n / d <= div_nearest_even n d <= n / d + 1.
Proof.
  intros Hn Hd. unfold div_nearest_even.
  destruct (2 * (n mod d) ?= d); [destruct (Z.even (n / d)) | |]; lia.
Qed.

Lemma div_nearest_even_pos (n d : Z) :
  0 < d -> d <= n -> 1 <= div_nearest_even n d.
Proof.
  intros Hd Hn. pose proof (div_nearest_even_bounds n d ltac:(lia) Hd) as [H _].
  assert (1 <= n / d) by (apply Z.div_le_lower_bound; lia). lia.
Qed.

Lemma div_nearest_even_nonneg (n d : Z) :
  0 <= n -> 0 < d -> 0 <= div_nearest_even n d.
Proof.
  intros Hn Hd. pose proof (div_nearest_even_bounds n d Hn Hd) as [H _].
  assert (0 <= n / d) by (apply Z.div_pos; lia). lia.
Qed.

Lemma log2_ratio_le (a b : Z) : log2_ratio a b <= Z.log2 a - Z.log2 b.
Proof. unfold log2_ratio. destruct (if 0 <=? _ then _ else _); lia. Qed.

Lemma binary64_of_ratio_not_negative (a b : Z) :
  0 < a -> 0 < b -> Binary64.not_negative (binary64_of_ratio a b).
Proof.
  intros Ha Hb. unfold binary64_of_ratio.
  set (E := Z.max (-1074) (log2_ratio a b - 52)).
  destruct (0 <=? E) eqn:HE.
  - apply Z.leb_le in HE.
    assert (H2 : 0 < 2 ^ E) by (apply Z.pow_pos_nonneg; lia).
    pose proof (div_nearest_even_nonneg a (b * 2 ^ E) ltac:(lia) ltac:(nia)) as HM.
    destruct (2 ^ 1024 <=? _); [exact I |]. cbn. nia.
  - apply Z.leb_gt in HE.
    assert (H2 : 0 < 2 ^ (- E)) by (apply Z.pow_pos_nonneg; lia).
    pose proof (div_nearest_even_nonneg (a * 2 ^ (- E)) b ltac:(nia) Hb) as HM.
    destruct (_ mod _ =? 0); cbn.
    + apply Z.div_pos; lia.
    + assert (0 < 5 ^ (- E)) by (apply Z.pow_pos_nonneg; lia). nia.
Qed.

(** A ratio of one unit of the grid or more is not rounded to zero. *)
Lemma binary64_of_ratio_positive (a b : Z) :
  0 < a -> 0 < b -> b <= a * 2 ^ 1074 -> Binary64.positive (binary64_of_ratio a b).
Proof.
  intros Ha Hb Hunit. unfold binary64_of_ratio.
  pose proof (log2_ratio_le a b) as Hp.
  pose proof (Z.log2_spec a Ha) as [Hla _].
  pose proof (Z.log2_spec b Hb) as [_ Hlb].
  pose proof (Z.log2_nonneg a) as Hla0. pose proof (Z.log2_nonneg b) as Hlb0.
  set (la := Z.log2 a) in *. set (lb := Z.log2 b) in *.
  pose proof (Z.max_spec (-1074) (log2_ratio a b - 52)) as HEq.
  set (E := Z.max (-1074) (log2_ratio a b - 52)) in *.
  destruct (0 <=? E) eqn:HE.
  - apply Z.leb_le in HE.
    assert (H2 : 0 < 2 ^ E) by (apply Z.pow_pos_nonneg; lia).
    assert (Hle : b * 2 ^ E <= a).
    { assert (H : b * 2 ^ E <= 2 ^ (Z.succ lb) * 2 ^ E) by nia.
      rewrite <- Z.pow_add_r in H by lia.
      assert (2 ^ (Z.succ lb + E) <= 2 ^ la) by (apply Z.pow_le_mono_r; lia).
      lia. }
    pose proof (div_nearest_even_pos a (b * 2 ^ E) ltac:(nia) Hle) as HM.
    destruct (2 ^ 1024 <=? _); [exact I |]. cbn. nia.
  - apply Z.leb_gt in HE.
    assert (H2 : 0 < 2 ^ (- E)) by (apply Z.pow_pos_nonneg; lia).
    assert (Hle : b <= a * 2 ^ (- E)).
    { destruct HEq as [[Hlt HEq] | [Hge HEq]].
      - assert (H : b <= 2 ^ (la - E)).
        { assert (2 ^ (Z.succ lb) <= 2 ^ (la - E)) by (apply Z.pow_le_mono_r; lia). lia. }
        replace (la - E) with (la + - E) in H by lia.
        rewrite Z.pow_add_r in H by lia. nia.
      - rewrite HEq. exact Hunit. }
    pose proof (div_nearest_even_pos (a * 2 ^ (- E)) b Hb Hle) as HM.
    destruct (_ mod _ =? 0) eqn:Hmod; cbn.
    + apply Z.eqb_eq in Hmod. apply Z.div_str_pos. split; [lia |].
      apply Z.mod_divide in Hmod; [| lia]. destruct Hmod as [q Hq].
      rewrite Hq in HM |- *. set (P := 2 ^ (- E)) in *.
      assert (0 < q) by nia. nia.
    + assert (0 < 5 ^ (- E)) by (apply Z.pow_pos_nonneg; lia). nia.
Qed.

Lemma binary64_of_ratio_grid (a b : Z) : Binary64.on_grid (binary64_of_ratio a b).
Proof.
  unfold binary64_of_ratio.
  set (E := Z.max (-1074) (log2_ratio a b - 52)).
  destruct (0 <=? E) eqn:HE.
  - destruct (2 ^ 1024 <=? _); [exact I |]. cbn. lia.
  - apply Z.leb_gt in HE. destruct (_ mod _ =? 0); cbn; [lia |]. intros _.
    set (M := div_nearest_even _ _).
    exists (M * 2 ^ (1074 + E)).
    replace (10 ^ (- E)) with (5 ^ (- E) * 2 ^ (- E))
      by (rewrite <- Z.pow_mul_l; reflexivity).
    replace (2 ^ 1074) with (2 ^ (1074 + E) * 2 ^ (- E))
      by (rewrite <- Z.pow_add_r by lia; f_equal; lia).
    ring.
Qed.

Lemma on_grid_neg (x : number) : Binary64.on_grid x -> Binary64.on_grid (num_neg x).
Proof.
  destruct x as [| | |m e]; cbn; auto. intros H He. destruct (H He) as [N HN].
  exists (- N). lia.
Qed.

(** A Number is on the grid. *)
Lemma round64_grid (x : number) : Binary64.on_grid (round64 x).
Proof.
  destruct x as [| | |m e]; cbn [round64]; try exact I.
  destruct (m =? 0); [cbn; lia |].
  assert (H : Binary64.on_grid
                (if 0 <=? e then binary64_of_ratio (Z.abs m * 10 ^ e) 1
                 else binary64_of_ratio (Z.abs m) (10 ^ (- e))))
    by (destruct (0 <=? e); apply binary64_of_ratio_grid).
  destruct (m <? 0); [now apply on_grid_neg | exact H].
Qed.

Lemma round64_not_NaN (x : number) : x <> NaN -> round64 x <> NaN.
Proof.
  destruct x as [| | |m e]; cbn [round64]; try congruence. intros _.
  destruct (m =? 0) eqn:E0; [discriminate |]. apply Z.eqb_neq in E0.
  assert (H : Binary64.not_negative
                (if 0 <=? e then binary64_of_ratio (Z.abs m * 10 ^ e) 1
                 else binary64_of_ratio (Z.abs m) (10 ^ (- e)))).
  { pose proof (pow10_pos e) as P1. pose proof (pow10_pos (- e)) as P2.
    destruct (0 <=? e) eqn:He;
      [apply Z.leb_le in He | apply Z.leb_gt in He];
      apply binary64_of_ratio_not_negative; nia. }
  destruct (if 0 <=? e then _ else _) as [| | |m' e']; cbn in H; try contradiction;
    destruct (m <? 0); discriminate.
Qed.

(** Rounding a Number of the grid keeps its sign: a difference of two
    Numbers that differ is not rounded to zero. *)
Lemma round64_sign (x : number) :
  Binary64.on_grid x -> JSArray.comes_after (round64 x) = JSArray.comes_after x.
Proof.
  destruct x as [| | |m e]; try reflexivity. intros Hg. rewrite comes_after_Fin.
  cbn [round64]. destruct (m =? 0) eqn:E0.
  { apply Z.eqb_eq in E0. subst m. reflexivity. }
  apply Z.eqb_neq in E0.
  set (r := if 0 <=? e then binary64_of_ratio (Z.abs m * 10 ^ e) 1
            else binary64_of_ratio (Z.abs m) (10 ^ (- e))).
  destruct (m <? 0) eqn:Hneg.
  - apply Z.ltb_lt in Hneg.
    assert (H : Binary64.not_negative r).
    { subst r. pose proof (pow10_pos e) as P1. pose proof (pow10_pos (- e)) as P2.
      destruct (0 <=? e) eqn:He;
        [apply Z.leb_le in He | apply Z.leb_gt in He];
        apply binary64_of_ratio_not_negative; nia. }
    destruct r as [| | |m' e']; cbn in H; try contradiction.
    + cbn. symmetry. apply Z.ltb_ge. lia.
    + cbn [num_neg]. rewrite comes_after_Fin.
      transitivity false; [apply Z.ltb_ge; lia | symmetry; apply Z.ltb_ge; lia].
  - apply Z.ltb_ge in Hneg.
    assert (H : Binary64.positive r).
    { subst r. pose proof (pow10_pos e) as P1. pose proof (pow10_pos (- e)) as P2.
      assert (P3 : 0 < 2 ^ 1074) by (apply Z.pow_pos_nonneg; lia).
      destruct (0 <=? e) eqn:He; [apply Z.leb_le in He | apply Z.leb_gt in He].
      - apply binary64_of_ratio_positive; [nia | lia |].
        set (t := 2 ^ 1074) in *. nia.
      - unfold Binary64.on_grid in Hg. destruct (Hg He) as [N HN].
        apply binary64_of_ratio_positive; [lia | lia |].
        rewrite Z.abs_eq by lia. rewrite HN.
        set (t := 2 ^ 1074) in *. set (d := 10 ^ (- e)) in *.
        assert (0 < N) by nia. nia. }
    destruct r as [| | |m' e']; cbn in H; try contradiction.
    + cbn. symmetry. apply Z.ltb_lt. lia.
    + rewrite comes_after_Fin.
      transitivity true; [apply Z.ltb_lt; lia | symmetry; apply Z.ltb_lt; lia].
Qed.

Lemma on_grid_sub (x y : number) :
  Binary64.on_grid x -> Binary64.on_grid y -> Binary64.on_grid (num_sub x y).
Proof.
  destruct x as [| | |m1 e1], y as [| | |m2 e2]; try (intros; exact I).
  unfold num_sub. cbn [num_neg num_add Binary64.on_grid]. intros H1 H2 He.
  set (e0 := Z.min e1 e2) in *. unfold align.
  assert (Hx : exists N, m1 * 10 ^ (e1 - e0) * 2 ^ 1074 = N * 10 ^ (- e0)).
  { destruct (Z.lt_ge_cases e1 0) as [Hn | Hp].
    - destruct (H1 Hn) as [N HN]. exists (N * 1).
      replace (10 ^ (- e0)) with (10 ^ (- e1) * 10 ^ (e1 - e0))
        by (rewrite <- Z.pow_add_r by lia; f_equal; lia).
      nia.
    - exists (m1 * 10 ^ e1 * 2 ^ 1074).
      replace (10 ^ (e1 - e0)) with (10 ^ e1 * 10 ^ (- e0))
        by (rewrite <- Z.pow_add_r by lia; f_equal; lia).
      ring. }
  assert (Hy : exists N, m2 * 10 ^ (e2 - e0) * 2 ^ 1074 = N * 10 ^ (- e0)).
  { destruct (Z.lt_ge_cases e2 0) as [Hn | Hp].
    - destruct (H2 Hn) as [N HN]. exists (N * 1).
      replace (10 ^ (- e0)) with (10 ^ (- e2) * 10 ^ (e2 - e0))
        by (rewrite <- Z.pow_add_r by lia; f_equal; lia).
      nia.
    - exists (m2 * 10 ^ e2 * 2 ^ 1074).
      replace (10 ^ (e2 - e0)) with (10 ^ e2 * 10 ^ (- e0))
        by (rewrite <- Z.pow_add_r by lia; f_equal; lia).
      ring. }
  destruct Hx as [N1 HN1], Hy as [N2 HN2]. exists (N1 - N2). lia.
Qed.

(** [x - y] on two Numbers is positive exactly when [x <= y] fails. *)
Lemma sub64_comes_after (x y : number) :
  x <> NaN -> y <> NaN -> Binary64.on_grid x -> Binary64.on_grid y ->
  JSArray.comes_after (num_sub64 x y) = negb (le (VNum x) (VNum y)).
Proof.
  intros Hx Hy Gx Gy. unfold num_sub64.
  rewrite round64_sign by now apply on_grid_sub.
  now apply sub_comes_after.
Qed.

(** ** The best pool *)

Lemma tvl_map_on_grid (tvls : list PoolSelect.TvlRow) :
  forall (m : gmap string number),
    (forall k n, m !! k = Some n -> Binary64.on_grid n) ->
    forall k n,
      fold_left
        (fun m r => <[ToString (PoolSelect.tv_pool_id r)
                      := ToDouble (or_else (PoolSelect.tv_tvl_zig r) (VInt 0))]> m)
        tvls m !! k = Some n ->
      Binary64.on_grid n.
Proof.
  induction tvls as [|t tvls IH]; intros m Hm k n; cbn [fold_left]; [apply Hm |].
  apply IH. intros k' n' H.
  destruct (decide (ToString (PoolSelect.tv_pool_id t) = k')) as [<- | Hne].
  - rewrite lookup_insert_eq in H. injection H as <-. apply round64_grid.
  - rewrite lookup_insert_ne in H by exact Hne. now apply (Hm k').
Qed.

Section BestPool.
Variable tvls : list PoolSelect.TvlRow.
Variable prices : list PoolSelect.PriceRow.
Hypothesis priced :
  forall r, In r prices -> ToDouble (PoolSelect.pr_price_in_zig r) <> NaN.

Let cmp := PoolSelect.by_price_then_tvl (PoolSelect.tvl_map tvls).

(** The TVL of a candidate is a Number other than NaN. *)
Lemma tvl_is_double (r : PoolSelect.PriceRow) :
  exists n, Spec.tvl_in tvls r = VNum n /\ n <> NaN /\ Binary64.on_grid n.
Proof.
  unfold Spec.tvl_in, PoolSelect.tvl_of.
  destruct (PoolSelect.tvl_map tvls !! _) as [n|] eqn:E.
  - unfold or_else. destruct (ToBoolean (VNum n)) eqn:Eb.
    + exists n. split; [reflexivity |]. split; [intros ->; discriminate Eb |].
      apply (tvl_map_on_grid tvls ∅ ltac:(intros k' n' H; now rewrite lookup_empty in H)
               _ _ E).
    + exists (Fin 0 0). repeat split; [discriminate | cbn; lia].
  - exists (Fin 0 0). repeat split; [discriminate | cbn; lia].
Qed.

Lemma tvl_is_number (r : PoolSelect.PriceRow) : Spec.is_number (Spec.tvl_in tvls r).
Proof. destruct (tvl_is_double r) as (n & E & Hn & _). now exists n. Qed.

Lemma price_is_number (r : PoolSelect.PriceRow) :
  In r prices -> Spec.is_number (Spec.price_of r).
Proof. intros H. exists (ToDouble (PoolSelect.pr_price_in_zig r)). auto. Qed.

(** The comparator in terms of [<=]. *)
Lemma before_candidates (a b : PoolSelect.PriceRow) :
  In a prices -> In b prices ->
  (Spec.before cmp a b
   <-> le (Spec.price_of b) (Spec.price_of a) = false
       \/ (le (Spec.price_of a) (Spec.price_of b) = true
           /\ le (Spec.price_of b) (Spec.price_of a) = true
           /\ le (Spec.tvl_in tvls b) (Spec.tvl_in tvls a) = true)).
Proof.
  intros Ha Hb. unfold Spec.before, cmp, PoolSelect.by_price_then_tvl.
  fold (Spec.tvl_in tvls a) (Spec.tvl_in tvls b).
  pose proof (priced a Ha) as Hpa. pose proof (priced b Hb) as Hpb.
  pose proof (round64_grid (ToNumber (PoolSelect.pr_price_in_zig a))) as Gpa.
  pose proof (round64_grid (ToNumber (PoolSelect.pr_price_in_zig b))) as Gpb.
  fold (ToDouble (PoolSelect.pr_price_in_zig a)) in Gpa.
  fold (ToDouble (PoolSelect.pr_price_in_zig b)) in Gpb.
  rewrite (num_equal_le _ _ Hpa Hpb).
  fold (Spec.price_of a) (Spec.price_of b).
  destruct (le_total (Spec.price_of a) (Spec.price_of b)) as [Hab | Hba];
    auto using price_is_number.
  - rewrite Hab. cbn [andb].
    destruct (le (Spec.price_of b) (Spec.price_of a)) eqn:Eba; cbn [negb].
    + destruct (tvl_is_double a) as (ta & Eta & Hta & Gta),
        (tvl_is_double b) as (tb & Etb & Htb & Gtb).
      rewrite Eta, Etb. cbn [ToNumber]. rewrite sub64_comes_after by assumption.
      destruct (le (VNum tb) (VNum ta)); cbn [negb]; intuition congruence.
    + rewrite sub64_comes_after by assumption. fold (Spec.price_of a) (Spec.price_of b).
      rewrite Hab. cbn [negb]. intuition congruence.
  - rewrite Hba, andb_true_r.
    destruct (le (Spec.price_of a) (Spec.price_of b)) eqn:Eab; cbn [negb].
    + destruct (tvl_is_double a) as (ta & Eta & Hta & Gta),
        (tvl_is_double b) as (tb & Etb & Htb & Gtb).
      rewrite Eta, Etb. cbn [ToNumber]. rewrite sub64_comes_after by assumption.
      destruct (le (VNum tb) (VNum ta)); cbn [negb]; intuition congruence.
    + rewrite sub64_comes_after by assumption. fold (Spec.price_of a) (Spec.price_of b).
      rewrite Eab. cbn [negb]. intuition congruence.
Qed.

Lemma before_candidates_refl (a : PoolSelect.PriceRow) :
  In a prices -> Spec.before cmp a a.
Proof.
  intros Ha. apply before_candidates; auto. right.
  pose proof (le_refl _ (price_is_number a Ha)).
  pose proof (le_refl _ (tvl_is_number a)). auto.
Qed.

Lemma before_candidates_total (a b : PoolSelect.PriceRow) :
  In a prices -> In b prices -> Spec.before cmp a b \/ Spec.before cmp b a.
Proof.
  intros Ha Hb. rewrite !before_candidates by assumption.
  destruct (le (Spec.price_of b) (Spec.price_of a)) eqn:E1; [| auto].
  destruct (le (Spec.price_of a) (Spec.price_of b)) eqn:E2; [| auto].
  destruct (le_total _ _ (tvl_is_number a) (tvl_is_number b)); auto.
Qed.

Lemma before_candidates_trans (a b c : PoolSelect.PriceRow) :
  In a prices -> In b prices -> In c prices ->
  Spec.before cmp a b -> Spec.before cmp b c -> Spec.before cmp a c.
Proof.
  intros Ha Hb Hc. rewrite !before_candidates by assumption.
  pose proof (price_is_number a Ha) as Na. pose proof (price_is_number b Hb) as Nb.
  pose proof (price_is_number c Hc) as Nc.
  pose proof (tvl_is_number a) as Ma. pose proof (tvl_is_number b) as Mb.
  pose proof (tvl_is_number c) as Mc.
  intros [H1 | (H1 & H1' & H1t)] [H2 | (H2 & H2' & H2t)].
  - left. destruct (le (Spec.price_of c) (Spec.price_of a)) eqn:E; [| reflexivity].
    destruct (le_total _ _ Na Nb) as [Hab | Hba]; [| congruence].
    rewrite (le_trans _ _ _ Nc Na Nb E Hab) in H2. discriminate.
  - left. destruct (le (Spec.price_of c) (Spec.price_of a)) eqn:E; [| reflexivity].
    rewrite (le_trans _ _ _ Nb Nc Na H2 E) in H1. discriminate.
  - left. destruct (le (Spec.price_of c) (Spec.price_of a)) eqn:E; [| reflexivity].
    rewrite (le_trans _ _ _ Nc Na Nb E H1) in H2. discriminate.
  - right. split; [| split].
    + exact (le_trans _ _ _ Na Nb Nc H1 H2).
    + exact (le_trans _ _ _ Nc Nb Na H2' H1').
    + exact (le_trans _ _ _ Mc Mb Ma H2t H1t).
Qed.

(** The head of the sorted candidates has the lowest price and, among the
    candidates at that price, the highest TVL. *)
Lemma sorted_head_is_best (top : PoolSelect.PriceRow) (rest : list PoolSelect.PriceRow) :
  JSArray.sort cmp prices = top :: rest ->
  In top prices
  /\ (forall r, In r prices -> le (Spec.price_of top) (Spec.price_of r) = true)
  /\ (forall r, In r prices ->
         le (Spec.price_of r) (Spec.price_of top) = true ->
         le (Spec.tvl_in tvls r) (Spec.tvl_in tvls top) = true).
Proof.
  intros Hsort.
  destruct (sort_head cmp (fun r => In r prices) before_candidates_total
              before_candidates_trans prices top rest) as [Htop Hmin]; auto.
  { apply List.Forall_forall. auto. }
  { apply before_candidates_refl. }
  split; [exact Htop |]. split.
  - intros r Hr. pose proof (Hmin r Hr) as H. apply before_candidates in H; auto.
    destruct H as [H | (H & _)]; [| exact H].
    destruct (le_total _ _ (price_is_number top Htop) (price_is_number r Hr)); congruence.
  - intros r Hr Heq. pose proof (Hmin r Hr) as H. apply before_candidates in H; auto.
    destruct H as [H | (_ & _ & H)]; [congruence | exact H].
Qed.
End BestPool.

(** A candidate without a TVL row counts with a TVL of zero. *)
Lemma tvl_missing_is_zero (tvls : list PoolSelect.TvlRow) (r : PoolSelect.PriceRow) :
  (forall t, In t tvls ->
             ToString (PoolSelect.tv_pool_id t) <> ToString (PoolSelect.pr_pool_id r)) ->
  Spec.tvl_in tvls r = VInt 0.
Proof.
  intros H. unfold Spec.tvl_in, PoolSelect.tvl_of, PoolSelect.tvl_map.
  now rewrite tvl_map_other, lookup_empty.
Qed.

(** *** The candidates on the reference store *)

Lemma sorted_app_order {A : Type} (R : A -> A -> Prop) (l1 l2 : list A) :
  StronglySorted R (l1 ++ l2) -> forall a b, In a l1 -> In b l2 -> R a b.
Proof.
  induction l1 as [|x l1 IH]; intros Hs a b Ha Hb; [destruct Ha |].
  cbn [app] in Hs. apply StronglySorted_inv in Hs as [Hs Hall].
  destruct Ha as [<- | Ha]; [| now apply IH].
  apply (proj1 (List.Forall_forall _ _) Hall). apply in_or_app. now right.
Qed.

Lemma priced_pools_In (T : Store.Tables) (tokenId : value) (x : Store.PriceT) (p : Store.PoolT) :
  In (x, p) (Store.priced_pools T tokenId)
  <-> In x (Store.prices T) /\ In p (Store.pools T)
      /\ Store.param_is tokenId (Store.x_token_id x) = true
      /\ Store.p_pool_id p = Store.x_pool_id x
      /\ Store.p_is_uzig_quote p = true.
Proof.
  unfold Store.priced_pools. rewrite in_flat_map. split.
  - intros (x' & Hx' & Hin). apply filter_In in Hx' as [Hx' Ht].
    apply in_map_iff in Hin as (p' & [= <- <-] & Hp').
    apply filter_In in Hp' as [Hp' Hc]. apply andb_true_iff in Hc as [Hid Hu].
    apply Z.eqb_eq in Hid. auto.
  - intros (Hx & Hp & Ht & Hid & Hu). exists x. split.
    + apply filter_In. auto.
    + apply in_map_iff. exists p. split; [reflexivity |]. apply filter_In.
      split; [exact Hp |]. rewrite Hid, Z.eqb_refl, Hu. reflexivity.
Qed.

(** The rows of the statement of the candidates: the prices of the token
    joined with its UZIG-quoted pools, all of them when they are 16 or less,
    and otherwise 16 of them, none updated before one that is left out. *)
Lemma recent_prices_are_the_latest (T : Store.Tables) (tokenId : value) :
  exists kept dropped : list (Store.PriceT * Store.PoolT),
    Store.recent_prices T tokenId = map Store.price_row kept
    /\ (length kept <= 16)%nat
    /\ (dropped <> [] -> length kept = 16%nat)
    /\ (forall k d, In k kept -> In d dropped ->
          Store.x_updated_at (fst d) <= Store.x_updated_at (fst k))
    /\ (forall x p,
          In (x, p) (kept ++ dropped)
          <-> In x (Store.prices T) /\ In p (Store.pools T)
              /\ Store.param_is tokenId (Store.x_token_id x) = true
              /\ Store.p_pool_id p = Store.x_pool_id x
              /\ Store.p_is_uzig_quote p = true).
Proof.
  set (key := fun xp : Store.PriceT * Store.PoolT => Store.x_updated_at (fst xp)).
  set (S := Store.order_by_desc key (Store.priced_pools T tokenId)).
  exists (firstn 16 S), (skipn 16 S).
  split; [reflexivity |]. split; [rewrite length_firstn; lia |]. split; [| split].
  - intros Hd. rewrite length_firstn.
    destruct (Nat.le_gt_cases (length S) 16) as [Hle | Hgt]; [| lia].
    rewrite skipn_all2 in Hd by exact Hle. congruence.
  - intros k d Hk Hd.
    pose proof (order_by_sorted (fun a => - key a) (Store.priced_pools T tokenId)) as Hs.
    fold (Store.order_by_desc key (Store.priced_pools T tokenId)) in Hs. fold S in Hs.
    rewrite <- (firstn_skipn 16 S) in Hs.
    pose proof (sorted_app_order _ _ _ Hs k d Hk Hd) as H. cbv beta in H.
    subst key. cbv beta in H. lia.
  - intros x p. rewrite firstn_skipn. subst S. unfold Store.order_by_desc.
    rewrite <- priced_pools_In. split; apply Permutation_in.
    + apply order_by_perm.
    + symmetry. apply order_by_perm.
Qed.

Example best_of_A_and_B :
  PoolSelect.run (PoolSelect.bestUzigPool (Store.db Sample.tables) (VInt 7))
  = (Ok (Some {| PoolSelect.b_pool_id := VInt 2;
                 PoolSelect.b_pair_contract := VStr "B";
                 PoolSelect.b_price_in_zig := VInt 5 |}),
     [PoolSelect.RecentPrices (VInt 7); PoolSelect.Tvl24h "1,2"]).
Proof. vm_compute. reflexivity. Qed.

(** Prices that one Number reads alike are a tie, which the TVL breaks. *)
Example best_of_near_prices :
  PoolSelect.run (PoolSelect.bestUzigPool Sample.near_prices (VInt 7))
  = (Ok (Some {| PoolSelect.b_pool_id := VInt 1;
                 PoolSelect.b_pair_contract := VStr "A";
                 PoolSelect.b_price_in_zig := VInt 5 |}),
     [PoolSelect.RecentPrices (VInt 7); PoolSelect.Tvl24h "1,2"]).
Proof. vm_compute. reflexivity. Qed.

(** C4: let [prices] be what the store returns for the statement of the
    candidates.  When there is none [bestUzigPool] returns null.  Otherwise,
    the prices being read as Numbers (the binary64 value nearest to the
    decimal) and none being NaN, it returns a candidate whose price is the
    lowest and whose 24h TVL is the highest among the candidates at that
    price, a candidate without a TVL row counting for zero.  On the reference
    store the candidates are the prices of the token's UZIG-quoted pools, all
    of them when they are 16 or less and otherwise the 16 most recently
    updated; and of the pools A (price 5, TVL 100) and B (price 5, TVL 200)
    the function selects B. *)
Theorem bestUzigPool_lowest_price_then_highest_tvl :
  (forall (db : PoolSelect.DB) (tokenId : value) (prices : list PoolSelect.PriceRow),
      PoolSelect.select_recent_prices db tokenId = Ok prices ->
      (prices = [] ->
       PoolSelect.run (PoolSelect.bestUzigPool db tokenId)
       = (Ok None, [PoolSelect.RecentPrices tokenId]))
      /\ (forall tvls : list PoolSelect.TvlRow,
            prices <> [] ->
            PoolSelect.select_tvl_24h db
              (PoolSelect.in_list (map PoolSelect.pr_pool_id prices)) = Ok tvls ->
            (forall r, In r prices -> ToDouble (PoolSelect.pr_price_in_zig r) <> NaN) ->
            exists top,
              In top prices
              /\ PoolSelect.run (PoolSelect.bestUzigPool db tokenId)
                 = (Ok (Some {| PoolSelect.b_pool_id := PoolSelect.pr_pool_id top;
                                PoolSelect.b_pair_contract := PoolSelect.pr_pair_contract top;
                                PoolSelect.b_price_in_zig :=
                                  VNum (ToDouble (PoolSelect.pr_price_in_zig top)) |}),
                    [PoolSelect.RecentPrices tokenId;
                     PoolSelect.Tvl24h
                       (PoolSelect.in_list (map PoolSelect.pr_pool_id prices))])
              /\ (forall r, In r prices ->
                     le (VNum (ToDouble (PoolSelect.pr_price_in_zig top)))
                        (VNum (ToDouble (PoolSelect.pr_price_in_zig r))) = true)
              /\ (forall r, In r prices ->
                     le (VNum (ToDouble (PoolSelect.pr_price_in_zig r)))
                        (VNum (ToDouble (PoolSelect.pr_price_in_zig top))) = true ->
                     le (Spec.tvl_in tvls r) (Spec.tvl_in tvls top) = true)
              /\ (forall r,
                     (forall t, In t tvls ->
                        ToString (PoolSelect.tv_pool_id t)
                        <> ToString (PoolSelect.pr_pool_id r)) ->
                     Spec.tvl_in tvls r = VInt 0)))
  /\ (forall (T : Store.Tables) (tokenId : value),
        exists kept dropped : list (Store.PriceT * Store.PoolT),
          PoolSelect.select_recent_prices (Store.db T) tokenId
          = Ok (map Store.price_row kept)
          /\ (length kept <= 16)%nat
          /\ (dropped <> [] -> length kept = 16%nat)
          /\ (forall k d, In k kept -> In d dropped ->
                Store.x_updated_at (fst d) <= Store.x_updated_at (fst k))
          /\ (forall x p,
                In (x, p) (kept ++ dropped)
                <-> In x (Store.prices T) /\ In p (Store.pools T)
                    /\ Store.param_is tokenId (Store.x_token_id x) = true
                    /\ Store.p_pool_id p = Store.x_pool_id x
                    /\ Store.p_is_uzig_quote p = true))
  /\ PoolSelect.run (PoolSelect.bestUzigPool (Store.db Sample.tables) (VInt 7))
     = (Ok (Some {| PoolSelect.b_pool_id := VInt 2;
                    PoolSelect.b_pair_contract := VStr "B";
                    PoolSelect.b_price_in_zig := VInt 5 |}),
        [PoolSelect.RecentPrices (VInt 7); PoolSelect.Tvl24h "1,2"]).
Proof.
  split; [| split; [| exact best_of_A_and_B]].
  - intros db tokenId prices Hprices. split.
    + intros ->. unfold PoolSelect.bestUzigPool, PoolSelect.run, PoolSelect.mbind,
        PoolSelect.query. now rewrite Hprices.
    + intros tvls Hne Htvls Hnum.
      destruct (JSArray.sort (PoolSelect.by_price_then_tvl (PoolSelect.tvl_map tvls)) prices)
        as [|top rest] eqn:Hsort.
      { apply sort_nil in Hsort. contradiction. }
      destruct (sorted_head_is_best tvls prices Hnum top rest Hsort) as (Htop & Hlow & Htie).
      exists top. split; [exact Htop |]. split; [| split; [exact Hlow | split; [exact Htie |]]].
      * unfold PoolSelect.bestUzigPool, PoolSelect.run, PoolSelect.mbind, PoolSelect.query.
        rewrite Hprices. destruct prices as [|p0 prices']; [contradiction |].
        rewrite Htvls, Hsort. reflexivity.
      * intros r. apply tvl_missing_is_zero.
  - intros T tokenId.
    destruct (recent_prices_are_the_latest T tokenId) as (kept & dropped & E & H).
    exists kept, dropped. cbn [Store.db PoolSelect.select_recent_prices]. now rewrite E.
Qed.

Lemma bestUzigPool_lowest_price_then_highest_tvl_witness :
  exists top,
    PoolSelect.run (PoolSelect.bestUzigPool Sample.near_prices (VInt 7))
    = (Ok (Some {| PoolSelect.b_pool_id := PoolSelect.pr_pool_id top;
                   PoolSelect.b_pair_contract := PoolSelect.pr_pair_contract top;
                   PoolSelect.b_price_in_zig :=
                     VNum (ToDouble (PoolSelect.pr_price_in_zig top)) |}),
       [PoolSelect.RecentPrices (VInt 7); PoolSelect.Tvl24h "1,2"])
    /\ le (VNum (ToDouble (PoolSelect.pr_price_in_zig top)))
          (VNum (ToDouble (VStr "5"))) = true.
Proof.
  destruct (proj2 (proj1 bestUzigPool_lowest_price_then_highest_tvl
                     Sample.near_prices (VInt 7)
                     [ {| PoolSelect.pr_pool_id := VInt 1;
                          PoolSelect.pr_price_in_zig := VStr "5.000000000000000001";
                          PoolSelect.pr_updated_at := VInt 100;
                          PoolSelect.pr_pair_contract := VStr "A" |};
                       {| PoolSelect.pr_pool_id := VInt 2;
                          PoolSelect.pr_price_in_zig := VStr "5";
                          PoolSelect.pr_updated_at := VInt 90;
                          PoolSelect.pr_pair_contract := VStr "B" |} ]
                     eq_refl)
              [ {| PoolSelect.tv_pool_id := VInt 1; PoolSelect.tv_tvl_zig := VStr "100" |};
                {| PoolSelect.tv_pool_id := VInt 2; PoolSelect.tv_tvl_zig := VStr "50" |} ])
    as (top & Hin & Hrun & Hlow & _).
  - discriminate.
  - reflexivity.
  - intros r [<- | [<- | []]]; vm_compute; discriminate.
  - exists top. split; [exact Hrun |].
    apply (Hlow {| PoolSelect.pr_pool_id := VInt 2;
                   PoolSelect.pr_price_in_zig := VStr "5";
                   PoolSelect.pr_updated_at := VInt 90;
                   PoolSelect.pr_pair_contract := VStr "B" |}).
    right. now left.
Defined.

(** ** Pool selection under the policy [pool] *)

(** The guard [!Number.isFinite(n) || n <= 0] on [n = Number(v || 0)]. *)
Lemma guard_rejects (v : value) :
  Spec.absent v \/ Spec.non_numeric v \/ Spec.non_finite v \/ Spec.non_positive v ->
  let n := ToDouble (or_else v (VInt 0)) in
  negb (isFinite n) || le (VNum n) (VInt 0) = true.
Proof.
  intros H n. subst n. destruct (ToBoolean v) eqn:E.
  - rewrite (or_else_truthy _ _ E).
    destruct H as [[-> | ->] | [H | [H | H]]]; try discriminate E.
    + unfold Spec.non_numeric in H. now rewrite H.
    + unfold Spec.non_finite in H. now rewrite H.
    + unfold Spec.non_positive in H. rewrite H. apply orb_true_r.
  - unfold or_else. rewrite E. reflexivity.
Qed.

(** C5: under the policy [pool], with [pid = Number(poolId || 0)] read as
    the engine reads it (a text beyond the range of a Number is an infinity,
    one below it is zero): a pool id that is missing, does not read as a
    number, or is not finite or not positive gives
    [{ mode: 'pool', pool: null }] with no error and no statement issued.
    Any other pool id issues the statement of the pool once, with [pid] and
    the token, and the selection is the first row the store returns, or null
    when it returns none.  On the reference store a pool is returned exactly
    when a row of [pools] has that id and the requested token as its base
    token, and it is such a row. *)
Theorem resolvePoolSelection_pool_policy :
  forall (tokenId priceSource poolId : value),
    toLowerCase (ToString priceSource) = "pool"%string ->
    let pid := ToDouble (or_else poolId (VInt 0)) in
    (forall db : PoolSelect.DB,
        Spec.absent poolId \/ Spec.non_numeric poolId \/ Spec.non_finite poolId
        \/ Spec.non_positive poolId ->
        PoolSelect.run (PoolSelect.resolvePoolSelection db tokenId priceSource poolId)
        = (Ok {| PoolSelect.mode := "pool"; PoolSelect.pool := None |}, []))
    /\ (forall db : PoolSelect.DB,
          isFinite pid = true ->
          le (VNum pid) (VInt 0) = false ->
          PoolSelect.run (PoolSelect.resolvePoolSelection db tokenId priceSource poolId)
          = (match PoolSelect.select_pool_of_token db (VNum pid) tokenId with
             | Ok rows =>
                 Ok {| PoolSelect.mode := "pool";
                       PoolSelect.pool :=
                         match rows with
                         | r :: _ =>
                             Some {| PoolSelect.sel_pool_id := PoolSelect.pool_id r;
                                     PoolSelect.sel_pair_contract := PoolSelect.pair_contract r;
                                     PoolSelect.sel_price_in_zig := VUndefined |}
                         | [] => None
                         end |}
             | Throw e => Throw e
             end,
             [PoolSelect.PoolOfToken (VNum pid) tokenId]))
    /\ (forall T : Store.Tables,
          isFinite pid = true ->
          le (VNum pid) (VInt 0) = false ->
          exists sel,
            PoolSelect.run
              (PoolSelect.resolvePoolSelection (Store.db T) tokenId priceSource poolId)
            = (Ok sel, [PoolSelect.PoolOfToken (VNum pid) tokenId])
            /\ PoolSelect.mode sel = "pool"%string
            /\ (forall p, PoolSelect.pool sel = Some p ->
                  exists row,
                    In row (Store.pools T)
                    /\ Store.param_is (VNum pid) (Store.p_pool_id row) = true
                    /\ Store.param_is tokenId (Store.p_base_token_id row) = true
                    /\ PoolSelect.sel_pool_id p = VInt (Store.p_pool_id row)
                    /\ PoolSelect.sel_pair_contract p = VStr (Store.p_pair_contract row))
            /\ ((exists row,
                    In row (Store.pools T)
                    /\ Store.param_is (VNum pid) (Store.p_pool_id row) = true
                    /\ Store.param_is tokenId (Store.p_base_token_id row) = true) ->
                PoolSelect.pool sel <> None)
            /\ ((forall row,
                    In row (Store.pools T) ->
                    Store.param_is (VNum pid) (Store.p_pool_id row) = true ->
                    Store.param_is tokenId (Store.p_base_token_id row) = false) ->
                PoolSelect.pool sel = None)).
Proof.
  intros tokenId priceSource poolId Hsrc pid.
  apply pool_policy_src in Hsrc.
  assert (Hrun : forall db : PoolSelect.DB,
             isFinite pid = true ->
             le (VNum pid) (VInt 0) = false ->
             PoolSelect.run (PoolSelect.resolvePoolSelection db tokenId priceSource poolId)
             = (match PoolSelect.select_pool_of_token db (VNum pid) tokenId with
                | Ok rows =>
                    Ok {| PoolSelect.mode := "pool";
                          PoolSelect.pool :=
                            match rows with
                            | r :: _ => Some (PoolSelect.of_row r)
                            | [] => None
                            end |}
                | Throw e => Throw e
                end,
                [PoolSelect.PoolOfToken (VNum pid) tokenId])).
  { intros db Hfin Hpos. unfold PoolSelect.resolvePoolSelection, PoolSelect.run.
    rewrite Hsrc. change (String.eqb "pool" "pool") with true. cbv iota.
    fold pid. rewrite Hfin, Hpos. cbn [negb orb].
    unfold PoolSelect.mbind, PoolSelect.query, PoolSelect.ret. cbn [app].
    destruct (PoolSelect.select_pool_of_token db (VNum pid) tokenId); reflexivity. }
  split; [| split].
  - intros db Hbad. unfold PoolSelect.resolvePoolSelection, PoolSelect.run.
    rewrite Hsrc. change (String.eqb "pool" "pool") with true. cbv iota.
    now rewrite (guard_rejects poolId Hbad).
  - exact Hrun.
  - intros T Hfin Hpos. rewrite (Hrun (Store.db T) Hfin Hpos).
    cbn [Store.db PoolSelect.select_pool_of_token].
    eexists. split; [reflexivity |]. cbn [PoolSelect.mode PoolSelect.pool].
    split; [reflexivity |]. unfold Store.pool_of_token. split; [| split].
    + intros p Hp.
      destruct (map Store.pool_row (List.filter _ (Store.pools T))) as [|r rest] eqn:E;
        [discriminate |].
      injection Hp as <-.
      apply head_filter_map in E as (row & Hin & HP & ->).
      apply andb_true_iff in HP as [H1 H2]. exists row. auto.
    + intros (row & Hin & H1 & H2).
      assert (Hf : In row (List.filter
                             (fun p => Store.param_is (VNum pid) (Store.p_pool_id p)
                                       && Store.param_is tokenId (Store.p_base_token_id p))
                             (Store.pools T))).
      { apply filter_In. split; [exact Hin |]. now rewrite H1, H2. }
      destruct (List.filter _ (Store.pools T)) as [|r rest]; [destruct Hf |]. discriminate.
    + intros Hnone. rewrite filter_none_nil; [reflexivity |].
      intros row Hin.
      destruct (Store.param_is (VNum _) (Store.p_pool_id row)) eqn:E1; [| reflexivity].
      now rewrite (Hnone row Hin E1).
Qed.

Lemma resolvePoolSelection_pool_policy_witness :
  PoolSelect.run
    (PoolSelect.resolvePoolSelection (Store.db Sample.tables) (VInt 7) (VStr "Pool")
       (VStr "1e400"))
  = (Ok {| PoolSelect.mode := "pool"; PoolSelect.pool := None |}, []).
Proof.
  apply (resolvePoolSelection_pool_policy (VInt 7) (VStr "Pool") (VStr "1e400"));
    [reflexivity |].
  right. right. left. reflexivity.
Defined.

Example resolvePoolSelection_examples :
  map (fun '(token, source, pid) =>
         PoolSelect.run
           (PoolSelect.resolvePoolSelection (Store.db Sample.tables) token source pid))
      [ (VInt 7, VStr "pool", VStr "2");
        (VInt 8, VStr "pool", VInt 2);
        (VInt 7, VStr "pool", VInt (-2));
        (VInt 7, VStr "POOL", VUndefined);
        (VInt 7, VStr "pool", VStr "abc");
        (VInt 7, VStr "pool", VStr "1e400");
        (VInt 7, VStr "pool", VStr "1e-400");
        (VInt 7, VStr "pool", VStr "2.0000000000000000001") ]
  = [ (Ok {| PoolSelect.mode := "pool";
             PoolSelect.pool :=
               Some {| PoolSelect.sel_pool_id := VInt 2;
                       PoolSelect.sel_pair_contract := VStr "B";
                       PoolSelect.sel_price_in_zig := VUndefined |} |},
       [PoolSelect.PoolOfToken (VInt 2) (VInt 7)]);
      (Ok {| PoolSelect.mode := "pool"; PoolSelect.pool := None |},
       [PoolSelect.PoolOfToken (VInt 2) (VInt 8)]);
      (Ok {| PoolSelect.mode := "pool"; PoolSelect.pool := None |}, []);
      (Ok {| PoolSelect.mode := "pool"; PoolSelect.pool := None |}, []);
      (Ok {| PoolSelect.mode := "pool"; PoolSelect.pool := None |}, []);
      (Ok {| PoolSelect.mode := "pool"; PoolSelect.pool := None |}, []);
      (Ok {| PoolSelect.mode := "pool"; PoolSelect.pool := None |}, []);
      (Ok {| PoolSelect.mode := "pool";
             PoolSelect.pool :=
               Some {| PoolSelect.sel_pool_id := VInt 2;
                       PoolSelect.sel_pair_contract := VStr "B";
                       PoolSelect.sel_price_in_zig := VUndefined |} |},
       [PoolSelect.PoolOfToken (VInt 2) (VInt 7)]) ].
Proof. vm_compute. reflexivity. Qed.

(** ** Percent change *)







Example changePctForMinutes_examples :
  map (fun '(pid, mins) =>
         PoolSelect.run (PoolSelect.changePctForMinutes (Store.db Sample.tables) pid mins))
      [ (VInt 1, VInt 5); (VInt 1, VInt 20); (VStr "1", VStr "5");
        (VUndefined, VInt 5); (VInt 1, VInt 0); (VInt 1, VNum PosInfinity);
        (VInt 1, VStr "1e400"); (VInt 1, VStr "1e-400");
        (VInt 1, VStr "2.5") ]
  = [ (Ok (VInt 50), [PoolSelect.Change (VStr "1") (VStr "5")]);
      (Ok VNull, [PoolSelect.Change (VStr "1") (VStr "20")]);
      (Ok (VInt 50), [PoolSelect.Change (VStr "1") (VStr "5")]);
      (Ok VNull, []); (Ok VNull, []); (Ok VNull, []);
      (Ok VNull, []); (Ok VNull, []);
      (Throw "Cannot parse string as Int64", [PoolSelect.Change (VStr "1") (VStr "2.5")]) ].
Proof. vm_compute. reflexivity. Qed.

(** ** The candle serializer *)

Lemma rendered_text (v : value) (f : Z) :
  0 <= f <= 100 ->
  exists s, Ohlcv.decOrZero v (Some f) = Ok s /\ Spec.rendered v f = VStr s.
Proof.
  intros Hf. destruct (decOrZero_returns v f Hf) as [s Hs].
  exists s. split; [exact Hs |]. unfold Spec.rendered. now rewrite Hs.
Qed.

(** The nine arguments of a row: the prices at scale 18, the volume and the
    liquidity at scale 8. *)
Lemma row_args_values (r : Candle.Row) :
  Ohlcv.row_args r
  = Ok [ nullish_else (Candle.pool_id r) (VInt 0);
         Candle.bucket_start r;
         Spec.rendered (Candle.open r) 18;
         Spec.rendered (Candle.high r) 18;
         Spec.rendered (Candle.low r) 18;
         Spec.rendered (Candle.close r) 18;
         Spec.rendered (Candle.volume_zig r) 8;
         nullish_else (Candle.trade_count r) (VInt 0);
         Spec.rendered (nullish_else (Candle.liquidity_zig r) (VInt 0)) 8 ].
Proof.
  unfold Ohlcv.row_args.
  destruct (rendered_text (Candle.open r) 18 ltac:(lia)) as (o & -> & ->).
  destruct (rendered_text (Candle.high r) 18 ltac:(lia)) as (h & -> & ->).
  destruct (rendered_text (Candle.low r) 18 ltac:(lia)) as (l & -> & ->).
  destruct (rendered_text (Candle.close r) 18 ltac:(lia)) as (c & -> & ->).
  destruct (rendered_text (Candle.volume_zig r) 8 ltac:(lia)) as (v & -> & ->).
  destruct (rendered_text (nullish_else (Candle.liquidity_zig r) (VInt 0)) 8 ltac:(lia))
    as (q & -> & ->).
  reflexivity.
Qed.

Lemma insert_loop_values (rows : list Candle.Row) :
  forall p, exists ph,
    Ohlcv.insert_loop p rows
    = Ok (ph,
          concat (map (fun r =>
                         [ nullish_else (Candle.pool_id r) (VInt 0);
                           Candle.bucket_start r;
                           Spec.rendered (Candle.open r) 18;
                           Spec.rendered (Candle.high r) 18;
                           Spec.rendered (Candle.low r) 18;
                           Spec.rendered (Candle.close r) 18;
                           Spec.rendered (Candle.volume_zig r) 8;
                           nullish_else (Candle.trade_count r) (VInt 0);
                           Spec.rendered (nullish_else (Candle.liquidity_zig r) (VInt 0)) 8 ])
                      rows)).
Proof.
  induction rows as [|r rest IH]; intros p; [now exists [] |].
  cbn [Ohlcv.insert_loop map concat]. rewrite row_args_values.
  destruct (IH (p + 9)) as [ph ->]. cbn [bind]. eexists. reflexivity.
Qed.

(** C7, as the code has it: for a scale between 1 and 100
    [decOrZero(v, scale)] always returns.  With [n = Number(v || 0)], the
    binary64 value the engine reads: when [n] is finite and below 10^21 in
    magnitude the result is the decimal numeral of the integer nearest to
    [|n| * 10^scale] (the larger on a tie) with a point before its last
    [scale] digits, signed; when [v] is missing, or falsy in another way (NaN,
    zero, the empty string), the result is zero written with [scale]
    fractional digits; when [n] is not finite the result is the string "0".
    Hence [buildInsertSQL] returns on all rows; its arguments are, row after
    row, the pool id, the bucket start, open, high, low and close at scale 18,
    the volume at scale 8, the trade count and the liquidity at scale 8. *)
Theorem decOrZero_renders_fixed :
  forall (v : value) (scale : Z),
    0 < scale <= 100 ->
    let n := ToDouble (or_else v (VInt 0)) in
    (exists s, Ohlcv.decOrZero v (Some scale) = Ok s)
    /\ (forall m e,
          n = Fin m e ->
          num_compare (Fin (Z.abs m) e) (Fin 1 21) = Some Lt ->
          exists s, Ohlcv.decOrZero v (Some scale) = Ok s
                    /\ Spec.fixed_rendering s m e scale)
    /\ (Spec.absent v \/ ToBoolean v = false ->
          Ohlcv.decOrZero v (Some scale) = Ok ("0." +:+ repeat0 (Z.to_nat scale)))
    /\ (isFinite n = false -> Ohlcv.decOrZero v (Some scale) = Ok "0"%string)
    /\ (forall rows, exists q,
          Ohlcv.buildInsertSQL rows = Ok q
          /\ Ohlcv.args q
             = concat
                 (map (fun r =>
                         [ nullish_else (Candle.pool_id r) (VInt 0);
                           Candle.bucket_start r;
                           Spec.rendered (Candle.open r) 18;
                           Spec.rendered (Candle.high r) 18;
                           Spec.rendered (Candle.low r) 18;
                           Spec.rendered (Candle.close r) 18;
                           Spec.rendered (Candle.volume_zig r) 8;
                           nullish_else (Candle.trade_count r) (VInt 0);
                           Spec.rendered (nullish_else (Candle.liquidity_zig r) (VInt 0)) 8 ])
                      rows)
          /\ forall x f, 0 <= f <= 100 ->
               exists s, Ohlcv.decOrZero x (Some f) = Ok s /\ Spec.rendered x f = VStr s).
Proof.
  intros v scale Hs n. subst n. repeat split.
  - apply decOrZero_returns. lia.
  - intros m e Hn Hlt. unfold Ohlcv.decOrZero. rewrite Hn. cbn [isFinite negb].
    injection Hlt as Hlt.
    eexists. split; [apply toFixed_below_1e21; [lia | assumption] |].
    destruct (fixed_digits_shape (round_scaled (Z.abs m) e scale) scale ltac:(lia))
      as (a & b & Heq & Hb & Ha & Hda & Hdb & pad & Hnum).
    exists a, b, pad, (round_scaled (Z.abs m) e scale).
    rewrite Heq. repeat split; try assumption.
    apply round_scaled_nearest.
  - intros Habs. unfold Ohlcv.decOrZero.
    assert (Hzero : or_else v (VInt 0) = VInt 0).
    { destruct Habs as [Habs | Hfalsy]; [now apply or_else_absent |].
      unfold or_else. now rewrite Hfalsy. }
    rewrite Hzero. change (ToDouble (VInt 0)) with (Fin 0 0). cbn [isFinite negb].
    rewrite toFixed_below_1e21 by (lia || reflexivity).
    change (round_scaled (Z.abs 0) 0 scale) with (round_scaled 0 0 scale).
    unfold round_scaled. destruct (0 <=? 0 + scale) eqn:E; [| apply Z.leb_gt in E; lia].
    rewrite Z.mul_0_l, fixed_digits_zero by lia. reflexivity.
  - intros Hfin. unfold Ohlcv.decOrZero. now rewrite Hfin.
  - intros rows. unfold Ohlcv.buildInsertSQL. destruct rows as [|r rest].
    + eexists. split; [reflexivity |]. split; [reflexivity |]. apply rendered_text.
    + destruct (insert_loop_values (r :: rest) 1) as [ph ->]. cbn [bind].
      eexists. split; [reflexivity |]. split; [reflexivity |]. apply rendered_text.
Qed.

Lemma decOrZero_renders_fixed_witness :
  Ohlcv.decOrZero VNull (Some 18) = Ok "0.000000000000000000"%string
  /\ Ohlcv.decOrZero (VStr "1e400") (Some 18) = Ok "0"%string
  /\ exists s m e,
       ToDouble (VStr "0.1") = Fin m e
       /\ Ohlcv.decOrZero (VStr "0.1") (Some 18) = Ok s
       /\ Spec.fixed_rendering s m e 18
       /\ s = "0.100000000000000006"%string.
Proof.
  split; [| split].
  - apply (decOrZero_renders_fixed VNull 18 ltac:(lia)). left. right. reflexivity.
  - apply (decOrZero_renders_fixed (VStr "1e400") 18 ltac:(lia)). reflexivity.
  - destruct (proj1 (proj2 (decOrZero_renders_fixed (VStr "0.1") 18 ltac:(lia)))
                10000000000000000555111512312578270211815834045410156250 (-56)
                eq_refl eq_refl) as (s & Hs & Hr).
    exists s, 10000000000000000555111512312578270211815834045410156250, (-56).
    split; [reflexivity |]. split; [exact Hs |]. split; [exact Hr |].
    vm_compute in Hs. now injection Hs as <-.
Defined.

(** C7 as stated fails: a missing value is not sent as the string "0" but
    as zero with all its fractional digits, and a finite value of 10^21 or
    more is sent in exponent notation. *)
Lemma decOrZero_missing_is_not_the_string_0 :
  Ohlcv.decOrZero VUndefined (Some 18) = Ok "0.000000000000000000"%string
  /\ Ohlcv.decOrZero VUndefined (Some 18) <> Ok "0"%string
  /\ Ohlcv.decOrZero (VNum (Fin 1 21)) (Some 18) = Ok "1e+21"%string.
Proof. repeat split. intros H. vm_compute in H. discriminate. Qed.
